(** * BotTrading-V4: the analysis pipeline and the signal monitor

    A shallow embedding of [analysis.js] (candle loader, indicators,
    signal generator, TP/SL scan) and of the signal bookkeeping of
    [index.js] (deduplication, registration, monitor tick), followed by
    the properties established about them.

    Numbers.  A JavaScript number is embedded as [num]: either [NaN] or an
    exact rational.  Rounding error of binary64 arithmetic and the
    infinities are not represented; every arithmetic operation is the
    exact one.  The only divisions the code performs by a possibly-zero
    divisor are guarded ([avgLoss === 0 ? ...], [Math.abs(atr) || 1]) or
    are of the form 0/0 (the risk-reward ratio when ATR is 0), for which
    JavaScript yields NaN as well; [div] returns [NaN] on a zero divisor.
    For the levels and the risk-reward ratio of a signal, whose values
    depend on the rounding, the computation is embedded a second time
    with every result rounded ([Float]), for any rounding with a bounded
    relative error and for the rounding of binary64 in particular. *)

From Stdlib Require Import QArith Qround Qabs Qminmax ZArith List String Ascii Bool.
From Stdlib Require Import DecimalString Lia Lqa Sorted Permutation Qpower.
From Stdlib Require Qcanon.
Import ListNotations.

Set Implicit Arguments.
Set Warnings "-register-all".

(* ================================================================== *)
(** ** JavaScript numbers *)
(* ================================================================== *)

Module JsNum.

Inductive num : Type :=
| NaN
| Num (q : Q).

Declare Scope num_scope.
Delimit Scope num_scope with num.
Bind Scope num_scope with num.

Definition lift2 (f : Q -> Q -> Q) (a b : num) : num :=
  match a, b with
  | Num x, Num y => Num (f x y)
  | _, _ => NaN
  end.

Definition add : num -> num -> num := lift2 Qplus.
Definition sub : num -> num -> num := lift2 Qminus.
Definition mul : num -> num -> num := lift2 Qmult.

Definition div (a b : num) : num :=
  match a, b with
  | Num x, Num y => if Qeq_bool y 0 then NaN else Num (x / y)
  | _, _ => NaN
  end.

(** Relational operators: any comparison with NaN is false. *)
Definition cmp2 (f : Q -> Q -> bool) (a b : num) : bool :=
  match a, b with
  | Num x, Num y => f x y
  | _, _ => false
  end.

Definition Qlt_bool (x y : Q) : bool := negb (Qle_bool y x).

Definition lt : num -> num -> bool := cmp2 Qlt_bool.
Definition le : num -> num -> bool := cmp2 Qle_bool.
Definition gt (a b : num) : bool := lt b a.
Definition ge (a b : num) : bool := le b a.
Definition strictEq : num -> num -> bool := cmp2 Qeq_bool.

Definition isNaN (a : num) : bool :=
  match a with NaN => true | Num _ => false end.

(** ToBoolean on a number: NaN and 0 are falsy. *)
Definition truthyNum (a : num) : bool :=
  match a with NaN => false | Num q => negb (Qeq_bool q 0) end.

(** [a || b] on numbers. *)
Definition orElse (a b : num) : num := if truthyNum a then a else b.

Definition Math_abs (a : num) : num :=
  match a with NaN => NaN | Num q => Num (Qabs q) end.
Definition Math_max : num -> num -> num := lift2 Qmax.
Definition Math_min : num -> num -> num := lift2 Qmin.

(** [Math.round]: the nearest integer, ties towards +infinity. *)
Definition Math_round (a : num) : num :=
  match a with
  | NaN => NaN
  | Num q => Num (inject_Z (Qfloor (q + (1 # 2))))
  end.

(** [Number.prototype.toFixed] picks the integer n with n / 10^d closest
    to |x|, the larger one on a tie, and restores the sign. *)
Definition roundHalfAway (q : Q) : Z :=
  if Qle_bool 0 q then Qfloor (q + (1 # 2)) else (- Qfloor (- q + (1 # 2)))%Z.

Definition pow10 (d : nat) : Z := (10 ^ Z.of_nat d)%Z.

(** [parseFloat(x.toFixed(d))]. *)
Definition toFixed (d : nat) (a : num) : num :=
  match a with
  | NaN => NaN
  | Num q =>
      Num (inject_Z (roundHalfAway (q * inject_Z (pow10 d))) / inject_Z (pow10 d))
  end.

Definition n0 : num := Num 0.
Definition n100 : num := Num 100.
Definition ofZ (z : Z) : num := Num (inject_Z z).
Definition ofNat (n : nat) : num := Num (inject_Z (Z.of_nat n)).

(** Equality of numbers up to the representation of the rational. *)
Definition eqn (a b : num) : Prop :=
  match a, b with
  | NaN, NaN => True
  | Num x, Num y => x == y
  | _, _ => False
  end.

(** A square root on the rationals for evaluating the pipeline on concrete
    candles: the floor of the exact root on the grid of multiples of
    2^-40.  It is exact on squares of grid points and monotone. *)
Definition sqrtDyadic (a : num) : num :=
  match a with
  | NaN => NaN
  | Num q =>
      if Qlt_bool q 0 then NaN
      else
        let d := Zpos (Qden q) in
        Num (Qred (Qmake (Z.sqrt (Qnum q * d * 2 ^ 80)) (Qden q * 2 ^ 40)))
  end.

End JsNum.

Export JsNum.

Infix "+" := add : num_scope.
Infix "-" := sub : num_scope.
Infix "*" := mul : num_scope.
Infix "/" := div : num_scope.
Infix "<?" := lt : num_scope.
Infix "<=?" := le : num_scope.
Infix ">?" := gt : num_scope.
Infix ">=?" := ge : num_scope.
Infix "===" := strictEq (at level 70, no associativity) : num_scope.
Infix "=n=" := eqn (at level 70, no associativity).

Open Scope string_scope.
Open Scope list_scope.

(* ================================================================== *)
(** ** JSON values received from the data sources *)
(* ================================================================== *)

Module Wire.

Inductive value : Type :=
| VUndefined
| VNull
| VBool (b : bool)
| VNumber (n : num)
| VString (s : string)
| VArray (items : list value)
| VObject (props : list (string * value)).

(** ToBoolean. *)
Definition truthy (v : value) : bool :=
  match v with
  | VUndefined | VNull => false
  | VBool b => b
  | VNumber n => truthyNum n
  | VString s => negb (s =? "")
  | VArray _ | VObject _ => true
  end.

(** [a || b]. *)
Definition orValue (a b : value) : value := if truthy a then a else b.

Fixpoint lookup (k : string) (props : list (string * value)) : value :=
  match props with
  | [] => VUndefined
  | (k', v) :: rest => if k =? k' then v else lookup k rest
  end.

Definition indexKey (i : nat) : string := NilEmpty.string_of_uint (Nat.to_uint i).

Definition charAt (s : string) (i : nat) : value :=
  match String.get i s with
  | Some c => VString (String c "")
  | None => VUndefined
  end.

(** [v[i]]; [None] is the TypeError raised on null and undefined. *)
Definition getIdx (v : value) (i : nat) : option value :=
  match v with
  | VUndefined | VNull => None
  | VArray items => Some (nth i items VUndefined)
  | VObject props => Some (lookup (indexKey i) props)
  | VString s => Some (charAt s i)
  | VBool _ | VNumber _ => Some VUndefined
  end.

(** [v.k] for the property names the loader reads (none of them is a
    built-in property of arrays, strings, numbers or booleans). *)
Definition getProp (v : value) (k : string) : option value :=
  match v with
  | VUndefined | VNull => None
  | VObject props => Some (lookup k props)
  | _ => Some VUndefined
  end.

(** [v?.k]. *)
Definition optProp (v : value) (k : string) : value :=
  match getProp v k with
  | Some x => x
  | None => VUndefined
  end.

Definition zero : value := VNumber (Num 0).

End Wire.

Export Wire.

(* ================================================================== *)
(** ** The JavaScript built-ins the code relies on *)
(* ================================================================== *)

(** [Math.sqrt], [parseInt] and [parseFloat] belong to the runtime; the
    development is parametric in them. *)
Class JsRuntime : Type := {
  Math_sqrt : num -> num;
  parseInt : value -> num;
  parseFloat : value -> num
}.

(** A reference runtime for evaluating the code on concrete inputs.  It
    covers numbers and plain decimal strings ([-12.5], [1700000000000]),
    the scalars the exchanges send. *)
Module RefRuntime.

Definition digitOf (c : ascii) : option Z :=
  let n := nat_of_ascii c in
  if (48 <=? n)%nat && (n <=? 57)%nat then Some (Z.of_nat (n - 48)) else None.

(** Reads the leading digits of [s]: their value, their number, the rest. *)
Fixpoint readDigits (s : string) (acc : Z) (count : nat) : Z * nat * string :=
  match s with
  | String c rest =>
      match digitOf c with
      | Some d => readDigits rest (acc * 10 + d)%Z (S count)
      | None => (acc, count, s)
      end
  | EmptyString => (acc, count, s)
  end.

Definition readSign (s : string) : bool * string :=
  match s with
  | String "-" rest => (true, rest)
  | String "+" rest => (false, rest)
  | _ => (false, s)
  end.

Definition signed (neg : bool) (q : Q) : Q := if neg then - q else q.

Definition parseDecimal (s : string) : num :=
  let '(neg, s1) := readSign s in
  let '(ip, ic, s2) := readDigits s1 0%Z 0%nat in
  match s2 with
  | String "." s3 =>
      let '(fp, fc, _) := readDigits s3 0%Z 0%nat in
      if (ic + fc =? 0)%nat then NaN
      else Num (signed neg (Qred (inject_Z ip + inject_Z fp / inject_Z (pow10 fc))))
  | _ => if (ic =? 0)%nat then NaN else Num (signed neg (inject_Z ip))
  end.

Definition parseInteger (s : string) : num :=
  let '(neg, s1) := readSign s in
  let '(ip, ic, _) := readDigits s1 0%Z 0%nat in
  if (ic =? 0)%nat then NaN else Num (signed neg (inject_Z ip)).

Definition truncate (q : Q) : Z :=
  if Qle_bool 0 q then Qfloor q else Qceiling q.

Definition parseFloatRef (v : value) : num :=
  match v with
  | VNumber n => n
  | VString s => parseDecimal s
  | _ => NaN
  end.

Definition parseIntRef (v : value) : num :=
  match v with
  | VNumber (Num q) => Num (inject_Z (truncate q))
  | VString s => parseInteger s
  | _ => NaN
  end.

End RefRuntime.

Definition refRuntime : JsRuntime := {|
  Math_sqrt := sqrtDyadic;
  parseInt := RefRuntime.parseIntRef;
  parseFloat := RefRuntime.parseFloatRef
|}.

(* ================================================================== *)
(** ** analysis.js: the candle loader *)
(* ================================================================== *)

Module Analysis.

Record Candle : Type := mkCandle {
  t : num;
  open : num;
  high : num;
  low : num;
  close : num;
  vol : num
}.

Record DataSource : Type := mkSource {
  name : string;
  priority : Z
}.

Definition DATA_SOURCES : list DataSource :=
  [ mkSource "Binance Main" 1;
    mkSource "Binance Futures (fapi) fallback" 2;
    mkSource "Bybit Backup" 3 ].

Definition RSI_LENGTH : nat := 14.
Definition BB_LENGTH : nat := 20.
Definition BB_STD : num := Num 2.
Definition V_SMA : nat := 3.
Definition ATR_LENGTH : nat := 14.

(** Outcome of one [axios.get]: the promise rejects (timeout, network
    error, status outside 2xx; [HttpError] carries [err.response.status]
    when there is one) or resolves with a status and the parsed body. *)
Inductive HttpResult : Type :=
| HttpError (status : option Z)
| HttpOk (status : Z) (data : value).

(** The network as seen by the loader: source name, symbol, interval and
    limit (the four things the request URL is built from). *)
Definition Network : Type := string -> string -> string -> Z -> HttpResult.

Inductive result (A : Type) : Type :=
| Ok (a : A)
| Thrown (message : string).
Arguments Thrown {A} message.

(** [Array.prototype.sort(compare)]: a stable sort; a comparator result
    that is not positive (0, negative or NaN) keeps the two elements in
    their order.  For a comparator that is a total preorder this is the
    unique stable sorted arrangement, which is what the language
    guarantees.  A comparator that is NaN on some pairs only is no
    preorder, and the arrangement is then the engine's: of such a list
    the properties below use only that [sort] permutes it. *)
Section Sort.
Variable A : Type.
Variable compare : A -> A -> num.

Fixpoint insertSorted (x : A) (l : list A) : list A :=
  match l with
  | [] => [x]
  | y :: rest =>
      if (compare x y >? Num 0)%num then y :: insertSorted x rest
      else x :: l
  end.

Definition sort (l : list A) : list A := fold_right insertSorted [] l.
End Sort.

(** [String.prototype.includes]. *)
Fixpoint includes (s sub : string) : bool :=
  String.prefix sub s ||
  match s with
  | EmptyString => false
  | String _ rest => includes rest sub
  end.

Fixpoint mapM {A B : Type} (f : A -> option B) (l : list A) : option (list B) :=
  match l with
  | [] => Some []
  | x :: rest =>
      match f x with
      | None => None
      | Some y =>
          match mapM f rest with
          | None => None
          | Some ys => Some (y :: ys)
          end
      end
  end.

Section Loader.
Context {rt : JsRuntime}.

(** The callback of [list.map] in the Bybit branch. *)
Definition bybitItem (item : value) : option Candle :=
  match item with
  | VArray items =>
      let at_ i := nth i items VUndefined in
      Some {| t := parseInt (at_ 0%nat);
              open := parseFloat (at_ 1%nat);
              high := parseFloat (at_ 2%nat);
              low := parseFloat (at_ 3%nat);
              close := parseFloat (at_ 4%nat);
              vol := parseFloat (orValue (at_ 5%nat) zero) |}
  | VUndefined | VNull => None
  | _ =>
      let p k := optProp item k in
      Some {| t := parseInt (orValue (orValue (p "t") (p "start")) zero);
              open := parseFloat (orValue (orValue (p "o") (p "open")) zero);
              high := parseFloat (orValue (orValue (p "h") (p "high")) zero);
              low := parseFloat (orValue (orValue (p "l") (p "low")) zero);
              close := parseFloat (orValue (orValue (p "c") (p "close")) zero);
              vol := parseFloat (orValue (orValue (p "v") (p "volume")) zero) |}
  end.

(** The callback of [raw.map] in the Binance branch. *)
Definition binanceItem (item : value) : option Candle :=
  match getIdx item 0 with
  | None => None
  | Some _ =>
      let at_ i := match getIdx item i with Some v => v | None => VUndefined end in
      Some {| t := parseInt (at_ 0%nat);
              open := parseFloat (at_ 1%nat);
              high := parseFloat (at_ 2%nat);
              low := parseFloat (at_ 3%nat);
              close := parseFloat (at_ 4%nat);
              vol := parseFloat (orValue (at_ 5%nat) zero) |}
  end.

Definition byTime (a b : Candle) : num := (t a - t b)%num.

(** [raw?.result?.list || raw?.result?.data || raw]. *)
Definition bybitList (raw : value) : value :=
  let res := optProp raw "result" in
  orValue (orValue (optProp res "list") (optProp res "data")) raw.

(** The normalisation of one response body; [None] is an exception
    (thrown explicitly or a TypeError), caught by the loop. *)
Definition normalize (source : DataSource) (raw : value) : option (list Candle) :=
  if includes (name source) "Bybit" then
    let list := bybitList raw in
    if negb (truthy list) then None
    else
      match list with
      | VArray items =>
          match mapM bybitItem items with
          | Some mapped => Some (sort byTime mapped)
          | None => None
          end
      | _ => None
      end
  else
    match raw with
    | VArray items => mapM binanceItem items
    | _ => None
    end.

(** One iteration of the loop over the sources: [Some candles] when the
    iteration returns, [None] when it continues with the next source. *)
Definition trySource (net : Network) (symbol interval : string) (limit : Z)
    (source : DataSource) : option (list Candle) :=
  match net (name source) symbol interval limit with
  | HttpError _ => None
  | HttpOk status raw =>
      if negb (status =? 200)%Z || negb (truthy raw) then None
      else
        match normalize source raw with
        | None => None
        | Some candles =>
            if (List.length candles =? 0)%nat then None else Some candles
        end
  end.

Fixpoint trySources (net : Network) (symbol interval : string) (limit : Z)
    (sources : list DataSource) : result (list Candle) :=
  match sources with
  | [] => Thrown "All data sources failed"
  | source :: rest =>
      match trySource net symbol interval limit source with
      | Some candles => Ok candles
      | None => trySources net symbol interval limit rest
      end
  end.

Definition byPriority (a b : DataSource) : num :=
  (ofZ (priority a) - ofZ (priority b))%num.

Definition loadCandles (net : Network) (symbol interval : string) (limit : Z)
    : result (list Candle) :=
  trySources net symbol interval limit (sort byPriority DATA_SOURCES).

End Loader.

(* ================================================================== *)
(** ** analysis.js: the indicators *)
(* ================================================================== *)

(** [closes[i] - closes[i - 1]] for i = 1 .. length - 1, [prev] being
    the element before [rest]. *)
Fixpoint deltasFrom (prev : num) (rest : list num) : list num :=
  match rest with
  | [] => []
  | c :: rest' => (c - prev)%num :: deltasFrom c rest'
  end.

Definition deltasOf (closes : list num) : list num :=
  match closes with
  | [] => []
  | c :: rest => deltasFrom c rest
  end.

(** The seeding loop of [rsiFromCloses]: [(gains, losses)]. *)
Definition seedStep (gl : num * num) (d : num) : num * num :=
  let '(gains, losses) := gl in
  if (d >? n0)%num then ((gains + d)%num, losses)
  else (gains, (losses + Math_abs d)%num).

Definition seedSums (ds : list num) : num * num := fold_left seedStep ds (n0, n0).

(** [100 - 100 / (1 + rs)] with [rs = avgLoss === 0 ? 100 : avgGain / avgLoss]. *)
Definition rsiValue (avgGain avgLoss : num) : num :=
  let rs := if (avgLoss === n0)%num then n100 else (avgGain / avgLoss)%num in
  (n100 - n100 / (Num 1 + rs))%num.

Definition smoothStep (length : nat) (avg x : num) : num :=
  ((avg * (ofNat length - Num 1) + x) / ofNat length)%num.

(** The smoothing loop of [rsiFromCloses]: the pairs [(avgGain, avgLoss)]
    after each further delta. *)
Fixpoint rsiSmooth (length : nat) (avgGain avgLoss : num) (ds : list num)
    : list (num * num) :=
  match ds with
  | [] => []
  | d :: rest =>
      let gain := if (d >? n0)%num then d else n0 in
      let loss := if (d <? n0)%num then Math_abs d else n0 in
      let avgGain' := smoothStep length avgGain gain in
      let avgLoss' := smoothStep length avgLoss loss in
      (avgGain', avgLoss') :: rsiSmooth length avgGain' avgLoss' rest
  end.

(** The averages behind [res[length]], [res[length + 1]], ... *)
Definition rsiAverages (closes : list num) (length : nat) : list (num * num) :=
  let deltas := deltasOf closes in
  let '(gains, losses) := seedSums (firstn length deltas) in
  let avgGain := (gains / ofNat length)%num in
  let avgLoss := (losses / ofNat length)%num in
  (avgGain, avgLoss) :: rsiSmooth length avgGain avgLoss (skipn length deltas).

Definition rsiFromCloses (closes : list num) (length : nat) : list num :=
  if (List.length closes <? length + 1)%nat then repeat NaN (List.length closes)
  else
    repeat NaN length
      ++ map (fun gl => rsiValue (fst gl) (snd gl)) (rsiAverages closes length).

(** The loop of [sma]: [i] is the index of the head of [todo], [sum] the
    running sum before it. *)
Fixpoint smaLoop (values : list num) (period : nat) (i : nat) (sum : num)
    (todo : list num) : list num :=
  match todo with
  | [] => []
  | v :: rest =>
      let sum1 := (sum + orElse v n0)%num in
      let sum2 :=
        if (period <=? i)%nat
        then (sum1 - orElse (nth (i - period) values NaN) n0)%num
        else sum1 in
      (if (period - 1 <=? i)%nat then (sum2 / ofNat period)%num else NaN)
        :: smaLoop values period (S i) sum2 rest
  end.

Definition sma (values : list num) (period : nat) : list num :=
  smaLoop values period 0 n0 values.

Definition Math_max3 (a b c : num) : num := Math_max (Math_max a b) c.

Fixpoint trueRanges (prev : Candle) (rest : list Candle) : list num :=
  match rest with
  | [] => []
  | cur :: rest' =>
      Math_max3 (high cur - low cur)%num
                (Math_abs (high cur - close prev)%num)
                (Math_abs (low cur - close prev)%num)
        :: trueRanges cur rest'
  end.

Fixpoint atrSmooth (period : nat) (atr : num) (trs : list num) : list num :=
  match trs with
  | [] => []
  | tr :: rest =>
      let atr' := smoothStep period atr tr in
      atr' :: atrSmooth period atr' rest
  end.

Definition sum (l : list num) : num := fold_left add l n0.

Definition atrFromCandles (candles : list Candle) (period : nat) : list num :=
  let trs := match candles with [] => [] | c :: rest => trueRanges c rest end in
  if (List.length trs <? period)%nat then repeat NaN (List.length candles)
  else
    let atr := (sum (firstn period trs) / ofNat period)%num in
    repeat NaN period ++ atr :: atrSmooth period atr (skipn period trs).

(* ================================================================== *)
(** ** analysis.js: the signal generator *)
(* ================================================================== *)

Record Meta : Type := mkMeta {
  meta_rsi : num;
  meta_acc : num;
  meta_atr : num;
  meta_lowerBB : num;
  meta_upperBB : num;
  meta_timeframe : string
}.

(** The object returned by [analyzeSymbol]. *)
Record Analysis : Type := mkAnalysis {
  symbol : string;
  side : string;
  entry : num;
  sl : num;
  tp : num;
  rr : num;
  confidence : num;
  meta : Meta
}.

(** The entry rules: [Some side], or [None] for the early [return null]. *)
Definition entryRule (rsi close lowerBB upperBB acc : num) : option string :=
  if (rsi <? Num 30)%num && (close <? lowerBB)%num && (acc >? n0)%num then Some "LONG"
  else if (rsi >? Num 70)%num && (close >? upperBB)%num && (acc <? n0)%num then Some "SHORT"
  else None.

Definition confidenceOf (acc atr : num) : num :=
  (Num 60 + Math_min (Num 35)
     (Math_max n0 (Math_abs acc / orElse (Math_abs atr) (Num 1) * Num 10)))%num.

(** The values [analyzeSymbol] reads at the latest index. *)
Record Snapshot : Type := mkSnapshot {
  snap_rsi : num;
  snap_close : num;
  snap_lowerBB : num;
  snap_upperBB : num;
  snap_acc : num;
  snap_atr : num
}.

(** [analyzeSymbol] from the NaN check on, as a function of the values
    read at the latest index. *)
Definition signalFromSnapshot (symbol : string) (s : Snapshot) : option Analysis :=
  let rsi := snap_rsi s in
  let close := snap_close s in
  let lowerBB := snap_lowerBB s in
  let upperBB := snap_upperBB s in
  let acc := snap_acc s in
  let atr := snap_atr s in
  if existsb isNaN [rsi; lowerBB; upperBB; acc; atr] then None
  else
    match entryRule rsi close lowerBB upperBB acc with
    | None => None
    | Some side =>
        let entry := close in
        let '(sl, tp) :=
          if side =? "LONG"
          then ((entry - Num (3 # 2) * atr)%num, (entry + Num 3 * atr)%num)
          else ((entry + Num (3 # 2) * atr)%num, (entry - Num 3 * atr)%num) in
        let rr := (Math_abs (tp - entry) / Math_abs (entry - sl))%num in
        let confidence := confidenceOf acc atr in
        Some {| symbol := symbol;
                side := side;
                entry := toFixed 8 entry;
                sl := toFixed 8 sl;
                tp := toFixed 8 tp;
                rr := toFixed 2 rr;
                confidence := Math_round (Math_min n100 confidence);
                meta := {| meta_rsi := toFixed 2 rsi;
                           meta_acc := toFixed 8 acc;
                           meta_atr := toFixed 8 atr;
                           meta_lowerBB := toFixed 8 lowerBB;
                           meta_upperBB := toFixed 8 upperBB;
                           meta_timeframe := "5m" |} |}
    end.

Definition priceChange (closes : list num) : list num :=
  match closes with
  | [] => []
  | c :: rest => n0 :: deltasFrom c rest
  end.

Definition velocity (closes : list num) : list num := sma (priceChange closes) V_SMA.

Definition accelAt (vArr : list num) (i : nat) : num :=
  if (1 <=? i)%nat
     && negb (isNaN (nth i vArr NaN)) && negb (isNaN (nth (i - 1) vArr NaN))
  then (nth i vArr NaN - nth (i - 1) vArr NaN)%num
  else NaN.

Definition acceleration (vArr : list num) : list num :=
  map (accelAt vArr) (seq 0 (List.length vArr)).

Section Generator.
Context {rt : JsRuntime}.

(** [mean +/- BB_STD * std] over [closes.slice(i - BB_LENGTH + 1, i + 1)];
    [up] selects the upper band. *)
Definition bandAt (closes sma20 : list num) (up : bool) (i : nat) : num :=
  if (BB_LENGTH - 1 <=? i)%nat then
    let slice := firstn BB_LENGTH (skipn (i + 1 - BB_LENGTH) closes) in
    let mean := nth i sma20 NaN in
    let variance :=
      fold_left (fun acc v => (acc + (v - mean) * (v - mean))%num) slice n0 in
    let variance := (variance / ofNat BB_LENGTH)%num in
    let std := Math_sqrt variance in
    if up then (mean + BB_STD * std)%num else (mean - BB_STD * std)%num
  else NaN.

Definition bb_upper (closes : list num) : list num :=
  map (bandAt closes (sma closes BB_LENGTH) true) (seq 0 (List.length closes)).
Definition bb_lower (closes : list num) : list num :=
  map (bandAt closes (sma closes BB_LENGTH) false) (seq 0 (List.length closes)).

(** The indicator arrays of [analyzeSymbol], read at the latest index. *)
Definition latestSnapshot (ohlcv : list Candle) : Snapshot :=
  let closes := map close ohlcv in
  let rsiArr := rsiFromCloses closes RSI_LENGTH in
  let vArr := velocity closes in
  let aArr := acceleration vArr in
  let atrArr := atrFromCandles ohlcv ATR_LENGTH in
  let i := (List.length closes - 1)%nat in
  {| snap_rsi := nth i rsiArr NaN;
     snap_close := nth i closes NaN;
     snap_lowerBB := nth i (bb_lower closes) NaN;
     snap_upperBB := nth i (bb_upper closes) NaN;
     snap_acc := nth i aArr NaN;
     snap_atr := nth i atrArr NaN |}.

(** [analyzeSymbol] after the candles have been loaded. *)
Definition analyzeCandles (symbol : string) (ohlcv : list Candle) : option Analysis :=
  if (List.length ohlcv <? 30)%nat then None
  else signalFromSnapshot symbol (latestSnapshot ohlcv).

Definition analyzeSymbol (net : Network) (symbol : string) : option Analysis :=
  match loadCandles net symbol "5m" 200 with
  | Thrown _ => None
  | Ok ohlcv => analyzeCandles symbol ohlcv
  end.

(* ---------------------------------------------------------------- *)
(** ** analysis.js: the TP/SL scan *)
(* ---------------------------------------------------------------- *)

(** The object returned by [checkSignalHit] ([note] left out). *)
Inductive HitResult : Type :=
| NoHit
| Hit (status : string) (idx : nat) (candle : Candle).

Definition hitStatus (r : HitResult) : option string :=
  match r with NoHit => None | Hit st _ _ => Some st end.

(** The body of the scan loop for one candle: [Some status] when it
    returns, [None] when the loop goes on. *)
Definition checkCandle (side : string) (sl tp : num) (c : Candle) : option string :=
  if side =? "LONG" then
    let tpTouched := (high c >=? tp)%num in
    let slTouched := (low c <=? sl)%num in
    if tpTouched && negb slTouched then Some "TP"
    else if slTouched && negb tpTouched then Some "SL"
    else if tpTouched && slTouched then
      if (close c >=? tp)%num then Some "TP" else Some "SL"
    else None
  else if side =? "SHORT" then
    let tpTouched := (low c <=? tp)%num in
    let slTouched := (high c >=? sl)%num in
    if tpTouched && negb slTouched then Some "TP"
    else if slTouched && negb tpTouched then Some "SL"
    else if tpTouched && slTouched then
      if (close c <=? tp)%num then Some "TP" else Some "SL"
    else None
  else None.

Fixpoint scanFrom (side : string) (sl tp : num) (idx : nat) (candles : list Candle)
    : HitResult :=
  match candles with
  | [] => NoHit
  | c :: rest =>
      match checkCandle side sl tp c with
      | Some st => Hit st idx c
      | None => scanFrom side sl tp (S idx) rest
      end
  end.

Definition checkSignalHit (net : Network) (symbol side : string)
    (entry sl tp : num) (lookbackMinutes : Z) : HitResult :=
  let limit := Z.min (Z.max lookbackMinutes 10) 1440 in
  match loadCandles net symbol "1m" limit with
  | Thrown _ => NoHit
  | Ok candles =>
      if (List.length candles =? 0)%nat then NoHit
      else scanFrom side sl tp 0 candles
  end.

End Generator.

End Analysis.

(* ================================================================== *)
(** ** index.js: deduplication, registration and the monitor tick *)
(* ================================================================== *)

Module Index.

Definition DEDUPE_WINDOW_MINUTES : Z := 60.
Definition MONITOR_CHECK_INTERVAL_MS : Z := 60 * 1000.
Definition MAX_MONITOR_HOURS : Z := 48.

(** One element of [activeSignals].  [createdAt] is the value of
    [new Date(s.createdAt).getTime()] in milliseconds, [None] when the
    stored string is not a date (NaN); [monitorInterval] tells whether
    the object carries a [_monitorInterval] timer. *)
Record Signal : Type := mkSignal {
  id : Z * Z;
  symbol : string;
  side : string;
  entry : num;
  sl : num;
  tp : num;
  rr : num;
  confidence : num;
  createdAt : option Z;
  status : string;
  resolvedAt : option Z;
  monitorChecks : Z;
  monitorHistory : list (Z * option string);
  monitorInterval : bool
}.

Inductive Message : Type :=
| SignalMsg (symbol side : string) (entry tp sl rr confidence : num) (signalIndex : nat)
| ResolvedMsg (symbol side status : string) (entry tp sl pnlPct : num)
| ExpiredMsg (symbol side : string).

(** What a step hands to the collaborators.  [Broadcast] is the sending
    loop of [broadcastToAllUsers]; the [persistState] that ends that
    function (l.147) is the [Persist] that follows it. *)
Inductive Event : Type :=
| Persist
| Broadcast (msg : Message).

Definition windowMs : Z :=
  (if (DEDUPE_WINDOW_MINUTES =? 0)%Z then 60 else DEDUPE_WINDOW_MINUTES) * 60 * 1000.

Definition withinWindow (now : Z) (s : Signal) : bool :=
  match createdAt s with
  | Some createdMs => (now - createdMs <=? windowMs)%Z
  | None => false
  end.

(** [now] is [Date.now()]. *)
Fixpoint isDuplicateSignal (now : Z) (activeSignals : list Signal)
    (symbol' side' : string) : bool :=
  match activeSignals with
  | [] => false
  | s :: rest =>
      if (symbol s =? symbol') && (side s =? side') then
        if withinWindow now s && ((status s =? "OPEN") || (status s =? "PENDING"))
        then true
        else isDuplicateSignal now rest symbol' side'
      else isDuplicateSignal now rest symbol' side'
  end.

(** The object built by [runAutoAnalysis] from an analysis result. *)
Record SigObj : Type := mkSigObj {
  o_symbol : string;
  o_side : string;
  o_entry : num;
  o_sl : num;
  o_tp : num;
  o_rr : num;
  o_confidence : num
}.

(** [registerSignal]: [now] is the clock, [rnd] the random suffix of the
    id; the new signal is pushed and its monitor started. *)
Definition registerSignal (now rnd : Z) (signalObj : SigObj)
    (activeSignals : list Signal) : Signal * list Signal :=
  let s := {| id := (now, rnd);
              symbol := o_symbol signalObj;
              side := o_side signalObj;
              entry := o_entry signalObj;
              sl := o_sl signalObj;
              tp := o_tp signalObj;
              rr := o_rr signalObj;
              confidence := orElse (o_confidence signalObj) n0;
              createdAt := Some now;
              status := "OPEN";
              resolvedAt := None;
              monitorChecks := 0;
              monitorHistory := [];
              monitorInterval := true |} in
  (s, activeSignals ++ [s]).

(** [Math.ceil((MAX_MONITOR_HOURS * 60 * 1000) / MONITOR_CHECK_INTERVAL_MS)]. *)
Definition maxChecks : Z :=
  Qceiling (inject_Z (MAX_MONITOR_HOURS * 60 * 1000) / inject_Z MONITOR_CHECK_INTERVAL_MS).

Definition setMonitor (s : Signal) (checks : Z) (history : list (Z * option string))
    : Signal :=
  {| id := id s; symbol := symbol s; side := side s; entry := entry s;
     sl := sl s; tp := tp s; rr := rr s; confidence := confidence s;
     createdAt := createdAt s; status := status s; resolvedAt := resolvedAt s;
     monitorChecks := checks; monitorHistory := history;
     monitorInterval := monitorInterval s |}.

(** Sets [status] and [resolvedAt]. *)
Definition resolve (s : Signal) (st : string) (now : Z) : Signal :=
  {| id := id s; symbol := symbol s; side := side s; entry := entry s;
     sl := sl s; tp := tp s; rr := rr s; confidence := confidence s;
     createdAt := createdAt s; status := st; resolvedAt := Some now;
     monitorChecks := monitorChecks s; monitorHistory := monitorHistory s;
     monitorInterval := monitorInterval s |}.

(** [clearInterval(signal._monitorInterval); delete signal._monitorInterval]. *)
Definition clearMonitor (s : Signal) : Signal :=
  {| id := id s; symbol := symbol s; side := side s; entry := entry s;
     sl := sl s; tp := tp s; rr := rr s; confidence := confidence s;
     createdAt := createdAt s; status := status s; resolvedAt := resolvedAt s;
     monitorChecks := monitorChecks s; monitorHistory := monitorHistory s;
     monitorInterval := false |}.

Definition pnlPct (s : Signal) (st : string) : num :=
  let exit := if st =? "TP" then tp s else sl s in
  toFixed 2
    (if side s =? "LONG"
     then ((exit - entry s) / entry s * n100)%num
     else ((entry s - exit) / entry s * n100)%num).

Section Monitor.
Context {rt : JsRuntime}.

(** One run of the interval callback installed by
    [startMonitoringSignal], at time [now]: the signal afterwards and
    what was persisted and broadcast. *)
Definition monitorTick (net : Analysis.Network) (now : Z) (signal : Signal)
    : Signal * list Event :=
  if negb (status signal =? "OPEN") then (clearMonitor signal, [Persist])
  else
    let result :=
      Analysis.checkSignalHit net (symbol signal) (side signal)
        (entry signal) (sl signal) (tp signal) 120 in
    let signal :=
      setMonitor signal (monitorChecks signal + 1)
        (monitorHistory signal ++ [(now, Analysis.hitStatus result)]) in
    match Analysis.hitStatus result with
    | Some st =>
        if (st =? "TP") || (st =? "SL") then
          let signal := resolve signal st now in
          (clearMonitor signal,
           [Persist;
            Broadcast (ResolvedMsg (symbol signal) (side signal) st
                         (entry signal) (tp signal) (sl signal) (pnlPct signal st));
            Persist;
            Persist])
        else if (monitorChecks signal >=? maxChecks)%Z then
          (clearMonitor (resolve signal "EXPIRED" now),
           [Persist; Broadcast (ExpiredMsg (symbol signal) (side signal)); Persist])
        else (signal, [])
    | None =>
        if (monitorChecks signal >=? maxChecks)%Z then
          (clearMonitor (resolve signal "EXPIRED" now),
           [Persist; Broadcast (ExpiredMsg (symbol signal) (side signal)); Persist])
        else (signal, [])
    end.

(** The test [res && res.side && (res.confidence >= 60)]. *)
Definition accepted (res : option Analysis.Analysis) : bool :=
  match res with
  | None => false
  | Some r =>
      negb (Analysis.side r =? "") && (Analysis.confidence r >=? Num 60)%num
  end.

Record State : Type := mkState {
  activeSignals : list Signal;
  signalCountToday : nat;
  outbox : list Event
}.

(** The body of the loop of [runAutoAnalysis] for one coin. *)
Definition scanCoin (net : Analysis.Network) (now rnd : Z) (coin : string) (st : State)
    : State :=
  let res := Analysis.analyzeSymbol net coin in
  match res with
  | Some r =>
      if accepted res then
        if isDuplicateSignal now (activeSignals st) coin (Analysis.side r) then st
        else
          let count := S (signalCountToday st) in
          let sigObj := {| o_symbol := Analysis.symbol r;
                           o_side := Analysis.side r;
                           o_entry := Analysis.entry r;
                           o_sl := Analysis.sl r;
                           o_tp := Analysis.tp r;
                           o_rr := Analysis.rr r;
                           o_confidence := Analysis.confidence r |} in
          let '(_, signals) := registerSignal now rnd sigObj (activeSignals st) in
          {| activeSignals := signals;
             signalCountToday := count;
             outbox := outbox st
               ++ [Persist;
                   Broadcast (SignalMsg (o_symbol sigObj) (o_side sigObj)
                                (o_entry sigObj) (o_tp sigObj) (o_sl sigObj)
                                (o_rr sigObj) (o_confidence sigObj) count);
                   Persist] |}
      else st
  | None => st
  end.

End Monitor.

End Index.

(* ================================================================== *)
(** ** The specification's vocabulary *)
(* ================================================================== *)

Import Analysis.

Module Spec.

(** Order on numbers as the specification reads it: it holds between two
    proper numbers only. *)
Definition ltP (a b : num) : Prop :=
  match a, b with Num x, Num y => x < y | _, _ => False end.
Definition leP (a b : num) : Prop :=
  match a, b with Num x, Num y => x <= y | _, _ => False end.

Definition defined (a : num) : Prop := isNaN a = false.

(** NaN or a number that is not negative. *)
Definition nonneg (a : num) : Prop :=
  match a with NaN => True | Num q => 0 <= q end.

Definition nonnegPair (gl : num * num) : Prop := nonneg (fst gl) /\ nonneg (snd gl).

(** Section 4.3, step 3: every indicator is ready at the latest index. *)
Definition ready (s : Snapshot) : Prop :=
  defined (snap_rsi s) /\ defined (snap_lowerBB s) /\ defined (snap_upperBB s)
  /\ defined (snap_acc s) /\ defined (snap_atr s).

(** Section 4.3, step 4. *)
Definition longRule (s : Snapshot) : Prop :=
  ltP (snap_rsi s) (Num 30) /\ ltP (snap_close s) (snap_lowerBB s)
  /\ ltP n0 (snap_acc s).
Definition shortRule (s : Snapshot) : Prop :=
  ltP (Num 70) (snap_rsi s) /\ ltP (snap_upperBB s) (snap_close s)
  /\ ltP (snap_acc s) n0.

Definition setRsi (s : Snapshot) (v : num) : Snapshot :=
  mkSnapshot v (snap_close s) (snap_lowerBB s) (snap_upperBB s) (snap_acc s) (snap_atr s).
Definition setClose (s : Snapshot) (v : num) : Snapshot :=
  mkSnapshot (snap_rsi s) v (snap_lowerBB s) (snap_upperBB s) (snap_acc s) (snap_atr s).
Definition setAcc (s : Snapshot) (v : num) : Snapshot :=
  mkSnapshot (snap_rsi s) (snap_close s) (snap_lowerBB s) (snap_upperBB s) v (snap_atr s).

(** Section 4.3, step 5: [(stop, target)] for close [c] and ATR [a]. *)
Definition levels (c a : Q) (sd : string) : Q * Q :=
  if sd =? "LONG" then (c - (3 # 2) * a, c + 3 * a) else (c + (3 # 2) * a, c - 3 * a).



(** The same with the divisor the code uses: |ATR|, or 1 when ATR is 0. *)
Definition confidenceDivisor (atr : Q) : Q := if Qeq_bool atr 0 then 1 else Qabs atr.
Definition confidenceExact (acc atr : Q) : Z :=
  Qfloor (Qmin 100 (60 + Qmin 35 (Qmax 0 (10 * Qabs acc / confidenceDivisor atr)))
          + (1 # 2)).

(** Rounding to [d] decimals leaves a number within half a unit of the
    last place. *)
Definition roundedTo (d : nat) (exact rounded : num) : Prop :=
  match exact, rounded with
  | Num x, Num y =>
      Qabs (y - x) <= (1 # 2) / inject_Z (pow10 d)
      /\ exists n : Z, y == inject_Z n / inject_Z (pow10 d)
  | _, _ => False
  end.

(** Section 4.5, step 4. *)
Definition tpTouched (side : string) (tp : num) (c : Candle) : Prop :=
  (side = "LONG" /\ leP tp (high c)) \/ (side = "SHORT" /\ leP (low c) tp).
Definition slTouched (side : string) (sl : num) (c : Candle) : Prop :=
  (side = "LONG" /\ leP (low c) sl) \/ (side = "SHORT" /\ leP sl (high c)).
Definition closeBeyondTp (side : string) (tp : num) (c : Candle) : Prop :=
  (side = "LONG" /\ leP tp (close c)) \/ (side = "SHORT" /\ leP (close c) tp).
Definition untouched (side : string) (sl tp : num) (c : Candle) : Prop :=
  ~ tpTouched side tp c /\ ~ slTouched side sl c.

(** The resolution of a candle that touches a bound. *)
Definition resolution (side : string) (sl tp : num) (c : Candle) (st : string) : Prop :=
  (tpTouched side tp c /\ ~ slTouched side sl c /\ st = "TP")
  \/ (slTouched side sl c /\ ~ tpTouched side tp c /\ st = "SL")
  \/ (tpTouched side tp c /\ slTouched side sl c
      /\ ((closeBeyondTp side tp c /\ st = "TP")
          \/ (~ closeBeyondTp side tp c /\ st = "SL"))).

(** Section 4.4. *)
Definition duplicate (now : Z) (activeSignals : list Index.Signal)
    (symbol side : string) : Prop :=
  exists s, In s activeSignals
    /\ Index.symbol s = symbol /\ Index.side s = side
    /\ (Index.status s = "OPEN" \/ Index.status s = "PENDING")
    /\ exists createdMs, Index.createdAt s = Some createdMs
         /\ (now - createdMs <= Index.DEDUPE_WINDOW_MINUTES * 60 * 1000)%Z.

Definition minutes (m : Z) : Z := (m * 60 * 1000)%Z.

(** Ascending open times. *)
Definition timeLe (a b : Candle) : Prop := leP (t a) (t b).

End Spec.

(* ================================================================== *)
(** ** Concrete inputs *)
(* ================================================================== *)

Module Examples.

Definition openTime (i : nat) : num := ofZ (1700000000000 + 300000 * Z.of_nat i).

(** Candles without wicks: each opens at the previous close. *)
Fixpoint bars (prev : Q) (i : nat) (closes : list Q) : list Candle :=
  match closes with
  | [] => []
  | c :: rest =>
      mkCandle (openTime i) (Num prev) (Num (Qmax prev c)) (Num (Qmin prev c))
               (Num c) (Num 1000)
        :: bars c (S i) rest
  end.

(** Thirty 5-minute closes: flat at 1.00, then a slide that slows down. *)
Definition slideCloses : list Q :=
  repeat 1 25 ++ [99 # 100; 97 # 100; 94 # 100; 925 # 1000; 924 # 1000].

Definition slide : list Candle := bars 1 0 slideCloses.

(** The slide as a Binance response body. *)
Definition wireRecord (c : Candle) : value :=
  VArray [VNumber (t c); VNumber (open c); VNumber (high c); VNumber (low c);
          VNumber (close c); VNumber (vol c)].

Definition slideNetwork : Network :=
  fun source _ _ _ =>
    if source =? "Binance Main" then HttpOk 200 (VArray (map wireRecord slide))
    else HttpError None.

(** What [analyzeSymbol] returns for the slide. *)
Definition slideSignal : Analysis :=
  {| symbol := "DOGEUSDT";
     side := "LONG";
     entry := Num 0.92400000;
     sl := Num 0.91711675;
     tp := Num 0.93776651;
     rr := Num 2.00;
     confidence := Num 74;
     meta := {| meta_rsi := Num 0.00;
                meta_acc := Num 0.00633333;
                meta_atr := Num 0.00458884;
                meta_lowerBB := Num 0.93675296;
                meta_upperBB := Num 1.03814704;
                meta_timeframe := "5m" |} |}.

(** Every request fails. *)
Definition deadNetwork : Network := fun _ _ _ _ => HttpError (Some 503%Z).

(** A Binance body whose three records are not in time order. *)
Definition shuffledBody : value :=
  VArray
    [ VArray [VNumber (Num 180000); VString "101.5"; VString "102"; VString "101";
              VString "101.7"; VString "12.5"];
      VArray [VNumber (Num 60000); VString "100"; VString "101"; VString "99.5";
              VString "100.5"; VString "10"];
      VArray [VNumber (Num 120000); VString "100.5"; VString "101.6"; VString "100.2";
              VString "101.5"; VString "11"] ].

Definition shuffledNetwork : Network :=
  fun source _ _ _ =>
    if source =? "Binance Main" then HttpOk 200 shuffledBody else HttpError None.

(** The candles the loader makes of [shuffledBody]. *)
Definition shuffledCandles : list Candle :=
  [ mkCandle (Num 180000) (Num (203 # 2)) (Num 102) (Num 101) (Num (1017 # 10))
             (Num (25 # 2));
    mkCandle (Num 60000) (Num 100) (Num 101) (Num (199 # 2)) (Num (201 # 2))
             (Num 10);
    mkCandle (Num 120000) (Num (201 # 2)) (Num (508 # 5)) (Num (501 # 5))
             (Num (203 # 2)) (Num 11) ].

Definition openSignal (checks : Z) : Index.Signal :=
  Index.mkSignal (1700000000000%Z, 7%Z) "BTCUSDT" "LONG"
    (Num 100) (Num 97) (Num 106) (Num 2) (Num 70)
    (Some 1700000000000%Z) "OPEN" None checks [] true.

Definition ramp : list num := map ofZ [1; 2; 3; 4; 5; 6; 7; 8; 9; 10; 11; 12; 13; 14; 15; 16]%Z.

End Examples.

(* ================================================================== *)
(** ** Vocabulary for the further properties *)
(* ================================================================== *)

Module Shape.

(** A Bybit list as the exchange sends it: newest candle first. *)
Definition newerFirst (a b : Candle) : Prop := Spec.ltP (t b) (t a).

(** The values as [sma] reads them: [values[i] || 0]. *)
Definition zeroFilled (values : list num) : list num :=
  map (fun v => orElse v n0) values.

Definition allDefined (l : list num) : Prop := Forall Spec.defined l.

(** A number with at most [d] decimals. *)
Definition decimals (d : nat) (a : num) : Prop :=
  match a with
  | Num q => exists n : Z, q == inject_Z n / inject_Z (pow10 d)
  | NaN => False
  end.

(** NaN or zero; NaN or a positive number. *)
Definition zeroOrNaN (a : num) : Prop :=
  match a with NaN => True | Num q => q == 0 end.
Definition posOrNaN (a : num) : Prop :=
  match a with NaN => True | Num q => 0 < q end.

(** A pair of proper numbers, none negative. *)
Definition properPair (gl : num * num) : Prop :=
  exists g l, gl = (Num g, Num l) /\ 0 <= g /\ 0 <= l.

(** Averages of a series that only falls: no gain, some loss. *)
Definition fallingPair (gl : num * num) : Prop :=
  exists g l, gl = (Num g, Num l) /\ g == 0 /\ 0 < l.

(** No close is below the one before it; every close is. *)
Definition neverFalls (closes : list num) : Prop :=
  Forall (fun d => Spec.leP n0 d) (deltasOf closes).
Definition alwaysFalls (closes : list num) : Prop :=
  Forall (fun d => Spec.ltP d n0) (deltasOf closes).

(** A candle whose high, low and close are numbers. *)
Definition priced (c : Candle) : Prop :=
  Spec.defined (high c) /\ Spec.defined (low c) /\ Spec.defined (close c).

(** The number of 1-minute candles [checkSignalHit] asks for. *)
Definition clamped (lookbackMinutes : Z) : Z := Z.min (Z.max lookbackMinutes 10) 1440.

End Shape.

(* ================================================================== *)
(** ** index.js: subscribers and broadcast *)
(* ================================================================== *)

Module Subscribers.

Record User : Type := mkUser {
  chatId : Z;
  first_name : string;
  username : string;
  subscribedAt : Z
}.

(** The Map [subscribedUsers]: its entries in insertion order. *)
Definition UserMap : Type := list (Z * User).

Definition keys (m : UserMap) : list Z := map fst m.

Fixpoint has (k : Z) (m : UserMap) : bool :=
  match m with
  | [] => false
  | (k', _) :: rest => (k =? k')%Z || has k rest
  end.

(** [Map.prototype.get]. *)
Fixpoint get (k : Z) (m : UserMap) : option User :=
  match m with
  | [] => None
  | (k', u) :: rest => if (k =? k')%Z then Some u else get k rest
  end.

(** [Map.prototype.set]: an existing key keeps its place. *)
Fixpoint set (k : Z) (u : User) (m : UserMap) : UserMap :=
  match m with
  | [] => [(k, u)]
  | (k', u') :: rest =>
      if (k =? k')%Z then (k, u) :: rest else (k', u') :: set k u rest
  end.

(** [Map.prototype.delete]. *)
Fixpoint delete (k : Z) (m : UserMap) : UserMap :=
  match m with
  | [] => []
  | (k', u') :: rest =>
      if (k =? k')%Z then delete k rest else (k', u') :: delete k rest
  end.

(** [loadState]: [users.forEach(u => subscribedUsers.set(u.chatId, u))]. *)
Definition loadUsers (users : list User) : UserMap :=
  fold_left (fun m u => set (chatId u) u m) users [].

(** [msg.from] of a Telegram message. *)
Record From : Type := mkFrom {
  from_first_name : option string;
  from_username : option string
}.

(** [s || d] on a property that is a string or missing. *)
Definition orString (s : option string) (d : string) : string :=
  match s with
  | Some x => if x =? "" then d else x
  | None => d
  end.

Inductive Reply : Type :=
| Welcome (name : string)
| AlreadySubscribed
| Unsubscribed
| NotSubscribed.

(** The handler of [/start]; [now] is the clock, [from] is [msg.from]
    ([None] when missing, read as the empty object). *)
Definition onStart (now : Z) (chat : Z) (from : option From) (m : UserMap)
    : UserMap * Reply :=
  let user := match from with Some f => f | None => mkFrom None None end in
  if negb (has chat m) then
    let obj := {| chatId := chat;
                  first_name := orString (from_first_name user) "";
                  username := orString (from_username user) "";
                  subscribedAt := now |} in
    (set chat obj m, Welcome (orString (from_first_name user) "Trader"))
  else (m, AlreadySubscribed).

(** The handler of [/stop]. *)
Definition onStop (chat : Z) (m : UserMap) : UserMap * Reply :=
  if has chat m then (delete chat m, Unsubscribed) else (m, NotSubscribed).

(** The error of a rejected [bot.sendMessage]: [err.response.statusCode]
    and [err.code], when present. *)
Record SendError : Type := mkSendError {
  statusCode : option Z;
  code : option string
}.

Inductive SendResult : Type :=
| Sent
| Failed (err : SendError).

(** [err?.response?.statusCode === 403 || (err.code && err.code === 'ETELEGRAM')]. *)
Definition removable (err : SendError) : bool :=
  match statusCode err with Some s => (s =? 403)%Z | None => false end
  || match code err with Some c => c =? "ETELEGRAM" | None => false end.

(** The loop of [broadcastToAllUsers] over the entries [todo] still to be
    visited; deleting the entry being visited does not disturb the
    iteration of a Map. *)
Fixpoint broadcastLoop (send : Z -> SendResult) (todo : list (Z * User))
    (m : UserMap) (success fail : nat) : UserMap * (nat * nat) :=
  match todo with
  | [] => (m, (success, fail))
  | (k, _) :: rest =>
      match send k with
      | Sent => broadcastLoop send rest m (S success) fail
      | Failed err =>
          broadcastLoop send rest (if removable err then delete k m else m)
            success (S fail)
      end
  end.

(** [broadcastToAllUsers] for one message: [send] is the outcome of
    [bot.sendMessage] for each chat; the result is the Map afterwards and
    the counts [(success, fail)]. *)
Definition broadcastToAllUsers (send : Z -> SendResult) (m : UserMap)
    : UserMap * (nat * nat) :=
  broadcastLoop send m m 0 0.

(** Whether a subscriber survives a broadcast. *)
Definition kept (send : Z -> SendResult) (entry : Z * User) : bool :=
  match send (fst entry) with
  | Sent => true
  | Failed err => negb (removable err)
  end.

Definition delivered (send : Z -> SendResult) (entry : Z * User) : bool :=
  match send (fst entry) with Sent => true | Failed _ => false end.

End Subscribers.

(* ================================================================== *)
(** ** index.js: the signals over time *)
(* ================================================================== *)

Module Lifecycle.

(** An entry of [monitorHistory] whose [resultStatus] is null. *)
Definition unresolved (e : Z * option string) : Prop := snd e = None.

Definition ordered (s : Index.Signal) : Prop :=
  (Index.side s = "LONG"
   /\ Spec.leP (Index.sl s) (Index.entry s) /\ Spec.leP (Index.entry s) (Index.tp s))
  \/ (Index.side s = "SHORT"
      /\ Spec.leP (Index.tp s) (Index.entry s) /\ Spec.leP (Index.entry s) (Index.sl s)).

(** What holds of a signal from its registration on. *)
Definition wellFormed (s : Index.Signal) : Prop :=
  In (Index.status s) ["OPEN"; "TP"; "SL"; "EXPIRED"]
  /\ (Index.status s = "OPEN" <-> Index.resolvedAt s = None)
  /\ (Index.status s = "OPEN" <-> Index.monitorInterval s = true)
  /\ Index.monitorChecks s = Z.of_nat (List.length (Index.monitorHistory s))
  /\ (Index.monitorChecks s <= Index.maxChecks)%Z
  /\ (Index.status s = "OPEN" -> (Index.monitorChecks s < Index.maxChecks)%Z)
  /\ (Index.status s = "EXPIRED" -> Index.monitorChecks s = Index.maxChecks)
  /\ (Index.status s = "TP" \/ Index.status s = "SL" ->
      exists pre at_,
        Index.monitorHistory s = pre ++ [(at_, Some (Index.status s))]
        /\ Forall unresolved pre)
  /\ (Index.status s = "OPEN" \/ Index.status s = "EXPIRED" ->
      Forall unresolved (Index.monitorHistory s))
  /\ (exists createdMs, Index.createdAt s = Some createdMs)
  /\ ordered s
  /\ (exists n : Z, Index.confidence s = Num (inject_Z n) /\ (60 <= n <= 95)%Z).

(** Two OPEN signals for the same symbol and side were created more than
    the deduplication window apart, the later one later in the list. *)
Definition spaced (signals : list Index.Signal) : Prop :=
  forall i j si sj ci cj,
    (i < j)%nat ->
    nth_error signals i = Some si -> nth_error signals j = Some sj ->
    Index.symbol si = Index.symbol sj -> Index.side si = Index.side sj ->
    Index.status si = "OPEN" -> Index.status sj = "OPEN" ->
    Index.createdAt si = Some ci -> Index.createdAt sj = Some cj ->
    (Index.windowMs < cj - ci)%Z.

Definition isSignalMsg (e : Index.Event) : bool :=
  match e with Index.Broadcast (Index.SignalMsg _ _ _ _ _ _ _ _) => true | _ => false end.

(** A broadcast that reports the end of a signal. *)
Definition isClosingMsg (e : Index.Event) : bool :=
  match e with
  | Index.Broadcast (Index.ResolvedMsg _ _ _ _ _ _ _) => true
  | Index.Broadcast (Index.ExpiredMsg _ _) => true
  | _ => false
  end.

Definition isClosed (s : Index.Signal) : bool := negb (Index.status s =? "OPEN").

Definition count {A : Type} (p : A -> bool) (l : list A) : nat :=
  List.length (filter p l).

(** [l[i] = x] for an index within the list. *)
Fixpoint setNth {A : Type} (i : nat) (x : A) (l : list A) : list A :=
  match l, i with
  | [], _ => []
  | _ :: rest, O => x :: rest
  | y :: rest, S i' => y :: setNth i' x rest
  end.

(** The signal after a check that found [result]. *)
Definition checked (s : Index.Signal) (now : Z) (result : option string) : Index.Signal :=
  Index.setMonitor s (Index.monitorChecks s + 1)
    (Index.monitorHistory s ++ [(now, result)]).

(** The signal and the events of a tick that finds the status [st]. *)
Definition afterHit (s : Index.Signal) (st : string) (now : Z) : Index.Signal :=
  Index.clearMonitor (Index.resolve (checked s now (Some st)) st now).
Definition hitEvents (s : Index.Signal) (st : string) (now : Z) : list Index.Event :=
  [Index.Persist;
   Index.Broadcast
     (Index.ResolvedMsg (Index.symbol s) (Index.side s) st (Index.entry s)
        (Index.tp s) (Index.sl s)
        (Index.pnlPct (Index.resolve (checked s now (Some st)) st now) st));
   Index.Persist;
   Index.Persist].

(** The signal and the events of a tick that reaches the ceiling. *)
Definition afterExpiry (s : Index.Signal) (now : Z) : Index.Signal :=
  Index.clearMonitor (Index.resolve (checked s now None) "EXPIRED" now).
Definition expiryEvents (s : Index.Signal) : list Index.Event :=
  [Index.Persist; Index.Broadcast (Index.ExpiredMsg (Index.symbol s) (Index.side s));
   Index.Persist].

(** The fields a signal is registered with and that no later step
    assigns. *)
Definition sameSignal (s s' : Index.Signal) : Prop :=
  Index.id s' = Index.id s /\ Index.symbol s' = Index.symbol s
  /\ Index.side s' = Index.side s /\ Index.entry s' = Index.entry s
  /\ Index.sl s' = Index.sl s /\ Index.tp s' = Index.tp s
  /\ Index.rr s' = Index.rr s /\ Index.confidence s' = Index.confidence s
  /\ Index.createdAt s' = Index.createdAt s.

(** The signal after checks at the times of [ticks] that found nothing. *)
Definition quiet (ticks : list (Network * Z)) (s : Index.Signal) : Index.Signal :=
  fold_left (fun s t => checked s (snd t) None) ticks s.

(** The broadcast that reports the resolution [st] of [s]. *)
Definition resolvedMsg (s : Index.Signal) (st : string) : Index.Message :=
  Index.ResolvedMsg (Index.symbol s) (Index.side s) st (Index.entry s)
    (Index.tp s) (Index.sl s) (Index.pnlPct s st).

(** The signal [registerSignal] makes of an analysis result. *)
Definition sigObjOf (r : Analysis) : Index.SigObj :=
  {| Index.o_symbol := Analysis.symbol r; Index.o_side := Analysis.side r;
     Index.o_entry := Analysis.entry r; Index.o_sl := Analysis.sl r;
     Index.o_tp := Analysis.tp r; Index.o_rr := Analysis.rr r;
     Index.o_confidence := Analysis.confidence r |}.
Definition registered (now rnd : Z) (r : Analysis) : Index.Signal :=
  fst (Index.registerSignal now rnd (sigObjOf r) []).

(** The state after [r] has been registered and announced. *)
Definition announced (now rnd : Z) (r : Analysis) (st : Index.State) : Index.State :=
  {| Index.activeSignals := Index.activeSignals st ++ [registered now rnd r];
     Index.signalCountToday := S (Index.signalCountToday st);
     Index.outbox := Index.outbox st
       ++ [Index.Persist;
           Index.Broadcast
             (Index.SignalMsg (Analysis.symbol r) (Analysis.side r) (Analysis.entry r)
                (Analysis.tp r) (Analysis.sl r) (Analysis.rr r) (Analysis.confidence r)
                (S (Index.signalCountToday st)));
           Index.Persist] |}.

Definition initial : Index.State :=
  {| Index.activeSignals := []; Index.signalCountToday := 0; Index.outbox := [] |}.

Section Run.
Context {rt : JsRuntime}.

(** What the check of a tick finds for a signal. *)
Definition hitOf (net : Network) (s : Index.Signal) : HitResult :=
  checkSignalHit net (Index.symbol s) (Index.side s) (Index.entry s)
    (Index.sl s) (Index.tp s) 120.

(** Successive runs of the interval callback of one signal, each given
    the network and the clock it sees; a run is complete before the next
    starts, and no callback runs once the timer has been cleared. *)
Fixpoint runTicks (ticks : list (Network * Z)) (signal : Index.Signal)
    : Index.Signal * list Index.Event :=
  match ticks with
  | [] => (signal, [])
  | (net, now) :: rest =>
      if Index.monitorInterval signal then
        let '(signal', events) := Index.monitorTick net now signal in
        let '(signal'', events') := runTicks rest signal' in
        (signal'', events ++ events')
      else (signal, [])
  end.

(** The interval callback of the signal at position [i] of
    [activeSignals], when its timer is set. *)
Definition tickAt (net : Network) (now : Z) (i : nat) (st : Index.State)
    : Index.State :=
  match nth_error (Index.activeSignals st) i with
  | Some signal =>
      if Index.monitorInterval signal then
        let '(signal', events) := Index.monitorTick net now signal in
        {| Index.activeSignals := setNth i signal' (Index.activeSignals st);
           Index.signalCountToday := Index.signalCountToday st;
           Index.outbox := Index.outbox st ++ events |}
      else st
  | None => st
  end.

(** The states the process passes through from an empty signal file:
    coins are scanned and timers fire, in any order, each step complete
    before the next. *)
Inductive Reachable : Index.State -> Prop :=
| reach_initial : Reachable initial
| reach_scan (net : Network) (now rnd : Z) (coin : string) (st : Index.State) :
    Reachable st -> Reachable (Index.scanCoin net now rnd coin st)
| reach_tick (net : Network) (now : Z) (i : nat) (st : Index.State) :
    Reachable st -> Reachable (tickAt net now i st).

(** One step of the process. *)
Inductive Step : Index.State -> Index.State -> Prop :=
| step_scan (net : Network) (now rnd : Z) (coin : string) (st : Index.State) :
    Step st (Index.scanCoin net now rnd coin st)
| step_tick (net : Network) (now : Z) (i : nat) (st : Index.State) :
    Step st (tickAt net now i st).

End Run.

End Lifecycle.

(* ================================================================== *)
(** ** Further concrete inputs                                         *)
(* ================================================================== *)

Module Samples.

(** A Bybit record in the object encoding, and its fields in order. *)
Definition bybitRecord : list (string * value) :=
  [("start", VString "1700000000000"); ("open", VString "100.5");
   ("high", VString "101"); ("low", VString "99.5"); ("close", VString "100");
   ("volume", VString "12")].

(** Answers requests for one-minute candles like [shuffledNetwork] and
    fails on every other request. *)
Definition minuteNetwork : Network :=
  fun source symbol interval limit =>
    if interval =? "1m" then Examples.shuffledNetwork source symbol interval limit
    else HttpError None.

(** The first candle of [shuffledCandles]. *)
Definition firstShuffled : Candle :=
  mkCandle (Num 180000) (Num (203 # 2)) (Num 102) (Num 101) (Num (1017 # 10))
           (Num (25 # 2)).

(** An OPEN signal whose target lies within the range of [firstShuffled]. *)
Definition tightSignal : Index.Signal :=
  Index.mkSignal (1700000000000%Z, 7%Z) "BTCUSDT" "LONG"
    (Num 100) (Num 99) (Num (203 # 2)) (Num 1.5) (Num 70)
    (Some 1700000000000%Z) "OPEN" None 0 [] true.

Definition alice : Subscribers.User :=
  Subscribers.mkUser 7 "Alice" "alice" 1700000000000.

Definition someUsers : Subscribers.UserMap := [(7%Z, alice)].

(** The state after the first scan of the slide, and after a tick of
    its signal with every provider down. *)
Definition scanned : Index.State :=
  Index.scanCoin (rt := refRuntime) Examples.slideNetwork 1700000000000 7 "DOGEUSDT"
    Lifecycle.initial.
Definition ticked : Index.State :=
  Lifecycle.tickAt (rt := refRuntime) Examples.deadNetwork 1700000060000 0 scanned.

(** [n] further ticks of the first signal, one minute apart, with every
    provider down. *)
Fixpoint quietTicks (n : nat) (now : Z) (st : Index.State) : Index.State :=
  match n with
  | O => st
  | S n' =>
      quietTicks n' (now + 60000)
        (Lifecycle.tickAt (rt := refRuntime) Examples.deadNetwork (now + 60000) 0 st)
  end.

(** The state 48 minutes after the first scan of the slide. *)
Definition expired : Index.State := quietTicks 48 1700000000000 scanned.

(** The oldest candle of [shuffledCandles]. *)
Definition oldestShuffled : Candle :=
  mkCandle (Num 60000) (Num 100) (Num 101) (Num (199 # 2)) (Num (201 # 2)) (Num 10).

(** A Bybit body whose second record has an open time that is not a
    number, and the candles the loader makes of it. *)
Definition garbledBody : value :=
  VObject
    [("result",
      VObject
        [("list",
          VArray
            [ VArray [VString "60000"; VString "100"; VString "101"; VString "99.5";
                      VString "100.5"; VString "10"];
              VArray [VString "x"; VString "100.5"; VString "101.6"; VString "100.2";
                      VString "101.5"; VString "11"] ])])].

Definition garbledNetwork : Network :=
  fun source _ _ _ =>
    if source =? "Bybit Backup" then HttpOk 200 garbledBody else HttpError None.

Definition garbledCandles : list Candle :=
  [ mkCandle (Num 60000) (Num 100) (Num 101) (Num (199 # 2)) (Num (201 # 2)) (Num 10);
    mkCandle NaN (Num (201 # 2)) (Num (508 # 5)) (Num (501 # 5)) (Num (203 # 2))
             (Num 11) ].

(** The candles of [shuffledBody], in the same order, as a Bybit
    provider sends them, and what the loader makes of them. *)
Definition sortedBody : value :=
  VObject
    [("result",
      VObject
        [("list",
          VArray
            [ VArray [VString "180000"; VString "101.5"; VString "102"; VString "101";
                      VString "101.7"; VString "12.5"];
              VArray [VString "60000"; VString "100"; VString "101"; VString "99.5";
                      VString "100.5"; VString "10"];
              VArray [VString "120000"; VString "100.5"; VString "101.6"; VString "100.2";
                      VString "101.5"; VString "11"] ])])].

Definition sortedNetwork : Network :=
  fun source _ _ _ =>
    if source =? "Bybit Backup" then HttpOk 200 sortedBody else HttpError None.

Definition sortedCandles : list Candle :=
  [ mkCandle (Num 60000) (Num 100) (Num 101) (Num (199 # 2)) (Num (201 # 2))
             (Num 10);
    mkCandle (Num 120000) (Num (201 # 2)) (Num (508 # 5)) (Num (501 # 5))
             (Num (203 # 2)) (Num 11);
    mkCandle (Num 180000) (Num (203 # 2)) (Num 102) (Num 101) (Num (1017 # 10))
             (Num (25 # 2)) ].

End Samples.

(* ================================================================== *)
(** ** Rounded arithmetic                                              *)
(* ================================================================== *)

(** JavaScript numbers are binary64 values: every arithmetic operation
    returns the exact result rounded to the nearest one.  [Rounding fl u]
    says of a rounding [fl] what the level computation of
    [analyzeSymbol] relies on: a relative error of at most [u] per
    operation and whole numbers up to 2^53 left as they are.  Overflow
    and underflow are left out, and a quotient by 0 is [NaN] as in
    [div], which is JavaScript's result for 0 / 0 only: what is stated
    of a quotient is stated for a divisor that is not 0, or for 0 / 0. *)
Module Float.

Record Rounding (fl : Q -> Q) (u : Q) : Prop := mkRounding {
  fl_compat : forall x y, x == y -> fl x == fl y;
  u_range : 0 <= u <= 1;
  fl_error : forall x, Qabs (fl x - x) <= u * Qabs x;
  fl_int : forall n : Z, (Z.abs n <= 2 ^ 53)%Z -> fl (inject_Z n) == inject_Z n
}.

(** Arithmetic without rounding. *)
Definition exact (q : Q) : Q := q.

(** The exponent of a positive rational: the [e] with 2^e <= q < 2^(e+1). *)
Definition ilog2 (q : Q) : Z :=
  let e0 := (Z.log2 (Qnum q) - Z.log2 (Zpos (Qden q)))%Z in
  if Qle_bool (2 ^ e0) q then e0 else (e0 - 1)%Z.

(** The nearest integer, the even one on a tie. *)
Definition roundEven (x : Q) : Z :=
  let f := Qfloor x in
  let r := x - inject_Z f in
  if Qlt_bool r (1 # 2) then f
  else if Qlt_bool (1 # 2) r then (f + 1)%Z
  else if Z.even f then f else (f + 1)%Z.

(** Rounding to a significand of 53 bits, ties to even, as binary64
    does within its exponent range. *)
Definition round53 (x : Q) : Q :=
  let q := Qred x in
  if Qeq_bool q 0 then 0
  else
    let s := 2 ^ (ilog2 (Qabs q) - 52) in
    let m := inject_Z (roundEven (Qabs q / s)) * s in
    if Qle_bool 0 q then m else - m.

Definition unit53 : Q := 1 # (2 ^ 53).

Section Rounded.
Variable fl : Q -> Q.

Definition rnd (a : num) : num :=
  match a with NaN => NaN | Num q => Num (fl q) end.

Definition fadd (a b : num) : num := rnd (a + b)%num.
Definition fsub (a b : num) : num := rnd (a - b)%num.
Definition fmul (a b : num) : num := rnd (a * b)%num.
Definition fdiv (a b : num) : num := rnd (a / b)%num.

(** [parseFloat(x.toFixed(d))]: the decimal string is read back as a
    number. *)
Definition toFixedF (d : nat) (a : num) : num := rnd (toFixed d a).

Definition confidenceF (acc atr : num) : num :=
  fadd (Num 60)
    (Math_min (Num 35)
       (Math_max n0
          (fmul (fdiv (Math_abs acc) (orElse (Math_abs atr) (Num 1))) (Num 10)))).

(** The stop, the target and the ratio as [analyzeSymbol] computes them
    from the close and the ATR, before they are rounded to decimals. *)
Definition stopF (side : string) (close atr : num) : num :=
  if side =? "LONG" then fsub close (fmul (Num (3 # 2)) atr)
  else fadd close (fmul (Num (3 # 2)) atr).
Definition targetF (side : string) (close atr : num) : num :=
  if side =? "LONG" then fadd close (fmul (Num 3) atr)
  else fsub close (fmul (Num 3) atr).
Definition ratioF (entry sl tp : num) : num :=
  fdiv (Math_abs (fsub tp entry)) (Math_abs (fsub entry sl)).

(** [analyzeSymbol] from the NaN check on, every arithmetic result
    rounded by [fl]. *)
Definition signalFloat (symbol : string) (s : Analysis.Snapshot)
    : option Analysis.Analysis :=
  let rsi := Analysis.snap_rsi s in
  let close := Analysis.snap_close s in
  let lowerBB := Analysis.snap_lowerBB s in
  let upperBB := Analysis.snap_upperBB s in
  let acc := Analysis.snap_acc s in
  let atr := Analysis.snap_atr s in
  if existsb isNaN [rsi; lowerBB; upperBB; acc; atr] then None
  else
    match Analysis.entryRule rsi close lowerBB upperBB acc with
    | None => None
    | Some side =>
        let entry := close in
        let sl := stopF side entry atr in
        let tp := targetF side entry atr in
        let rr := ratioF entry sl tp in
        let confidence := confidenceF acc atr in
        Some {| Analysis.symbol := symbol;
                Analysis.side := side;
                Analysis.entry := toFixedF 8 entry;
                Analysis.sl := toFixedF 8 sl;
                Analysis.tp := toFixedF 8 tp;
                Analysis.rr := toFixedF 2 rr;
                Analysis.confidence := Math_round (Math_min n100 confidence);
                Analysis.meta :=
                  {| Analysis.meta_rsi := toFixedF 2 rsi;
                     Analysis.meta_acc := toFixedF 8 acc;
                     Analysis.meta_atr := toFixedF 8 atr;
                     Analysis.meta_lowerBB := toFixedF 8 lowerBB;
                     Analysis.meta_upperBB := toFixedF 8 upperBB;
                     Analysis.meta_timeframe := "5m" |} |}
    end.

Context {rt : JsRuntime}.

(** [analyzeSymbol] with the rounded level computation; the indicators
    at the latest index are taken as [latestSnapshot] gives them. *)
Definition analyzeSymbolFloat (net : Analysis.Network) (symbol : string)
    : option Analysis.Analysis :=
  match Analysis.loadCandles net symbol "5m" 200 with
  | Analysis.Thrown _ => None
  | Analysis.Ok ohlcv =>
      if (List.length ohlcv <? 30)%nat then None
      else signalFloat symbol (Analysis.latestSnapshot ohlcv)
  end.

End Rounded.

(** The tolerance of the levels for close [c] and ATR [a]. *)
Definition tolerance (u c a : Q) : Q := u * (2 * Qabs c + 21 * Qabs a).

End Float.

Module Rounded.

(** What the generator returns for the slide when every level is
    rounded as binary64 does. *)
Definition slideRounded : Analysis.Analysis :=
  {| Analysis.symbol := "DOGEUSDT";
     Analysis.side := "LONG";
     Analysis.entry := Num (8322652111380677 # 9007199254740992);
     Analysis.sl := Num (8260653307110481 # 9007199254740992);
     Analysis.tp := Num (8446649809993061 # 9007199254740992);
     Analysis.rr := Num (4503599627370496 # 2251799813685248);
     Analysis.confidence := Num 74;
     Analysis.meta :=
       {| Analysis.meta_rsi := Num 0;
          Analysis.meta_acc := Num (7301832352771682 # 1152921504606846976);
          Analysis.meta_atr := Num (5290572317200084 # 1152921504606846976);
          Analysis.meta_lowerBB := Num (8437520563188418 # 9007199254740992);
          Analysis.meta_upperBB := Num (4675398622499783 # 4503599627370496);
          Analysis.meta_timeframe := "5m" |} |}.

(** A close near 10^15, where binary64 numbers are 0.125 apart, with an
    ATR of 1.21875; both are binary64 numbers. *)
Definition steepSnapshot : Analysis.Snapshot :=
  Analysis.mkSnapshot (Num 25) (Num 999999999999979) (Num 999999999999980)
    (Num 1000000000000100) (Num (3 # 10)) (Num (39 # 32)).

(** What the generator returns for [steepSnapshot] in binary64: the stop
    at ...977.125, the target at ...982.625, the ratio 1.93. *)
Definition steepSignal : Analysis.Analysis :=
  {| Analysis.symbol := "BTCUSDT";
     Analysis.side := "LONG";
     Analysis.entry := Num (7999999999999832 # 8);
     Analysis.sl := Num (7999999999999817 # 8);
     Analysis.tp := Num (7999999999999861 # 8);
     Analysis.rr := Num (8691947280825057 # 4503599627370496);
     Analysis.confidence := Num 62;
     Analysis.meta :=
       {| Analysis.meta_rsi := Num (7036874417766400 # 281474976710656);
          Analysis.meta_acc := Num (5404319552844595 # 18014398509481984);
          Analysis.meta_atr := Num (5488762045857792 # 4503599627370496);
          Analysis.meta_lowerBB := Num (7999999999999840 # 8);
          Analysis.meta_upperBB := Num (8000000000000800 # 8);
          Analysis.meta_timeframe := "5m" |} |}.

End Rounded.

(** Turns the boolean comparisons among the hypotheses into the order
    relations of the specification, given the lemmas relating them. *)
Ltac reflect_cmp le_true le_untrue ge_true :=
  repeat match goal with
  | H : (_ <=? _)%num = true |- _ => apply le_true in H
  | H : (_ <=? _)%num = false |- _ => apply le_untrue in H
  | H : (_ >=? _)%num = true |- _ => apply ge_true in H
  | H : (_ >=? _)%num = false |- _ => unfold ge in H; apply le_untrue in H
  end.

(* ================================================================== *)
(** ** Properties *)
(* ================================================================== *)

Import Spec.

(** *** Comparisons *)

Lemma Qlt_bool_iff (x y : Q) : Qlt_bool x y = true <-> x < y.
Proof.
  unfold Qlt_bool. rewrite negb_true_iff.
  split; intro H.
  - apply Qnot_le_lt. intro Hle. apply Qle_bool_iff in Hle. congruence.
  - destruct (Qle_bool y x) eqn:E; [|reflexivity].
    apply Qle_bool_iff in E. exfalso. eapply Qlt_not_le; eauto.
Qed.

Lemma lt_spec (a b : num) : (a <? b)%num = true <-> ltP a b.
Proof.
  destruct a, b; simpl; try (split; [discriminate | contradiction]).
  apply Qlt_bool_iff.
Qed.

Lemma le_spec (a b : num) : (a <=? b)%num = true <-> leP a b.
Proof.
  destruct a, b; simpl; try (split; [discriminate | contradiction]).
  apply Qle_bool_iff.
Qed.

Lemma gt_spec (a b : num) : (a >? b)%num = true <-> ltP b a.
Proof. apply lt_spec. Qed.

Lemma ge_spec (a b : num) : (a >=? b)%num = true <-> leP b a.
Proof. apply le_spec. Qed.

Lemma lt_false (a b : num) : (a <? b)%num = false <-> ~ ltP a b.
Proof. rewrite <- lt_spec. destruct (a <? b)%num; split; congruence. Qed.

Lemma le_false (a b : num) : (a <=? b)%num = false <-> ~ leP a b.
Proof. rewrite <- le_spec. destruct (a <=? b)%num; split; congruence. Qed.

Lemma ltP_asym (a : num) : ltP a (Num 30) -> ltP (Num 70) a -> False.
Proof. destruct a; unfold ltP; [contradiction|]. intros. lra. Qed.

Lemma ltP_irrefl2 (a b : num) : ltP a b -> ltP b a -> False.
Proof. destruct a, b; unfold ltP; try contradiction. intros. lra. Qed.

(** *** The entry rule *)

Lemma entryRule_long (s : Snapshot) :
  entryRule (snap_rsi s) (snap_close s) (snap_lowerBB s) (snap_upperBB s) (snap_acc s)
    = Some "LONG" <-> longRule s.
Proof.
  unfold entryRule, longRule.
  rewrite <- !lt_spec. unfold gt.
  destruct (snap_rsi s <? Num 30)%num eqn:E1,
           (snap_close s <? snap_lowerBB s)%num eqn:E2,
           (n0 <? snap_acc s)%num eqn:E3; simpl;
    (split; [| intros (? & ? & ?); congruence]);
    try (intros _; tauto);
    destruct (_ && _ && _); discriminate.
Qed.

Lemma entryRule_short (s : Snapshot) :
  entryRule (snap_rsi s) (snap_close s) (snap_lowerBB s) (snap_upperBB s) (snap_acc s)
    = Some "SHORT" <-> shortRule s.
Proof.
  unfold entryRule, shortRule. unfold gt.
  split.
  - destruct (_ && _ && _); [discriminate|].
    rewrite <- !lt_spec.
    destruct (Num 70 <? snap_rsi s)%num eqn:E1,
             (snap_upperBB s <? snap_close s)%num eqn:E2,
             (snap_acc s <? n0)%num eqn:E3; simpl; try discriminate.
    auto.
  - intros (H1 & H2 & H3).
    destruct (snap_rsi s <? Num 30)%num eqn:E.
    + apply lt_spec in E. exfalso. eapply ltP_asym; eauto.
    + apply lt_spec in H1, H2, H3. rewrite H1, H2, H3. reflexivity.
Qed.

Lemma entryRule_cases (rsi close lowerBB upperBB acc : num) :
  entryRule rsi close lowerBB upperBB acc = Some "LONG"
  \/ entryRule rsi close lowerBB upperBB acc = Some "SHORT"
  \/ entryRule rsi close lowerBB upperBB acc = None.
Proof.
  unfold entryRule. repeat destruct (_ && _ && _); auto.
Qed.

Lemma ready_check (s : Snapshot) :
  existsb isNaN [snap_rsi s; snap_lowerBB s; snap_upperBB s; snap_acc s; snap_atr s]
    = false <-> ready s.
Proof.
  unfold ready, defined. simpl. rewrite !orb_false_iff. tauto.
Qed.

Lemma signal_side (symbol : string) (s : Snapshot) (r : Analysis) :
  signalFromSnapshot symbol s = Some r ->
  ready s
  /\ entryRule (snap_rsi s) (snap_close s) (snap_lowerBB s) (snap_upperBB s) (snap_acc s)
       = Some (side r).
Proof.
  unfold signalFromSnapshot.
  destruct (existsb _ _) eqn:E; [discriminate|].
  apply ready_check in E.
  destruct (entryRule _ _ _ _ _) as [sd|]; [|discriminate].
  destruct (sd =? "LONG"); intro H; inversion H; auto.
Qed.

Lemma signal_exists (symbol : string) (s : Snapshot) (sd : string) :
  ready s ->
  entryRule (snap_rsi s) (snap_close s) (snap_lowerBB s) (snap_upperBB s) (snap_acc s)
    = Some sd ->
  exists r, signalFromSnapshot symbol s = Some r /\ side r = sd.
Proof.
  intros Hr He. unfold signalFromSnapshot.
  apply ready_check in Hr. rewrite Hr, He.
  destruct (sd =? "LONG"); eexists; split; reflexivity.
Qed.

Lemma signal_none (symbol : string) (s : Snapshot) :
  entryRule (snap_rsi s) (snap_close s) (snap_lowerBB s) (snap_upperBB s) (snap_acc s)
    = None ->
  signalFromSnapshot symbol s = None.
Proof.
  intro He. unfold signalFromSnapshot. rewrite He.
  destruct (existsb _ _); reflexivity.
Qed.

Lemma side_of_signal (symbol : string) (s : Snapshot) (sd : string) :
  ready s ->
  (option_map side (signalFromSnapshot symbol s) = Some sd
   <-> entryRule (snap_rsi s) (snap_close s) (snap_lowerBB s) (snap_upperBB s)
         (snap_acc s) = Some sd).
Proof.
  intro Hr. split.
  - destruct (signalFromSnapshot symbol s) as [r|] eqn:E; [|discriminate].
    apply signal_side in E. destruct E as [_ E]. simpl. intro H. congruence.
  - intro He. destruct (signal_exists symbol Hr He) as (r & -> & <-). reflexivity.
Qed.

(** Breaking one condition of a rule that holds leaves no rule satisfied. *)
Lemma mutation_none (symbol : string) (s' : Snapshot) :
  ~ longRule s' -> ~ shortRule s' -> signalFromSnapshot symbol s' = None.
Proof.
  intros Hl Hs. apply signal_none.
  destruct (entryRule_cases (snap_rsi s') (snap_close s') (snap_lowerBB s')
              (snap_upperBB s') (snap_acc s')) as [H | [H | H]]; auto.
  - apply entryRule_long in H. contradiction.
  - apply entryRule_short in H. contradiction.
Qed.

Section EntryRule.
Context {rt : JsRuntime}.

Lemma analyzeSymbol_loaded (net : Network) (symbol : string) (ohlcv : list Candle) :
  loadCandles net symbol "5m" 200 = Ok ohlcv ->
  (30 <= List.length ohlcv)%nat ->
  analyzeSymbol net symbol = signalFromSnapshot symbol (latestSnapshot ohlcv).
Proof.
  intros Hl Hn. unfold analyzeSymbol, analyzeCandles. rewrite Hl.
  destruct (Nat.ltb_spec (List.length ohlcv) 30); [lia | reflexivity].
Qed.

(** C1.  For a loaded series of at least 30 candles whose indicators are
    all defined at the latest index, [analyzeSymbol] returns side LONG
    exactly when rsi < 30, close < lower band and acceleration > 0,
    side SHORT exactly when rsi > 70, close > upper band and
    acceleration < 0, and nothing otherwise; replacing any one of the
    three values of a satisfied rule by one that violates its threshold,
    the other values unchanged, yields nothing. *)
Theorem analyzeSymbol_entry_rule (net : Network) (symbol : string)
    (ohlcv : list Candle) :
  loadCandles net symbol "5m" 200 = Ok ohlcv ->
  (30 <= List.length ohlcv)%nat ->
  ready (latestSnapshot ohlcv) ->
  let s := latestSnapshot ohlcv in
  let res := analyzeSymbol net symbol in
  (option_map side res = Some "LONG" <-> longRule s)
  /\ (option_map side res = Some "SHORT" <-> shortRule s)
  /\ (~ longRule s -> ~ shortRule s -> res = None)
  /\ (longRule s ->
      (forall v, ~ ltP v (Num 30) -> signalFromSnapshot symbol (setRsi s v) = None)
      /\ (forall v, ~ ltP v (snap_lowerBB s) ->
          signalFromSnapshot symbol (setClose s v) = None)
      /\ (forall v, ~ ltP n0 v -> signalFromSnapshot symbol (setAcc s v) = None))
  /\ (shortRule s ->
      (forall v, ~ ltP (Num 70) v -> signalFromSnapshot symbol (setRsi s v) = None)
      /\ (forall v, ~ ltP (snap_upperBB s) v ->
          signalFromSnapshot symbol (setClose s v) = None)
      /\ (forall v, ~ ltP v n0 -> signalFromSnapshot symbol (setAcc s v) = None)).
Proof.
  intros Hl Hn Hr. cbv zeta.
  rewrite (analyzeSymbol_loaded _ _ Hl Hn).
  split; [| split; [| split; [| split]]].
  - rewrite (side_of_signal symbol "LONG" Hr). apply entryRule_long.
  - rewrite (side_of_signal symbol "SHORT" Hr). apply entryRule_short.
  - intros. apply mutation_none; assumption.
  - intros (H1 & H2 & H3).
    split; [| split]; intros v Hv; apply mutation_none;
      unfold longRule, shortRule, setRsi, setClose, setAcc; simpl;
      try tauto; intros (Hb1 & Hb2 & Hb3);
      first [ exact (ltP_irrefl2 _ _ Hb3 H3) | exact (ltP_irrefl2 _ _ H3 Hb3)
            | exact (ltP_asym _ Hb1 H1) | exact (ltP_asym _ H1 Hb1) ].
  - intros (H1 & H2 & H3).
    split; [| split]; intros v Hv; apply mutation_none;
      unfold longRule, shortRule, setRsi, setClose, setAcc; simpl;
      try tauto; intros (Hb1 & Hb2 & Hb3);
      first [ exact (ltP_irrefl2 _ _ Hb3 H3) | exact (ltP_irrefl2 _ _ H3 Hb3)
            | exact (ltP_asym _ Hb1 H1) | exact (ltP_asym _ H1 Hb1) ].
Qed.

End EntryRule.

(** *** Rounding, levels and confidence *)

Lemma pow10_pos (d : nat) : 0 < inject_Z (pow10 d).
Proof.
  unfold pow10. change 0 with (inject_Z 0). rewrite <- Zlt_Qlt. apply Z.pow_pos_nonneg; lia.
Qed.

Lemma floor_half (q : Q) :
  - (1 # 2) <= inject_Z (Qfloor (q + (1 # 2))) - q <= 1 # 2.
Proof.
  pose proof (Qfloor_le (q + (1 # 2))) as H1.
  pose proof (Qlt_floor (q + (1 # 2))) as H2.
  rewrite inject_Z_plus in H2. change (inject_Z 1) with 1 in H2.
  split; lra.
Qed.

Lemma roundHalfAway_near (q : Q) :
  - (1 # 2) <= inject_Z (roundHalfAway q) - q <= 1 # 2.
Proof.
  unfold roundHalfAway. destruct (Qle_bool 0 q).
  - apply floor_half.
  - rewrite inject_Z_opp. pose proof (floor_half (- q)). lra.
Qed.

Lemma toFixed_rounded (d : nat) (x : Q) : roundedTo d (Num x) (toFixed d (Num x)).
Proof.
  unfold roundedTo, toFixed.
  pose proof (pow10_pos d) as HP.
  set (P := inject_Z (pow10 d)) in *.
  pose proof (roundHalfAway_near (x * P)) as Hn.
  set (n := inject_Z (roundHalfAway (x * P))) in *.
  split.
  - apply Qabs_Qle_condition.
    assert (Hk : 0 < / P) by (apply Qinv_lt_0_compat; assumption).
    assert (E : n / P - x == (n - x * P) * / P) by (field; lra).
    rewrite E. unfold Qdiv.
    split.
    + setoid_replace (- ((1 # 2) * / P)) with ((- (1 # 2)) * / P) by ring.
      apply Qmult_le_compat_r; lra.
    + apply Qmult_le_compat_r; lra.
  - exists (roundHalfAway (x * P)). reflexivity.
Qed.

Lemma Qeq_bool_false (x y : Q) : Qeq_bool x y = false <-> ~ x == y.
Proof.
  split.
  - intros H E. apply Qeq_bool_iff in E. congruence.
  - intro H. destruct (Qeq_bool x y) eqn:E; [|reflexivity].
    apply Qeq_bool_iff in E. contradiction.
Qed.

Lemma Qabs_zero_iff (a : Q) : Qabs a == 0 <-> a == 0.
Proof.
  split; intro H.
  - destruct (Qlt_le_dec a 0) as [Hn | Hp].
    + rewrite Qabs_neg in H; lra.
    + rewrite Qabs_pos in H; lra.
  - rewrite H. reflexivity.
Qed.

Lemma roundHalfAway_compat (q q' : Q) : q == q' -> roundHalfAway q = roundHalfAway q'.
Proof.
  intro E. unfold roundHalfAway.
  destruct (Qle_bool 0 q) eqn:E1, (Qle_bool 0 q') eqn:E2.
  - rewrite E. reflexivity.
  - apply Qle_bool_iff in E1. rewrite E in E1. apply Qle_bool_iff in E1. congruence.
  - apply Qle_bool_iff in E2. rewrite <- E in E2. apply Qle_bool_iff in E2. congruence.
  - rewrite E. reflexivity.
Qed.

Lemma toFixed_compat (d : nat) (q q' : Q) :
  q == q' -> toFixed d (Num q) =n= toFixed d (Num q').
Proof.
  intro E. unfold toFixed, eqn.
  rewrite (@roundHalfAway_compat (q * inject_Z (pow10 d)) (q' * inject_Z (pow10 d))).
  - reflexivity.
  - rewrite E. reflexivity.
Qed.

(** The value of the confidence expression on proper numbers. *)
Lemma confidence_value (acc a : Q) :
  exists x : Q,
    x == 10 * Qabs acc / confidenceDivisor a
    /\ Math_round (Math_min n100 (confidenceOf (Num acc) (Num a)))
       = Num (inject_Z (Qfloor (Qmin 100 (60 + Qmin 35 (Qmax 0 x)) + (1 # 2)))).
Proof.
  unfold confidenceOf, confidenceDivisor, orElse, Math_abs, truthyNum.
  destruct (Qeq_bool (Qabs a) 0) eqn:E; simpl negb; cbv iota.
  - assert (Ha : Qeq_bool a 0 = true).
    { apply Qeq_bool_iff. apply Qabs_zero_iff. apply Qeq_bool_iff. assumption. }
    rewrite Ha.
    exists (Qabs acc / 1 * 10). split; [field|]. reflexivity.
  - assert (Ha : Qeq_bool a 0 = false).
    { apply Qeq_bool_false. intro H. apply Qabs_zero_iff in H.
      apply Qeq_bool_iff in H. congruence. }
    rewrite Ha.
    exists (Qabs acc / Qabs a * 10). split.
    + field. apply Qeq_bool_false. assumption.
    + unfold div. rewrite E. reflexivity.
Qed.

Lemma confidence_exact (acc a : Q) :
  Math_round (Math_min n100 (confidenceOf (Num acc) (Num a)))
    = Num (inject_Z (confidenceExact acc a)).
Proof.
  destruct (confidence_value acc a) as (x & Ex & ->).
  unfold confidenceExact. do 2 f_equal.
  apply Qfloor_comp. rewrite Ex. reflexivity.
Qed.

Lemma confidence_range (acc a : Q) :
  (60 <= confidenceExact acc a <= 95)%Z.
Proof.
  unfold confidenceExact.
  set (x := 10 * Qabs acc / confidenceDivisor a).
  assert (H0 : 0 <= Qmin 35 (Qmax 0 x)).
  { apply Q.min_glb; [lra | apply Q.le_max_l]. }
  assert (H35 : Qmin 35 (Qmax 0 x) <= 35) by apply Q.le_min_l.
  set (m := Qmin 35 (Qmax 0 x)) in *.
  assert (E : Qmin 100 (60 + m) == 60 + m) by (apply Q.min_r; lra).
  rewrite (Qfloor_comp _ _ (Qplus_comp _ _ E _ _ (Qeq_refl _))).
  split.
  - assert (H : (Qfloor 60 <= Qfloor (60 + m + (1 # 2)))%Z)
      by (apply Qfloor_resp_le; lra).
    exact H.
  - assert (H : (Qfloor (60 + m + (1 # 2)) <= Qfloor (95 + (1 # 2)))%Z)
      by (apply Qfloor_resp_le; lra).
    exact H.
Qed.

Lemma eqn_trans (a b c : num) : a =n= b -> b =n= c -> a =n= c.
Proof.
  destruct a, b, c; simpl; try tauto. intros H1 H2. rewrite H1. exact H2.
Qed.

Lemma ltP_proper (a b : num) : ltP a b -> exists x y, a = Num x /\ b = Num y /\ x < y.
Proof.
  destruct a, b; simpl; try contradiction. intro H. eauto.
Qed.

Lemma defined_Num (a : num) : defined a -> exists x, a = Num x.
Proof. destruct a; unfold defined; simpl; [discriminate | eauto]. Qed.

Lemma signal_fields (symbol : string) (s : Snapshot) (r : Analysis) :
  signalFromSnapshot symbol s = Some r ->
  exists c a acc,
    snap_close s = Num c /\ snap_atr s = Num a /\ snap_acc s = Num acc
    /\ (side r = "LONG" \/ side r = "SHORT")
    /\ entry r = toFixed 8 (Num c)
    /\ sl r = toFixed 8 (Num (fst (levels c a (side r))))
    /\ tp r = toFixed 8 (Num (snd (levels c a (side r))))
    /\ rr r = toFixed 2 (Math_abs (Num (snd (levels c a (side r))) - Num c)
                         / Math_abs (Num c - Num (fst (levels c a (side r)))))%num
    /\ confidence r = Math_round (Math_min n100 (confidenceOf (Num acc) (Num a))).
Proof.
  unfold signalFromSnapshot. cbv zeta.
  destruct (existsb _ _) eqn:Er; [discriminate|].
  apply ready_check in Er. destruct Er as (_ & _ & _ & Hacc & Hatr).
  apply defined_Num in Hacc, Hatr.
  destruct Hacc as [acc Eacc], Hatr as [a Ea].
  destruct (entryRule _ _ _ _ _) as [sd|] eqn:He; [|discriminate].
  assert (Hc : (sd = "LONG" \/ sd = "SHORT") /\ exists c, snap_close s = Num c).
  { destruct (entryRule_cases (snap_rsi s) (snap_close s) (snap_lowerBB s)
                (snap_upperBB s) (snap_acc s)) as [E | [E | E]].
    - split; [left; congruence|].
      apply entryRule_long in E. destruct E as (_ & E & _).
      apply ltP_proper in E. destruct E as (x & y & E & _). eauto.
    - split; [right; congruence|].
      apply entryRule_short in E. destruct E as (_ & E & _).
      apply ltP_proper in E. destruct E as (x & y & _ & E & _). eauto.
    - congruence. }
  destruct Hc as [Hsd [c Ec]].
  rewrite Ec, Ea. intro H.
  exists c, a, acc. repeat (split; [assumption|]).
  destruct Hsd; subst sd; simpl in H; inversion H; unfold levels; simpl;
    rewrite Eacc; auto 10.
Qed.


Section Levels.
Context {rt : JsRuntime}.

Lemma analyzeSymbol_inv (net : Network) (symbol : string) (r : Analysis) :
  analyzeSymbol net symbol = Some r ->
  exists ohlcv,
    loadCandles net symbol "5m" 200 = Ok ohlcv
    /\ (30 <= List.length ohlcv)%nat
    /\ signalFromSnapshot symbol (latestSnapshot ohlcv) = Some r.
Proof.
  unfold analyzeSymbol, analyzeCandles.
  destruct (loadCandles net symbol "5m" 200) as [ohlcv|]; [|discriminate].
  destruct (Nat.ltb_spec (List.length ohlcv) 30); [discriminate|].
  intro Hs. exists ohlcv. auto.
Qed.



(** C10.  Every candidate returned by [analyzeSymbol] carries an integer
    confidence between 60 and 95, and the test the scan applies to an
    analysis result, [res && res.side && res.confidence >= 60], accepts
    it. *)
Theorem analyzeSymbol_confidence_range (net : Network) (symbol : string)
    (r : Analysis) :
  analyzeSymbol net symbol = Some r ->
  (exists n : Z, confidence r = Num (inject_Z n) /\ (60 <= n <= 95)%Z)
  /\ Index.accepted (analyzeSymbol net symbol) = true.
Proof.
  intro H0. pose proof H0 as H.
  apply analyzeSymbol_inv in H. destruct H as (ohlcv & Hl & _ & H).
  apply signal_fields in H.
  destruct H as (c & a & acc & _ & Ea & Eacc & Hsd & _ & _ & _ & _ & Hc).
  rewrite confidence_exact in Hc.
  pose proof (confidence_range acc a) as Hr.
  split; [eauto|].
  rewrite H0. unfold Index.accepted. rewrite Hc.
  apply andb_true_iff. split.
  - destruct Hsd as [-> | ->]; reflexivity.
  - apply ge_spec. unfold leP. change 60 with (inject_Z 60).
    rewrite <- Zle_Qle. lia.
Qed.

End Levels.

(** *** The levels under rounding *)

Module FloatFacts.
Import Float.

Lemma exact_rounding : Rounding exact 0.
Proof.
  split; unfold exact.
  - auto.
  - lra.
  - intro x. setoid_replace (x - x) with 0 by ring. rewrite Qmult_0_l. apply Qle_refl.
  - intros. reflexivity.
Qed.

Lemma two_pos (e : Z) : 0 < 2 ^ e.
Proof. apply Qpower_0_lt. reflexivity. Qed.

Lemma two_split (e : Z) : 2 ^ e == 2 ^ 52 * 2 ^ (e - 52).
Proof.
  rewrite <- Qpower_plus by (intro H; discriminate H).
  replace (52 + (e - 52))%Z with e by lia. reflexivity.
Qed.

Lemma two_nat (k : Z) : (0 <= k)%Z -> 2 ^ k == inject_Z (2 ^ k).
Proof. intro H. rewrite Zpower_Qpower by assumption. reflexivity. Qed.

(** The exponent [ilog2] finds is not too large. *)
Lemma ilog2_lower (q : Q) : 0 < q -> 2 ^ (ilog2 q) <= q.
Proof.
  intro Hq. unfold ilog2.
  set (e0 := (Z.log2 (Qnum q) - Z.log2 (Zpos (Qden q)))%Z).
  destruct (Qle_bool (2 ^ e0) q) eqn:E; [apply Qle_bool_iff; exact E|].
  destruct q as [n d]. unfold Qlt in Hq. cbn in Hq. cbn [Qnum Qden] in e0.
  assert (Hn : (0 < n)%Z) by lia.
  destruct (Z.log2_spec n Hn) as [Hn1 _].
  destruct (Z.log2_spec (Zpos d) (Pos2Z.is_pos d)) as [_ Hd2].
  pose proof (Z.log2_nonneg n) as Ln. pose proof (Z.log2_nonneg (Zpos d)) as Ld.
  replace (e0 - 1)%Z with (Z.log2 n - Z.succ (Z.log2 (Zpos d)))%Z by (unfold e0; lia).
  rewrite Qpower_minus by (intro H; discriminate H).
  rewrite !two_nat by lia.
  apply Qle_shift_div_r.
  - change 0 with (inject_Z 0). rewrite <- Zlt_Qlt. apply Z.pow_pos_nonneg; lia.
  - assert (Hp : (0 < 2 ^ Z.succ (Z.log2 (Zpos d)))%Z) by (apply Z.pow_pos_nonneg; lia).
    revert Hn1 Hd2 Hp.
    generalize (2 ^ Z.log2 n)%Z (2 ^ Z.succ (Z.log2 (Zpos d)))%Z. intros L P Hn1 Hd2 Hp.
    unfold Qle, Qmult, inject_Z. cbn [Qnum Qden]. nia.
Qed.

Lemma roundEven_near (x : Q) : Qabs (inject_Z (roundEven x) - x) <= 1 # 2.
Proof.
  unfold roundEven.
  pose proof (Qfloor_le x) as H1. pose proof (Qlt_floor x) as H2.
  rewrite inject_Z_plus in H2. change (inject_Z 1) with 1 in H2.
  set (f := Qfloor x) in *.
  apply Qabs_Qle_condition.
  destruct (Qlt_bool (x - inject_Z f) (1 # 2)) eqn:E1.
  - apply Qlt_bool_iff in E1. lra.
  - assert (Hge : 1 # 2 <= x - inject_Z f).
    { apply Qnot_lt_le. intro H. apply Qlt_bool_iff in H. congruence. }
    assert (Hup : - (1 # 2) <= inject_Z (f + 1) - x <= 1 # 2).
    { rewrite inject_Z_plus. change (inject_Z 1) with 1. lra. }
    destruct (Qlt_bool (1 # 2) (x - inject_Z f)) eqn:E2; [exact Hup|].
    assert (Hle : x - inject_Z f <= 1 # 2).
    { apply Qnot_lt_le. intro H. apply Qlt_bool_iff in H. congruence. }
    destruct (Z.even f); [lra | exact Hup].
Qed.

Lemma roundEven_int (x : Q) (k : Z) : x == inject_Z k -> roundEven x = k.
Proof.
  intro E. unfold roundEven.
  rewrite (Qfloor_comp _ _ E), Qfloor_Z.
  assert (H : Qlt_bool (x - inject_Z k) (1 # 2) = true).
  { apply Qlt_bool_iff. rewrite E. lra. }
  rewrite H. reflexivity.
Qed.

Lemma round53_compat (x y : Q) : x == y -> round53 x == round53 y.
Proof.
  intro E. unfold round53. rewrite (Qred_complete _ _ E). reflexivity.
Qed.

Lemma round53_error (x : Q) : Qabs (round53 x - x) <= unit53 * Qabs x.
Proof.
  unfold round53. pose proof (Qred_correct x) as Hq.
  set (q := Qred x) in *.
  destruct (Qeq_bool q 0) eqn:Ez.
  - apply Qeq_bool_iff in Ez. rewrite <- Hq, Ez.
    setoid_replace (0 - 0) with 0 by ring. rewrite Qmult_0_r. apply Qle_refl.
  - apply Qeq_bool_false in Ez.
    assert (Ha : 0 < Qabs q).
    { destruct (Qlt_le_dec 0 (Qabs q)) as [H | H]; [exact H|].
      exfalso. apply Ez. apply Qabs_zero_iff.
      apply Qle_antisym; [exact H | apply Qabs_nonneg]. }
    pose proof (ilog2_lower Ha) as He.
    rewrite (two_split (ilog2 (Qabs q))) in He.
    set (s := 2 ^ (ilog2 (Qabs q) - 52)) in *.
    assert (Hs : 0 < s) by apply two_pos.
    pose proof (roundEven_near (Qabs q / s)) as Hm.
    set (m := inject_Z (roundEven (Qabs q / s))) in *.
    assert (Hms : Qabs (m * s - Qabs q) <= unit53 * Qabs q).
    { setoid_replace (m * s - Qabs q) with ((m - Qabs q / s) * s)
        by (field; intro H; rewrite H in Hs; discriminate Hs).
      rewrite Qabs_Qmult, (Qabs_pos s) by (apply Qlt_le_weak; exact Hs).
      apply Qle_trans with ((1 # 2) * s).
      - apply Qmult_le_compat_r; [exact Hm | apply Qlt_le_weak; exact Hs].
      - change (2 ^ 52) with (inject_Z (2 ^ 52)) in He. unfold unit53.
        assert (E : (1 # 2 ^ 53) == (1 # 2) * / inject_Z (2 ^ 52)) by reflexivity.
        rewrite E. rewrite <- Qmult_assoc. apply Qmult_le_l; [reflexivity|].
        setoid_replace s with (/ inject_Z (2 ^ 52) * (inject_Z (2 ^ 52) * s)) at 1
          by (field; intro H; discriminate H).
        apply Qmult_le_l; [reflexivity | exact He]. }
    clearbody q.
    destruct (Qle_bool 0 q) eqn:Es; rewrite <- Hq.
    + apply Qle_bool_iff in Es. rewrite (Qabs_pos q Es) in Hms at 1.
      exact Hms.
    + assert (Hn : q <= 0).
      { apply Qlt_le_weak. apply Qnot_le_lt. intro H. apply Qle_bool_iff in H. congruence. }
      setoid_replace (- (m * s) - q) with (- (m * s - - q)) by ring.
      rewrite Qabs_opp. rewrite <- (Qabs_neg q Hn). exact Hms.
Qed.

Lemma round53_int (n : Z) : (Z.abs n <= 2 ^ 53)%Z -> round53 (inject_Z n) == inject_Z n.
Proof.
  intro Hn. unfold round53.
  assert (Er : Qred (inject_Z n) = inject_Z n).
  { apply Qcanon.Qred_identity. cbn. apply Z.gcd_1_r. }
  rewrite Er.
  destruct (Qeq_bool (inject_Z n) 0) eqn:Ez; [apply Qeq_bool_iff in Ez; rewrite Ez; reflexivity|].
  apply Qeq_bool_false in Ez.
  assert (Hz : n <> 0%Z) by (intro H; apply Ez; rewrite H; reflexivity).
  assert (Eabs : Qabs (inject_Z n) = inject_Z (Z.abs n)) by reflexivity.
  rewrite Eabs.
  assert (Hp : (0 < Z.abs n)%Z) by lia.
  destruct (Z.log2_spec _ Hp) as [L1 L2].
  pose proof (Z.log2_nonneg (Z.abs n)) as L0.
  assert (El : ilog2 (inject_Z (Z.abs n)) = Z.log2 (Z.abs n)).
  { unfold ilog2. cbn [Qnum Qden inject_Z]. change (Z.log2 1) with 0%Z.
    rewrite Z.sub_0_r.
    assert (H : Qle_bool (2 ^ Z.log2 (Z.abs n)) (inject_Z (Z.abs n)) = true).
    { apply Qle_bool_iff. rewrite two_nat by assumption.
      rewrite <- Zle_Qle. exact L1. }
    rewrite H. reflexivity. }
  rewrite El. set (L := Z.log2 (Z.abs n)) in *.
  assert (HL : (L <= 53)%Z).
  { destruct (Z.le_gt_cases L 53) as [H | H]; [exact H|].
    exfalso. assert (2 ^ 54 <= 2 ^ L)%Z by (apply Z.pow_le_mono_r; lia).
    assert (2 ^ 53 < 2 ^ 54)%Z by reflexivity. lia. }
  assert (Hk : exists k : Z, inject_Z (Z.abs n) / 2 ^ (L - 52) == inject_Z k).
  { destruct (Z.le_gt_cases L 52) as [H | H].
    - exists (Z.abs n * 2 ^ (52 - L))%Z.
      replace (L - 52)%Z with (- (52 - L))%Z by lia.
      rewrite Qpower_opp, two_nat by lia.
      rewrite inject_Z_mult. field.
      change 0 with (inject_Z 0). rewrite inject_Z_injective.
      apply Z.pow_nonzero; lia.
    - assert (L = 53%Z) by lia. subst L.
      assert (Z.abs n = 2 ^ 53)%Z.
      { rewrite H0 in L1. lia. }
      exists (2 ^ 52)%Z. rewrite H0, H1. reflexivity. }
  destruct Hk as [k Ek].
  rewrite (roundEven_int Ek).
  assert (Eres : inject_Z k * 2 ^ (L - 52) == inject_Z (Z.abs n)).
  { rewrite <- Ek. field. intro H. pose proof (two_pos (L - 52)) as Hs.
    rewrite H in Hs. discriminate Hs. }
  destruct (Qle_bool 0 (inject_Z n)) eqn:Es.
  - apply Qle_bool_iff in Es. change 0 with (inject_Z 0) in Es.
    rewrite <- Zle_Qle in Es. rewrite Eres, Z.abs_eq by assumption. reflexivity.
  - assert (Hneg : (n < 0)%Z).
    { apply Z.lt_nge. intro H. rewrite Zle_Qle in H.
      change (inject_Z 0) with 0 in H. apply Qle_bool_iff in H. congruence. }
    rewrite Eres, Z.abs_neq by lia. rewrite inject_Z_opp. ring.
Qed.

Lemma round53_rounding : Rounding round53 unit53.
Proof.
  split.
  - exact round53_compat.
  - unfold unit53. split; [discriminate | unfold Qle; cbn; lia].
  - exact round53_error.
  - exact round53_int.
Qed.

Section Bounds.
Variables (fl : Q -> Q) (u : Q).
Hypothesis R : Rounding fl u.

Lemma fl_zero : fl 0 == 0.
Proof.
  pose proof (fl_error R 0) as H. rewrite Qmult_0_r in H.
  apply Qabs_Qle_condition in H. lra.
Qed.

Lemma unit_scale (x b : Q) : Qabs x <= b -> u * Qabs x <= u * b.
Proof.
  intro H. rewrite (Qmult_comm u (Qabs x)), (Qmult_comm u b).
  apply Qmult_le_compat_r; [exact H | apply (u_range R)].
Qed.

(** The rounded sum of [c] and a term [m] that approximates [w]. *)
Lemma sum_near (c w m x : Q) :
  x == c + m ->
  Qabs (m - w) <= u * Qabs w ->
  Qabs (fl x - (c + w)) <= u * (Qabs c + 3 * Qabs w).
Proof.
  intros Ex Hm. destruct (u_range R) as [U0 U1].
  pose proof (Qabs_nonneg c) as C0. pose proof (Qabs_nonneg w) as W0.
  pose proof (proj1 (Qabs_Qle_condition c (Qabs c)) (Qle_refl _)) as Hc.
  pose proof (proj1 (Qabs_Qle_condition w (Qabs w)) (Qle_refl _)) as Hw.
  assert (UW : u * Qabs w <= Qabs w).
  { rewrite <- (Qmult_1_l (Qabs w)) at 2. apply Qmult_le_compat_r; assumption. }
  assert (UW0 : 0 <= u * Qabs w) by (apply Qmult_le_0_compat; assumption).
  apply Qabs_Qle_condition in Hm.
  assert (Hx : Qabs x <= Qabs c + 2 * Qabs w).
  { apply Qabs_Qle_condition. lra. }
  pose proof (Qle_trans _ _ _ (fl_error R x) (@unit_scale _ _ Hx)) as Hf.
  apply Qabs_Qle_condition in Hf.
  apply Qabs_Qle_condition.
  setoid_replace (u * (Qabs c + 3 * Qabs w)) with (u * (Qabs c + 2 * Qabs w) + u * Qabs w)
    by ring.
  lra.
Qed.

(** The rounded distance between [c] and the level [fl (c + m)]. *)
Lemma distance_near (c w m x : Q) :
  x == c + m ->
  Qabs (m - w) <= u * Qabs w ->
  Qabs (fl (fl x - c) - w) <= u * (2 * Qabs c + 7 * Qabs w)
  /\ Qabs (fl (c - fl x) - - w) <= u * (2 * Qabs c + 7 * Qabs w).
Proof.
  intros Ex Hm. destruct (u_range R) as [U0 U1].
  pose proof (@sum_near c w m x Ex Hm) as Hl.
  pose proof (Qabs_nonneg c) as C0. pose proof (Qabs_nonneg w) as W0.
  pose proof (proj1 (Qabs_Qle_condition c (Qabs c)) (Qle_refl _)) as Hc.
  pose proof (proj1 (Qabs_Qle_condition w (Qabs w)) (Qle_refl _)) as Hw.
  assert (UW : u * Qabs w <= Qabs w).
  { rewrite <- (Qmult_1_l (Qabs w)) at 2. apply Qmult_le_compat_r; assumption. }
  assert (UC : u * Qabs c <= Qabs c).
  { rewrite <- (Qmult_1_l (Qabs c)) at 2. apply Qmult_le_compat_r; assumption. }
  assert (UW0 : 0 <= u * Qabs w) by (apply Qmult_le_0_compat; assumption).
  assert (UC0 : 0 <= u * Qabs c) by (apply Qmult_le_0_compat; assumption).
  setoid_replace (u * (Qabs c + 3 * Qabs w)) with (u * Qabs c + 3 * (u * Qabs w)) in Hl
    by ring.
  apply Qabs_Qle_condition in Hl.
  set (lv := fl x) in *.
  assert (Hy : Qabs (lv - c) <= Qabs c + 4 * Qabs w).
  { apply Qabs_Qle_condition. lra. }
  assert (Hy' : Qabs (c - lv) <= Qabs c + 4 * Qabs w).
  { apply Qabs_Qle_condition. lra. }
  pose proof (Qle_trans _ _ _ (fl_error R (lv - c)) (@unit_scale _ _ Hy)) as Hf.
  pose proof (Qle_trans _ _ _ (fl_error R (c - lv)) (@unit_scale _ _ Hy')) as Hf'.
  setoid_replace (u * (Qabs c + 4 * Qabs w)) with (u * Qabs c + 4 * (u * Qabs w)) in Hf
    by ring.
  setoid_replace (u * (Qabs c + 4 * Qabs w)) with (u * Qabs c + 4 * (u * Qabs w)) in Hf'
    by ring.
  apply Qabs_Qle_condition in Hf, Hf'.
  setoid_replace (u * (2 * Qabs c + 7 * Qabs w))
    with (2 * (u * Qabs c) + 7 * (u * Qabs w)) by ring.
  split; apply Qabs_Qle_condition; lra.
Qed.

Lemma abs_abs_near (d w e : Q) : Qabs (d - w) <= e -> Qabs (Qabs d - Qabs w) <= e.
Proof.
  intro H. apply Qabs_Qle_condition.
  pose proof (Qabs_triangle_reverse d w) as H1.
  pose proof (Qabs_triangle_reverse w d) as H2.
  rewrite (Qabs_Qminus w d) in H2. lra.
Qed.

(** The four levels and distances for the multiple [k] of the ATR. *)
Lemma level_near (c a k : Q) :
  0 < k -> k <= 3 ->
  let m := fl (k * a) in
  Qabs (fl (c + m) - (c + k * a)) <= tolerance u c a
  /\ Qabs (fl (c - m) - (c - k * a)) <= tolerance u c a
  /\ Qabs (Qabs (fl (fl (c + m) - c)) - k * Qabs a) <= tolerance u c a
  /\ Qabs (Qabs (fl (c - fl (c + m))) - k * Qabs a) <= tolerance u c a
  /\ Qabs (Qabs (fl (fl (c - m) - c)) - k * Qabs a) <= tolerance u c a
  /\ Qabs (Qabs (fl (c - fl (c - m))) - k * Qabs a) <= tolerance u c a.
Proof.
  intros K0 K3 m. destruct (u_range R) as [U0 U1].
  pose proof (Qabs_nonneg c) as C0. pose proof (Qabs_nonneg a) as A0.
  assert (Ew : Qabs (k * a) == k * Qabs a).
  { rewrite Qabs_Qmult, (Qabs_pos k) by (apply Qlt_le_weak; exact K0). reflexivity. }
  assert (UA0 : 0 <= u * Qabs a) by (apply Qmult_le_0_compat; assumption).
  assert (UC0 : 0 <= u * Qabs c) by (apply Qmult_le_0_compat; assumption).
  assert (UKA : u * (k * Qabs a) <= 3 * (u * Qabs a)).
  { setoid_replace (u * (k * Qabs a)) with (k * (u * Qabs a)) by ring.
    apply Qmult_le_compat_r; assumption. }
  assert (T1 : u * (Qabs c + 3 * Qabs (k * a)) <= tolerance u c a).
  { unfold tolerance. rewrite Ew.
    setoid_replace (u * (Qabs c + 3 * (k * Qabs a)))
      with (u * Qabs c + 3 * (u * (k * Qabs a))) by ring.
    setoid_replace (u * (2 * Qabs c + 21 * Qabs a))
      with (2 * (u * Qabs c) + 21 * (u * Qabs a)) by ring.
    lra. }
  assert (T2 : u * (2 * Qabs c + 7 * Qabs (k * a)) <= tolerance u c a).
  { unfold tolerance. rewrite Ew.
    setoid_replace (u * (2 * Qabs c + 7 * (k * Qabs a)))
      with (2 * (u * Qabs c) + 7 * (u * (k * Qabs a))) by ring.
    setoid_replace (u * (2 * Qabs c + 21 * Qabs a))
      with (2 * (u * Qabs c) + 21 * (u * Qabs a)) by ring.
    lra. }
  pose proof (fl_error R (k * a)) as Hm. fold m in Hm.
  assert (Hm' : Qabs (- m - - (k * a)) <= u * Qabs (- (k * a))).
  { rewrite Qabs_opp.
    setoid_replace (- m - - (k * a)) with (- (m - k * a)) by ring.
    rewrite Qabs_opp. exact Hm. }
  assert (T1' : u * (Qabs c + 3 * Qabs (- (k * a))) <= tolerance u c a)
    by (rewrite Qabs_opp; exact T1).
  assert (T2' : u * (2 * Qabs c + 7 * Qabs (- (k * a))) <= tolerance u c a)
    by (rewrite Qabs_opp; exact T2).
  assert (Ep : c + m == c + m) by reflexivity.
  assert (En : c - m == c + - m) by ring.
  pose proof (@sum_near c (k * a) m _ Ep Hm) as S1.
  pose proof (@sum_near c (- (k * a)) (- m) _ En Hm') as S2.
  destruct (@distance_near c (k * a) m _ Ep Hm) as [D1 D2].
  destruct (@distance_near c (- (k * a)) (- m) _ En Hm') as [D3 D4].
  setoid_replace (c + - (k * a)) with (c - k * a) in S2 by ring.
  rewrite <- Ew.
  split; [eapply Qle_trans; [exact S1 | exact T1]|].
  split; [eapply Qle_trans; [exact S2 | exact T1']|].
  split; [apply abs_abs_near; eapply Qle_trans; [exact D1 | exact T2]|].
  split.
  { rewrite <- (Qabs_opp (k * a)). apply abs_abs_near.
    eapply Qle_trans; [exact D2 | exact T2]. }
  split.
  { rewrite <- (Qabs_opp (k * a)). apply abs_abs_near.
    eapply Qle_trans; [exact D3 | exact T2']. }
  rewrite <- (Qabs_opp (k * a)), <- (Qabs_opp (- (k * a))).
  apply abs_abs_near. eapply Qle_trans; [exact D4 | exact T2'].
Qed.

(** A quotient of two distances close to 3 A and 1.5 A is close to 2. *)
Lemma ratio_near (dt ds A e : Q) :
  Qabs (dt - 3 * A) <= e -> Qabs (ds - (3 # 2) * A) <= e -> e < (3 # 2) * A ->
  Qabs (dt / ds - 2) <= 3 * e / ((3 # 2) * A - e).
Proof.
  intros Ht Hs He.
  apply Qabs_Qle_condition in Ht, Hs.
  assert (Hpos : 0 < (3 # 2) * A - e) by lra.
  assert (Hds : 0 < ds) by lra.
  assert (He0 : 0 <= e) by lra.
  assert (Hn : ~ ds == 0) by (intro H; rewrite H in Hds; discriminate Hds).
  setoid_replace (dt / ds - 2) with ((dt - 2 * ds) / ds) by (field; exact Hn).
  unfold Qdiv at 1. rewrite Qabs_Qmult, Qabs_Qinv, (Qabs_pos ds) by lra.
  apply Qle_trans with (3 * e * / ds).
  - apply Qmult_le_compat_r.
    + apply Qabs_Qle_condition. lra.
    + apply Qlt_le_weak. apply Qinv_lt_0_compat. exact Hds.
  - apply Qle_shift_div_l; [exact Hpos|].
    apply Qle_trans with (3 * e * / ds * ds).
    + rewrite (Qmult_comm (3 * e * / ds) ((3 # 2) * A - e)),
              (Qmult_comm (3 * e * / ds) ds).
      apply Qmult_le_compat_r; [lra|].
      apply Qmult_le_0_compat; [lra|].
      apply Qlt_le_weak. apply Qinv_lt_0_compat. exact Hds.
    + setoid_replace (3 * e * / ds * ds) with (3 * e) by (field; exact Hn).
      apply Qle_refl.
Qed.

End Bounds.

End FloatFacts.

Section LevelsFloat.
Import Float FloatFacts.
Variables (fl : Q -> Q) (u : Q).
Context {rt : JsRuntime}.

Lemma signalFloat_fields (symbol : string) (s : Snapshot) (r : Analysis) :
  signalFloat fl symbol s = Some r ->
  exists c a,
    snap_close s = Num c /\ snap_atr s = Num a
    /\ (side r = "LONG" \/ side r = "SHORT")
    /\ entry r = toFixedF fl 8 (Num c)
    /\ sl r = toFixedF fl 8 (stopF fl (side r) (Num c) (Num a))
    /\ tp r = toFixedF fl 8 (targetF fl (side r) (Num c) (Num a))
    /\ rr r = toFixedF fl 2
                (ratioF fl (Num c) (stopF fl (side r) (Num c) (Num a))
                   (targetF fl (side r) (Num c) (Num a))).
Proof.
  unfold signalFloat. cbv zeta.
  destruct (existsb _ _) eqn:Er; [discriminate|].
  apply ready_check in Er. destruct Er as (_ & _ & _ & _ & Hatr).
  apply defined_Num in Hatr. destruct Hatr as [a Ea].
  destruct (entryRule _ _ _ _ _) as [sd|] eqn:He; [|discriminate].
  assert (Hc : (sd = "LONG" \/ sd = "SHORT") /\ exists c, snap_close s = Num c).
  { destruct (entryRule_cases (snap_rsi s) (snap_close s) (snap_lowerBB s)
                (snap_upperBB s) (snap_acc s)) as [E | [E | E]].
    - split; [left; congruence|].
      apply entryRule_long in E. destruct E as (_ & E & _).
      apply ltP_proper in E. destruct E as (x & y & E & _). eauto.
    - split; [right; congruence|].
      apply entryRule_short in E. destruct E as (_ & E & _).
      apply ltP_proper in E. destruct E as (x & y & _ & E & _). eauto.
    - congruence. }
  destruct Hc as [Hsd [c Ec]].
  rewrite Ec, Ea. intro H. inversion H. cbn [side entry sl tp rr].
  exists c, a. repeat (split; [assumption || reflexivity|]). reflexivity.
Qed.

Lemma analyzeSymbolFloat_inv (net : Network) (symbol : string) (r : Analysis) :
  analyzeSymbolFloat fl net symbol = Some r ->
  exists ohlcv,
    loadCandles net symbol "5m" 200 = Ok ohlcv
    /\ (30 <= List.length ohlcv)%nat
    /\ signalFloat fl symbol (latestSnapshot ohlcv) = Some r.
Proof.
  unfold analyzeSymbolFloat.
  destruct (loadCandles net symbol "5m" 200) as [ohlcv|]; [|discriminate].
  destruct (Nat.ltb_spec (List.length ohlcv) 30); [discriminate|].
  intro Hs. exists ohlcv. auto.
Qed.

Hypothesis R : Rounding fl u.

Lemma fl_whole (x : Q) (n : Z) :
  x == inject_Z n -> (Z.abs n <= 2 ^ 53)%Z -> fl x == inject_Z n.
Proof. intros E H. rewrite (fl_compat R E). apply (fl_int R). exact H. Qed.

Lemma fl_exact (x : Q) : u == 0 -> fl x == x.
Proof.
  intro E. pose proof (fl_error R x) as H. rewrite E, Qmult_0_l in H.
  apply Qabs_Qle_condition in H. lra.
Qed.

Lemma tolerance_exact (c a : Q) : u == 0 -> tolerance u c a == 0.
Proof. intro E. unfold tolerance. rewrite E. ring. Qed.

Lemma rnd_near (x : Q) (y : num) (n : Z) :
  y =n= Num x -> x == inject_Z n -> (Z.abs n <= 2 ^ 53)%Z ->
  rnd fl y =n= Num (inject_Z n).
Proof.
  destruct y as [| q]; [contradiction|]. cbn [eqn rnd]. intros E1 E2 Hn.
  apply fl_whole; [| exact Hn]. rewrite E1. exact E2.
Qed.

(** [toFixedF] of a whole number. *)
Lemma toFixedF_whole (d : nat) (x : Q) (n : Z) :
  x == inject_Z n -> (Z.abs n <= 2 ^ 53)%Z ->
  toFixed d (Num (inject_Z n)) =n= Num (inject_Z n) ->
  toFixedF fl d (Num x) =n= Num (inject_Z n).
Proof.
  intros E Hn Hd. unfold toFixedF.
  pose proof (toFixed_compat d E) as Hc.
  pose proof (eqn_trans _ _ _ Hc Hd) as Ht.
  destruct (toFixed d (Num x)) as [| q]; [contradiction|].
  cbn [eqn] in Ht. cbn [rnd eqn]. apply fl_whole; assumption.
Qed.

(** The levels of l.251-262 for the close [c] and the ATR [a]. *)
Lemma levels_near (sd : string) (c a : Q) :
  sd = "LONG" \/ sd = "SHORT" ->
  exists sl' tp',
    stopF fl sd (Num c) (Num a) = Num sl'
    /\ targetF fl sd (Num c) (Num a) = Num tp'
    /\ ratioF fl (Num c) (Num sl') (Num tp')
       = fdiv fl (Num (Qabs (fl (tp' - c)))) (Num (Qabs (fl (c - sl'))))
    /\ ((sd = "LONG"
         /\ sl' = fl (c - fl ((3 # 2) * a)) /\ tp' = fl (c + fl (3 * a))
         /\ Qabs (sl' - (c - (3 # 2) * a)) <= tolerance u c a
         /\ Qabs (tp' - (c + 3 * a)) <= tolerance u c a)
        \/ (sd = "SHORT"
            /\ sl' = fl (c + fl ((3 # 2) * a)) /\ tp' = fl (c - fl (3 * a))
            /\ Qabs (sl' - (c + (3 # 2) * a)) <= tolerance u c a
            /\ Qabs (tp' - (c - 3 * a)) <= tolerance u c a))
    /\ Qabs (Qabs (fl (c - sl')) - (3 # 2) * Qabs a) <= tolerance u c a
    /\ Qabs (Qabs (fl (tp' - c)) - 3 * Qabs a) <= tolerance u c a
    /\ (fl c == c -> a == 0 -> fl (c - sl') == 0).
Proof.
  assert (K1 : 0 < 3 # 2) by reflexivity. assert (K2 : (3 # 2) <= 3) by discriminate.
  assert (K3 : 0 < 3) by reflexivity. assert (K4 : 3 <= 3) by apply Qle_refl.
  destruct (@level_near fl u R c a (3 # 2) K1 K2) as (A1 & A2 & _ & A4 & _ & A6).
  destruct (@level_near fl u R c a 3 K3 K4) as (B1 & B2 & B3 & _ & B5 & _).
  cbv zeta in *.
  assert (Hz : a == 0 -> fl ((3 # 2) * a) == 0).
  { intro E. rewrite <- (fl_zero R). apply (fl_compat R). rewrite E. ring. }
  intros [-> | ->].
  - exists (fl (c - fl ((3 # 2) * a))), (fl (c + fl (3 * a))).
    split; [reflexivity|]. split; [reflexivity|]. split; [reflexivity|].
    split; [left; repeat split; auto|]. split; [exact A6|]. split; [exact B3|].
    intros Ec Ea.
    assert (E1 : fl (c - fl ((3 # 2) * a)) == c).
    { rewrite <- Ec at 2. apply (fl_compat R). rewrite (Hz Ea). ring. }
    rewrite <- (fl_zero R). apply (fl_compat R). rewrite E1. ring.
  - exists (fl (c + fl ((3 # 2) * a))), (fl (c - fl (3 * a))).
    split; [reflexivity|]. split; [reflexivity|]. split; [reflexivity|].
    split; [right; repeat split; auto|]. split; [exact A4|]. split; [exact B5|].
    intros Ec Ea.
    assert (E1 : fl (c + fl ((3 # 2) * a)) == c).
    { rewrite <- Ec at 2. apply (fl_compat R). rewrite (Hz Ea). ring. }
    rewrite <- (fl_zero R). apply (fl_compat R). rewrite E1. ring.
Qed.

(** C2 (amended).  Whenever the generator returns a side, with c the
    close and a the ATR at the latest index and every arithmetic result
    rounded with relative error at most u (2^-53 for binary64): the
    entry is c rounded to 8 decimals; the stop and the target are the
    computed values of c - 1.5 a and c + 3 a for LONG, of c + 1.5 a and
    c - 3 a for SHORT, each within the tolerance t = u (2 |c| + 21 |a|)
    of the exact value, and then rounded to 8 decimals; the risk-reward
    ratio is the quotient of the computed distances of the target and of
    the stop from c, rounded to 2 decimals.  The distances are within t
    of 3 |a| and of 1.5 |a|, so for t below 1.5 |a| the quotient is
    within 3 t / (1.5 |a| - t) of 2; the ratio is 2 when nothing is
    rounded (u = 0) and a is not 0, and NaN when a is 0.  For RSI 25,
    close 95, lower band 98, acceleration 0.3 and ATR 2 the result is
    LONG with entry 95, stop 92, target 101 and ratio 2.  The statement
    is made for any indicator values; [analyzeSymbol] applies the
    computation to those at the latest index of the 200 candles it
    loaded. *)
Theorem analyzeSymbol_levels (symbol : string) (s : Snapshot) (r : Analysis) :
  signalFloat fl symbol s = Some r ->
  (exists c a sl' tp',
     snap_close s = Num c
     /\ snap_atr s = Num a
     /\ entry r = toFixedF fl 8 (Num c)
     /\ sl r = toFixedF fl 8 (Num sl')
     /\ tp r = toFixedF fl 8 (Num tp')
     /\ ((side r = "LONG"
          /\ sl' = fl (c - fl ((3 # 2) * a)) /\ tp' = fl (c + fl (3 * a))
          /\ Qabs (sl' - (c - (3 # 2) * a)) <= tolerance u c a
          /\ Qabs (tp' - (c + 3 * a)) <= tolerance u c a)
         \/ (side r = "SHORT"
             /\ sl' = fl (c + fl ((3 # 2) * a)) /\ tp' = fl (c - fl (3 * a))
             /\ Qabs (sl' - (c + (3 # 2) * a)) <= tolerance u c a
             /\ Qabs (tp' - (c - 3 * a)) <= tolerance u c a))
     /\ (~ Qabs (fl (c - sl')) == 0 ->
         rr r = toFixedF fl 2
                  (Num (fl (Qabs (fl (tp' - c)) / Qabs (fl (c - sl'))))))
     /\ Qabs (Qabs (fl (c - sl')) - (3 # 2) * Qabs a) <= tolerance u c a
     /\ Qabs (Qabs (fl (tp' - c)) - 3 * Qabs a) <= tolerance u c a
     /\ (tolerance u c a < (3 # 2) * Qabs a ->
         0 < Qabs (fl (c - sl'))
         /\ Qabs (Qabs (fl (tp' - c)) / Qabs (fl (c - sl')) - 2)
            <= 3 * tolerance u c a / ((3 # 2) * Qabs a - tolerance u c a))
     /\ (u == 0 -> ~ a == 0 -> rr r =n= Num 2)
     /\ (fl c == c -> a == 0 -> rr r = NaN))
  /\ (forall (net : Network) (r' : Analysis),
        analyzeSymbolFloat fl net symbol = Some r' ->
        exists ohlcv,
          loadCandles net symbol "5m" 200 = Ok ohlcv
          /\ signalFloat fl symbol (latestSnapshot ohlcv) = Some r')
  /\ (forall upperBB : Q,
        exists r',
          signalFloat fl symbol
            (mkSnapshot (Num 25) (Num 95) (Num 98) (Num upperBB) (Num (3 # 10)) (Num 2))
            = Some r'
          /\ side r' = "LONG" /\ entry r' =n= Num 95 /\ sl r' =n= Num 92
          /\ tp r' =n= Num 101 /\ rr r' =n= Num 2).
Proof.
  intro H. split; [| split].
  - apply signalFloat_fields in H.
    destruct H as (c & a & Ec & Ea & Hsd & He & Hsl & Htp & Hrr).
    destruct (levels_near c a Hsd)
      as (sl' & tp' & Es & Et & Er & Hlv & Hds & Hdt & Hzero).
    rewrite Es in Hsl, Hrr. rewrite Et in Htp, Hrr. rewrite Er in Hrr.
    exists c, a, sl', tp'.
    repeat (split; [assumption|]).
    set (Dt := Qabs (fl (tp' - c))) in *. set (Ds := Qabs (fl (c - sl'))) in *.
    split.
    { intro Hnz. rewrite Hrr. unfold fdiv. cbn [div].
      rewrite (proj2 (Qeq_bool_false _ _) Hnz). reflexivity. }
    split; [exact Hds|]. split; [exact Hdt|].
    split.
    { intro Ht. split; [| apply ratio_near; assumption].
      apply Qabs_Qle_condition in Hds. lra. }
    split.
    + intros Eu Ha.
      rewrite (tolerance_exact c a Eu) in Hds, Hdt.
      apply Qabs_Qle_condition in Hds, Hdt.
      assert (Hpos : 0 < Qabs a).
      { destruct (Qlt_le_dec 0 (Qabs a)) as [Hp | Hp]; [exact Hp|].
        exfalso. apply Ha. apply Qabs_zero_iff.
        apply Qle_antisym; [exact Hp | apply Qabs_nonneg]. }
      assert (EDs : Ds == (3 # 2) * Qabs a) by lra.
      assert (EDt : Dt == 3 * Qabs a) by lra.
      assert (Hnz : Qeq_bool Ds 0 = false).
      { apply Qeq_bool_false. rewrite EDs. lra. }
      assert (Eq : Dt / Ds == inject_Z 2).
      { rewrite EDt, EDs. change (inject_Z 2) with 2. field. lra. }
      rewrite Hrr. unfold fdiv. cbn [div]. rewrite Hnz. cbn [rnd].
      apply (@toFixedF_whole 2 (fl (Dt / Ds)) 2).
      * apply fl_whole; [exact Eq | discriminate].
      * discriminate.
      * vm_compute. reflexivity.
    + intros Ec' Ea'.
      assert (Hz : Qeq_bool Ds 0 = true).
      { apply Qeq_bool_iff. unfold Ds. rewrite (Hzero Ec' Ea'). reflexivity. }
      rewrite Hrr. unfold fdiv. cbn [div]. rewrite Hz. reflexivity.
  - intros net r' Hr. apply analyzeSymbolFloat_inv in Hr.
    destruct Hr as (ohlcv & Hl & _ & Hs). exists ohlcv. split; assumption.
  - intro upperBB. eexists. split; [reflexivity|].
    cbn [side entry sl tp rr].
    assert (E3 : fl ((3 # 2) * 2) == inject_Z 3)
      by (apply fl_whole; [reflexivity | discriminate]).
    assert (E6 : fl (3 * 2) == inject_Z 6)
      by (apply fl_whole; [reflexivity | discriminate]).
    assert (Esl : fl (95 - fl ((3 # 2) * 2)) == inject_Z 92).
    { apply fl_whole; [rewrite E3; reflexivity | discriminate]. }
    assert (Etp : fl (95 + fl (3 * 2)) == inject_Z 101).
    { apply fl_whole; [rewrite E6; reflexivity | discriminate]. }
    split; [reflexivity|].
    split.
    { apply (@toFixedF_whole 8 95 95); [reflexivity | discriminate |].
      vm_compute. reflexivity. }
    split.
    { apply (@toFixedF_whole 8 _ 92); [exact Esl | discriminate |].
      vm_compute. reflexivity. }
    split.
    { apply (@toFixedF_whole 8 _ 101); [exact Etp | discriminate |].
      vm_compute. reflexivity. }
    assert (Ed1 : fl (fl (95 + fl (3 * 2)) - 95) == inject_Z 6).
    { apply fl_whole; [rewrite Etp; reflexivity | discriminate]. }
    assert (Ed2 : fl (95 - fl (95 - fl ((3 # 2) * 2))) == inject_Z 3).
    { apply fl_whole; [rewrite Esl; reflexivity | discriminate]. }
    cbn [snap_close snap_atr].
    unfold stopF, targetF. change ("LONG" =? "LONG") with true.
    cbv [ratioF fdiv fsub fadd fmul rnd sub add mul lift2 Math_abs].
    assert (Hnz : Qeq_bool (Qabs (fl (95 - fl (95 - fl ((3 # 2) * 2))))) 0 = false).
    { apply Qeq_bool_false. rewrite Ed2. discriminate. }
    cbn [div]. rewrite Hnz. cbn [rnd].
    apply (@toFixedF_whole 2 _ 2); [| discriminate | vm_compute; reflexivity].
    apply fl_whole; [| discriminate].
    rewrite Ed1, Ed2. reflexivity.
Qed.

End LevelsFloat.

(** *** The TP/SL scan *)

Lemma checkCandle_spec (side : string) (sl tp : num) (c : Candle) :
  (checkCandle side sl tp c = None <-> untouched side sl tp c)
  /\ (forall st, checkCandle side sl tp c = Some st <-> resolution side sl tp c st).
Proof.
  unfold checkCandle, untouched, resolution, tpTouched, slTouched, closeBeyondTp.
  destruct (String.eqb_spec side "LONG") as [-> | Hl].
  - destruct (high c >=? tp)%num eqn:E1, (low c <=? sl)%num eqn:E2,
             (close c >=? tp)%num eqn:E3; simpl; reflect_cmp le_spec le_false ge_spec;
      (split; [| intro st]); split; intro H;
      try discriminate; try (inversion H; subst st);
      intuition (try congruence; try discriminate).
  - destruct (String.eqb_spec side "SHORT") as [-> | Hs].
    + destruct (low c <=? tp)%num eqn:E1, (high c >=? sl)%num eqn:E2,
               (close c <=? tp)%num eqn:E3; simpl; reflect_cmp le_spec le_false ge_spec;
        (split; [| intro st]); split; intro H;
        try discriminate; try (inversion H; subst st);
        intuition (try congruence; try discriminate).
    + (split; [| intro st]); split; intro H;
        try discriminate; intuition congruence.
Qed.

Lemma scanFrom_none (side : string) (sl tp : num) (candles : list Candle) :
  Forall (untouched side sl tp) candles ->
  forall idx, scanFrom side sl tp idx candles = NoHit.
Proof.
  induction 1 as [| c rest Hc _ IH]; intro idx; simpl.
  - reflexivity.
  - apply (proj1 (checkCandle_spec side sl tp c)) in Hc. rewrite Hc. apply IH.
Qed.

Lemma scanFrom_first (side : string) (sl tp : num) (c : Candle) (post : list Candle)
    (st : string) (pre : list Candle) :
  Forall (untouched side sl tp) pre ->
  checkCandle side sl tp c = Some st ->
  forall idx,
    scanFrom side sl tp idx (pre ++ c :: post) = Hit st (idx + List.length pre) c.
Proof.
  intros Hpre Hc. induction Hpre as [| p pre' Hp _ IH]; intro idx; simpl.
  - rewrite Hc. f_equal. lia.
  - apply (proj1 (checkCandle_spec side sl tp p)) in Hp. rewrite Hp.
    rewrite IH. f_equal. lia.
Qed.

Lemma touched_resolves (side : string) (sl tp : num) (c : Candle) :
  tpTouched side tp c \/ slTouched side sl c ->
  exists st, checkCandle side sl tp c = Some st.
Proof.
  intro H. destruct (checkCandle side sl tp c) as [st|] eqn:E; [eauto|].
  apply (proj1 (checkCandle_spec side sl tp c)) in E. destruct E. tauto.
Qed.

Section Scan.
Context {rt : JsRuntime}.

(** [checkSignalHit] walks the candles in the order [loadCandles]
    returned them: it resolves at the first candle of that list that
    touches a bound, with the status the touch rules and the close
    tie-break give for that candle, and is unresolved when no candle
    touches a bound.  A LONG signal with stop 100 and target 110 and a
    candle with low 95, high 115 resolves TP when the candle closes at
    112 and SL when it closes at 98. *)
Lemma checkSignalHit_first_touch (net : Network) (symbol side : string)
    (entry sl tp : num) (lookbackMinutes : Z) (candles : list Candle) :
  loadCandles net symbol "1m" (Z.min (Z.max lookbackMinutes 10) 1440) = Ok candles ->
  let res := checkSignalHit net symbol side entry sl tp lookbackMinutes in
  (forall pre c post,
      candles = pre ++ c :: post ->
      Forall (untouched side sl tp) pre ->
      tpTouched side tp c \/ slTouched side sl c ->
      exists st, res = Hit st (List.length pre) c /\ resolution side sl tp c st)
  /\ (Forall (untouched side sl tp) candles -> res = NoHit)
  /\ (forall t o v,
        scanFrom "LONG" (Num 100) (Num 110) 0
          [mkCandle t o (Num 115) (Num 95) (Num 112) v]
          = Hit "TP" 0 (mkCandle t o (Num 115) (Num 95) (Num 112) v)
        /\ scanFrom "LONG" (Num 100) (Num 110) 0
             [mkCandle t o (Num 115) (Num 95) (Num 98) v]
             = Hit "SL" 0 (mkCandle t o (Num 115) (Num 95) (Num 98) v)).
Proof.
  intros Hl res. subst res. unfold checkSignalHit. rewrite Hl.
  split; [| split].
  - intros pre c post -> Hpre Hc.
    destruct (touched_resolves Hc) as [st Hst].
    exists st. split.
    + rewrite length_app. simpl.
      destruct (Nat.eqb_spec (List.length pre + S (List.length post)) 0); [lia|].
      exact (@scanFrom_first side sl tp c post st pre Hpre Hst 0%nat).
    + apply (proj2 (checkCandle_spec side sl tp c)). assumption.
  - intro Hu. destruct (List.length candles =? 0)%nat; [reflexivity|].
    apply scanFrom_none. assumption.
  - intros. split; reflexivity.
Qed.
End Scan.

(** *** Deduplication *)

Lemma windowMs_value : Index.windowMs = (Index.DEDUPE_WINDOW_MINUTES * 60 * 1000)%Z.
Proof. reflexivity. Qed.

Lemma withinWindow_spec (now : Z) (s : Index.Signal) :
  Index.withinWindow now s = true
  <-> exists createdMs, Index.createdAt s = Some createdMs
        /\ (now - createdMs <= Index.DEDUPE_WINDOW_MINUTES * 60 * 1000)%Z.
Proof.
  unfold Index.withinWindow. rewrite <- windowMs_value.
  destruct (Index.createdAt s) as [c|].
  - rewrite Z.leb_le. split.
    + intro H. exists c. auto.
    + intros (c' & E & H). inversion E. subst. assumption.
  - split; [discriminate | intros (c' & E & _); discriminate].
Qed.

Lemma isOpen_spec (s : Index.Signal) :
  (Index.status s =? "OPEN") || (Index.status s =? "PENDING") = true
  <-> Index.status s = "OPEN" \/ Index.status s = "PENDING".
Proof. rewrite orb_true_iff, !String.eqb_eq. reflexivity. Qed.

Lemma isDuplicateSignal_iff (now : Z) (activeSignals : list Index.Signal)
    (symbol side : string) :
  Index.isDuplicateSignal now activeSignals symbol side = true
  <-> duplicate now activeSignals symbol side.
Proof.
  unfold duplicate.
  induction activeSignals as [| s rest IH]; simpl.
  - split; [discriminate | intros (s & [] & _)].
  - destruct ((Index.symbol s =? symbol) && (Index.side s =? side)) eqn:Ek.
    + apply andb_true_iff in Ek. destruct Ek as [E1 E2].
      apply String.eqb_eq in E1, E2.
      destruct (Index.withinWindow now s
                && ((Index.status s =? "OPEN") || (Index.status s =? "PENDING")))
        eqn:Ew.
      * split; [intros _ | reflexivity].
        apply andb_true_iff in Ew. destruct Ew as [W O].
        apply withinWindow_spec in W. apply isOpen_spec in O.
        exists s. auto 6.
      * rewrite IH. split.
        -- intros (x & Hin & H). exists x. auto.
        -- intros (x & [-> | Hin] & H3 & H4 & H5 & H6).
           ++ apply isOpen_spec in H5. apply withinWindow_spec in H6.
              rewrite H5, H6 in Ew. discriminate.
           ++ exists x. auto 6.
    + rewrite IH. split.
      * intros (x & Hin & H). exists x. auto.
      * intros (x & [-> | Hin] & H3 & H4 & H).
        -- apply String.eqb_eq in H3, H4. rewrite H3, H4 in Ek. discriminate.
        -- exists x. auto.
Qed.

(** C9.  [isDuplicateSignal] answers true exactly when some active signal
    has the same symbol and side, status OPEN or PENDING, and an age of at
    most the window; after one signal has been registered, an identical
    candidate is a duplicate one minute before the window has elapsed and
    is not one a minute after it has. *)
Theorem isDuplicateSignal_spec :
  (forall (now : Z) (activeSignals : list Index.Signal) (symbol side : string),
      Index.isDuplicateSignal now activeSignals symbol side = true
      <-> duplicate now activeSignals symbol side)
  /\ (forall (t0 rnd : Z) (o : Index.SigObj),
        let signals := snd (Index.registerSignal t0 rnd o []) in
        Index.isDuplicateSignal (t0 + minutes (Index.DEDUPE_WINDOW_MINUTES - 1))
          signals (Index.o_symbol o) (Index.o_side o) = true
        /\ Index.isDuplicateSignal (t0 + minutes (Index.DEDUPE_WINDOW_MINUTES + 1))
             signals (Index.o_symbol o) (Index.o_side o) = false).
Proof.
  split; [exact isDuplicateSignal_iff|].
  intros t0 rnd o signals. split.
  - apply isDuplicateSignal_iff. eexists. split; [left; reflexivity|].
    cbn. repeat split; auto. exists t0. split; [reflexivity|].
    unfold minutes, Index.DEDUPE_WINDOW_MINUTES. lia.
  - destruct (Index.isDuplicateSignal _ _ _ _) eqn:E; [|reflexivity].
    apply isDuplicateSignal_iff in E.
    destruct E as (s & [<- | []] & _ & _ & _ & c & Ec & Hc).
    cbn in Ec. inversion Ec. subst c.
    unfold minutes, Index.DEDUPE_WINDOW_MINUTES in Hc. lia.
Qed.

(** *** The monitor tick *)

Section Tick.
Context {rt : JsRuntime}.

Lemma failed_fetch_no_hit (net : Network) (symbol side : string) (entry sl tp : num)
    (message : string) :
  loadCandles net symbol "1m" 120 = Thrown message ->
  checkSignalHit net symbol side entry sl tp 120 = NoHit.
Proof.
  intro H. unfold checkSignalHit.
  change (Z.min (Z.max 120 10) 1440) with 120%Z. rewrite H. reflexivity.
Qed.

(** C4 (amended).  A tick of an OPEN signal whose candle fetch fails is
    counted like any unresolved check: [monitorChecks] grows by one and
    a null entry is appended to the history; the signal is never
    resolved to TP or SL by it; below the ceiling the signal stays OPEN
    with its timer running and nothing is sent, so the next tick runs
    as usual; when the count reaches the ceiling the signal becomes
    EXPIRED and its timer is cleared. *)
Theorem monitorTick_failed_fetch (net : Network) (now : Z) (signal : Index.Signal)
    (message : string) :
  Index.status signal = "OPEN" ->
  loadCandles net (Index.symbol signal) "1m" 120 = Thrown message ->
  let signal' := fst (Index.monitorTick net now signal) in
  let events := snd (Index.monitorTick net now signal) in
  Index.monitorChecks signal' = (Index.monitorChecks signal + 1)%Z
  /\ Index.monitorHistory signal' = Index.monitorHistory signal ++ [(now, None)]
  /\ Index.status signal' <> "TP" /\ Index.status signal' <> "SL"
  /\ ((Index.monitorChecks signal + 1 < Index.maxChecks)%Z ->
      Index.status signal' = "OPEN"
      /\ Index.resolvedAt signal' = Index.resolvedAt signal
      /\ Index.monitorInterval signal' = Index.monitorInterval signal
      /\ events = [])
  /\ ((Index.monitorChecks signal + 1 >= Index.maxChecks)%Z ->
      Index.status signal' = "EXPIRED"
      /\ Index.resolvedAt signal' = Some now
      /\ Index.monitorInterval signal' = false
      /\ events = [Index.Persist;
                   Index.Broadcast
                     (Index.ExpiredMsg (Index.symbol signal) (Index.side signal));
                   Index.Persist]).
Proof.
  intros Ho Hf. unfold Index.monitorTick.
  rewrite Ho. simpl negb. cbv iota.
  erewrite failed_fetch_no_hit by eassumption.
  cbn [hitStatus]. cbv zeta.
  cbn [Index.monitorChecks Index.setMonitor].
  assert (Hm : Index.maxChecks = 48%Z) by reflexivity.
  destruct (Z.geb_spec (Index.monitorChecks signal + 1) Index.maxChecks) as [Hge | Hlt];
    rewrite Hm in *; cbn; rewrite ?Ho;
    repeat split; try discriminate; try reflexivity;
    intros; try lia; repeat split; try reflexivity.
Qed.

End Tick.

(** *** Velocity and acceleration *)

Lemma orElse_zero_proper (v : num) : exists q, orElse v n0 = Num q.
Proof.
  destruct v as [| q]; unfold orElse; simpl.
  - exists 0. reflexivity.
  - destruct (negb (Qeq_bool q 0)); eauto. exists 0. reflexivity.
Qed.

Lemma ofNat_nonzero (n : nat) : n <> 0%nat -> Qeq_bool (inject_Z (Z.of_nat n)) 0 = false.
Proof.
  intro H. apply Qeq_bool_false. intro E.
  unfold Qeq in E. simpl in E. lia.
Qed.

Lemma smaLoop_length (values : list num) (period : nat) (todo : list num) :
  forall i sum, List.length (smaLoop values period i sum todo) = List.length todo.
Proof.
  induction todo as [| v rest IH]; intros i sum; simpl; [reflexivity|].
  rewrite IH. reflexivity.
Qed.

Lemma smaLoop_defined (values : list num) (period : nat) (todo : list num) :
  period <> 0%nat ->
  forall i sum k,
    (exists q, sum = Num q) ->
    (defined (nth k (smaLoop values period i sum todo) NaN)
     <-> (k < List.length todo /\ period - 1 <= i + k)%nat).
Proof.
  intro Hp. induction todo as [| v rest IH]; intros i sum k [q ->].
  - simpl. destruct k; unfold defined; simpl; split; try discriminate; lia.
  - cbn [smaLoop].
    destruct (orElse_zero_proper v) as [x ->].
    destruct (orElse_zero_proper (nth (i - period) values NaN)) as [y ->].
    set (sum2 := if (period <=? i)%nat then (Num q + Num x - Num y)%num
                 else (Num q + Num x)%num).
    assert (Hs : exists q', sum2 = Num q').
    { subst sum2. destruct (period <=? i)%nat; simpl; eauto. }
    destruct k as [| k].
    + cbn [nth List.length]. destruct Hs as [q' ->].
      destruct (Nat.leb_spec (period - 1) i).
      * unfold div, ofNat. rewrite (ofNat_nonzero Hp).
        unfold defined. simpl. split; [intros _; lia | reflexivity].
      * unfold defined. simpl. split; [discriminate | lia].
    + cbn [nth List.length]. rewrite (IH (S i) sum2 k Hs). lia.
Qed.

Lemma sma_defined (values : list num) (period i : nat) :
  period <> 0%nat ->
  (defined (nth i (sma values period) NaN)
   <-> (period - 1 <= i < List.length values)%nat).
Proof.
  intro Hp. unfold sma.
  rewrite (smaLoop_defined values values Hp 0 i (ex_intro _ 0 eq_refl)).
  simpl. lia.
Qed.

Lemma deltasFrom_length (rest : list num) :
  forall prev, List.length (deltasFrom prev rest) = List.length rest.
Proof.
  induction rest as [| c rest IH]; intro prev; simpl; [reflexivity|].
  rewrite IH. reflexivity.
Qed.

Lemma priceChange_length (closes : list num) :
  List.length (priceChange closes) = List.length closes.
Proof.
  destruct closes; simpl; [reflexivity|]. rewrite deltasFrom_length. reflexivity.
Qed.

Lemma velocity_length (closes : list num) :
  List.length (velocity closes) = List.length closes.
Proof.
  unfold velocity, sma. rewrite smaLoop_length. apply priceChange_length.
Qed.

Lemma acceleration_nth (vArr : list num) (i : nat) :
  nth i (acceleration vArr) NaN
  = if (i <? List.length vArr)%nat then accelAt vArr i else NaN.
Proof.
  unfold acceleration.
  destruct (Nat.ltb_spec i (List.length vArr)) as [H | H].
  - rewrite nth_indep with (d' := accelAt vArr 0)
      by (rewrite length_map, length_seq; assumption).
    rewrite map_nth, seq_nth by assumption. reflexivity.
  - apply nth_overflow. rewrite length_map, length_seq. assumption.
Qed.

Lemma accelAt_defined (vArr : list num) (i : nat) :
  defined (accelAt vArr i)
  <-> (1 <= i)%nat /\ defined (nth i vArr NaN) /\ defined (nth (i - 1) vArr NaN).
Proof.
  unfold accelAt, defined.
  destruct (Nat.leb_spec 1 i); simpl.
  - destruct (nth i vArr NaN), (nth (i - 1) vArr NaN); simpl;
      intuition (try discriminate; try lia).
  - split; [discriminate | lia].
Qed.

(** C5 (amended).  The velocity at index i is defined exactly from index
    window - 1 on (index 2 for the window of 3): the first price change
    is taken to be 0 and enters the first average.  The acceleration at
    index i is defined exactly when i >= 1 and the velocities at i and
    i - 1 are both defined, that is from index window on; every other
    index holds NaN.  Both arrays have the length of the input. *)
Theorem velocity_acceleration_defined (closes : list num) (i : nat) :
  let vArr := velocity closes in
  let aArr := acceleration vArr in
  (defined (nth i vArr NaN) <-> (V_SMA - 1 <= i < List.length closes)%nat)
  /\ (defined (nth i aArr NaN)
      <-> (1 <= i)%nat /\ defined (nth i vArr NaN) /\ defined (nth (i - 1) vArr NaN))
  /\ (defined (nth i aArr NaN) <-> (V_SMA <= i < List.length closes)%nat)
  /\ List.length vArr = List.length closes
  /\ List.length aArr = List.length closes.
Proof.
  intros vArr aArr.
  assert (Hv : forall k, defined (nth k vArr NaN)
                         <-> (V_SMA - 1 <= k < List.length closes)%nat).
  { intro k. subst vArr. unfold velocity.
    rewrite sma_defined by (unfold V_SMA; lia).
    rewrite priceChange_length. reflexivity. }
  assert (Hlen : List.length vArr = List.length closes) by apply velocity_length.
  assert (Ha : defined (nth i aArr NaN)
               <-> (1 <= i)%nat /\ defined (nth i vArr NaN)
                   /\ defined (nth (i - 1) vArr NaN)).
  { subst aArr. rewrite acceleration_nth.
    destruct (Nat.ltb_spec i (List.length vArr)) as [H | H].
    - apply accelAt_defined.
    - split; [discriminate|]. intros (_ & H1 & _). apply Hv in H1. lia. }
  split; [apply Hv|]. split; [exact Ha|]. split.
  - rewrite Ha, !Hv. unfold V_SMA. lia.
  - split; [exact Hlen|].
    subst aArr. unfold acceleration. rewrite length_map, length_seq. exact Hlen.
Qed.

(** *** RSI *)

Lemma nonneg_add (a b : num) : nonneg a -> nonneg b -> nonneg (a + b)%num.
Proof. destruct a, b; simpl; auto. intros. lra. Qed.

Lemma nonneg_abs (a : num) : nonneg (Math_abs a).
Proof. destruct a; simpl; auto. apply Qabs_nonneg. Qed.

Lemma nonneg_div_nat (a : num) (n : nat) : nonneg a -> nonneg (a / ofNat n)%num.
Proof.
  destruct a as [| x]; simpl; auto. intro Hx.
  destruct (Qeq_bool (inject_Z (Z.of_nat n)) 0) eqn:E; simpl; auto.
  apply Qeq_bool_false in E.
  assert (Hn : 0 < inject_Z (Z.of_nat n)).
  { assert (0 <= inject_Z (Z.of_nat n)).
    { change 0 with (inject_Z 0). rewrite <- Zle_Qle. lia. }
    lra. }
  apply Qle_shift_div_l; [assumption | lra].
Qed.

Lemma nonneg_smoothStep (length : nat) (avg x : num) :
  nonneg avg -> nonneg x -> nonneg (smoothStep length avg x).
Proof.
  intros Ha Hx. unfold smoothStep.
  destruct length as [| n].
  - destruct avg, x; simpl; auto.
  - apply nonneg_div_nat. apply nonneg_add; [|assumption].
    destruct avg as [| a]; [exact I|].
    unfold ofNat, mul, sub, lift2, nonneg in *.
    apply Qmult_le_0_compat; [assumption|].
    assert (1 <= inject_Z (Z.of_nat (S n))).
    { change 1 with (inject_Z 1). rewrite <- Zle_Qle. lia. }
    lra.
Qed.

Lemma gain_nonneg (d : num) : nonneg (if (d >? n0)%num then d else n0).
Proof.
  destruct (d >? n0)%num eqn:E.
  - apply gt_spec in E. destruct d; unfold ltP, n0, nonneg in *; [contradiction | lra].
  - unfold n0, nonneg. lra.
Qed.

Lemma loss_nonneg (d : num) : nonneg (if (d <? n0)%num then Math_abs d else n0).
Proof.
  destruct (d <? n0)%num; [apply nonneg_abs | unfold n0, nonneg; lra].
Qed.

Lemma seedSums_nonneg (ds : list num) :
  forall gl, nonnegPair gl -> nonnegPair (fold_left seedStep ds gl).
Proof.
  induction ds as [| d ds IH]; intros [g l] [Hg Hl]; cbn [fold_left];
    [split; assumption|].
  cbn [fst snd] in Hg, Hl.
  apply IH. unfold seedStep.
  destruct (d >? n0)%num eqn:E; split; cbn [fst snd]; auto.
  - apply nonneg_add; [assumption|].
    apply gt_spec in E. destruct d; unfold ltP, n0, nonneg in *; [contradiction | lra].
  - apply nonneg_add; [assumption | apply nonneg_abs].
Qed.

Lemma rsiSmooth_nonneg (length : nat) (ds : list num) :
  forall g l, nonneg g -> nonneg l -> Forall nonnegPair (rsiSmooth length g l ds).
Proof.
  induction ds as [| d ds IH]; intros g l Hg Hl; cbn [rsiSmooth]; constructor.
  - split; cbn [fst snd]; apply nonneg_smoothStep;
      auto using gain_nonneg, loss_nonneg.
  - apply IH; apply nonneg_smoothStep; auto using gain_nonneg, loss_nonneg.
Qed.

Lemma rsiAverages_nonneg (closes : list num) (length : nat) :
  Forall nonnegPair (rsiAverages closes length).
Proof.
  unfold rsiAverages.
  pose proof (@seedSums_nonneg (firstn length (deltasOf closes)) (n0, n0)) as H.
  unfold seedSums. destruct (fold_left _ _ _) as [g l].
  destruct H as [Hg Hl]; [split; simpl; lra|]. simpl in Hg, Hl.
  constructor.
  - split; simpl; apply nonneg_div_nat; assumption.
  - apply rsiSmooth_nonneg; apply nonneg_div_nat; assumption.
Qed.

Lemma rsiValue_saturated (avgGain avgLoss : num) :
  (avgLoss === n0)%num = true -> rsiValue avgGain avgLoss = Num (100 - 100 / (1 + 100)).
Proof. intro H. unfold rsiValue. rewrite H. reflexivity. Qed.

Lemma rsiValue_range (avgGain avgLoss : num) (q : Q) :
  nonneg avgGain -> nonneg avgLoss ->
  rsiValue avgGain avgLoss = Num q -> 0 <= q <= 100.
Proof.
  intros Hg Hl.
  destruct (avgLoss === n0)%num eqn:E.
  - rewrite (@rsiValue_saturated avgGain avgLoss E). intro H. inversion H.
    split; [vm_compute; discriminate | vm_compute; discriminate].
  - unfold rsiValue. rewrite E.
    destruct avgGain as [| x], avgLoss as [| y]; simpl; try discriminate.
    simpl in E, Hg, Hl. rewrite E.
    apply Qeq_bool_false in E.
    assert (Hy : 0 < y) by lra.
    assert (Hr : 0 <= x / y) by (apply Qle_shift_div_l; [assumption | lra]).
    destruct (Qeq_bool (1 + x / y) 0) eqn:E2; [discriminate|].
    intro H. inversion H.
    set (u := 1 + x / y) in *.
    assert (Hu : 1 <= u) by (subst u; lra).
    assert (Hlo : 0 <= 100 / u) by (apply Qle_shift_div_l; lra).
    assert (Hhi : 100 / u <= 100) by (apply Qle_shift_div_r; lra).
    lra.
Qed.

Lemma nth_padded (A B : Type) (f : A -> B) (d : B) (n : nat) (l : list A) (i : nat) (y : B) :
  nth i (repeat d n ++ map f l) d = y -> y <> d ->
  exists k x, i = (n + k)%nat /\ nth_error l k = Some x /\ f x = y.
Proof.
  intros H Hy.
  destruct (Nat.lt_ge_cases i n) as [Hi | Hi].
  - rewrite app_nth1 in H by (rewrite repeat_length; assumption).
    rewrite nth_repeat in H. congruence.
  - rewrite app_nth2 in H by (rewrite repeat_length; assumption).
    rewrite repeat_length in H.
    destruct (nth_error l (i - n)) as [x|] eqn:E.
    + exists (i - n)%nat, x. split; [lia|]. split; [assumption|].
      rewrite <- H. symmetry. apply nth_error_nth.
      rewrite nth_error_map, E. reflexivity.
    + apply nth_error_None in E.
      rewrite nth_overflow in H by (rewrite length_map; assumption). congruence.
Qed.

Lemma nth_padded_at (A B : Type) (f : A -> B) (d : B) (n : nat) (l : list A)
    (k : nat) (x : A) :
  nth_error l k = Some x -> nth (n + k) (repeat d n ++ map f l) d = f x.
Proof.
  intro H. rewrite app_nth2 by (rewrite repeat_length; lia).
  rewrite repeat_length. replace (n + k - n)%nat with k by lia.
  apply nth_error_nth. rewrite nth_error_map, H. reflexivity.
Qed.

(** C6 (amended).  Every defined RSI value lies in [0, 100].  When the
    smoothed average loss behind an index is zero, RS is set to 100 and
    the RSI at that index is 100 - 100/101 = 10000/101, about 99.01. *)
Theorem rsiFromCloses_range (closes : list num) (length : nat) :
  (forall i q, nth i (rsiFromCloses closes length) NaN = Num q -> 0 <= q <= 100)
  /\ (forall k avgGain avgLoss,
        (length + 1 <= List.length closes)%nat ->
        nth_error (rsiAverages closes length) k = Some (avgGain, avgLoss) ->
        avgLoss =n= n0 ->
        nth (length + k) (rsiFromCloses closes length) NaN =n= Num (10000 # 101)).
Proof.
  unfold rsiFromCloses. split.
  - intros i q H.
    destruct (List.length closes <? length + 1)%nat.
    + rewrite nth_repeat in H. discriminate.
    + apply nth_padded in H; [| discriminate].
      destruct H as (k & [g l] & _ & Hk & Hv). simpl in Hv.
      pose proof (rsiAverages_nonneg closes length) as Hall.
      rewrite Forall_forall in Hall.
      destruct (Hall (g, l) (nth_error_In _ _ Hk)) as [Hg Hl].
      cbn [fst snd] in Hg, Hl. exact (@rsiValue_range g l q Hg Hl Hv).
  - intros k g l Hlen Hk Hz.
    destruct (Nat.ltb_spec (List.length closes) (length + 1)); [lia|].
    erewrite nth_padded_at by eassumption.
    simpl fst; simpl snd.
    rewrite rsiValue_saturated.
    + vm_compute. reflexivity.
    + destruct l; simpl in Hz; [contradiction|].
      simpl. apply Qeq_bool_iff. assumption.
Qed.

(** *** The candle loader *)

Section SortFacts.
Variable A : Type.
Variable compare : A -> A -> num.

Lemma insertSorted_perm (x : A) (l : list A) :
  Permutation (x :: l) (insertSorted compare x l).
Proof.
  induction l as [| y rest IH]; cbn [insertSorted]; [reflexivity|].
  destruct (compare x y >? Num 0)%num; [| reflexivity].
  rewrite perm_swap. constructor. exact IH.
Qed.

Lemma sort_perm (l : list A) : Permutation l (sort compare l).
Proof.
  induction l as [| x rest IH]; cbn [sort fold_right]; [constructor|].
  rewrite <- insertSorted_perm. constructor. exact IH.
Qed.

Lemma sort_length (l : list A) : List.length (sort compare l) = List.length l.
Proof. symmetry. apply Permutation_length. apply sort_perm. Qed.
End SortFacts.

Lemma byTime_order (a b : Candle) :
  defined (t a) -> defined (t b) ->
  if (byTime a b >? Num 0)%num then timeLe b a else timeLe a b.
Proof.
  unfold byTime, timeLe, defined.
  destruct (t a) as [| x], (t b) as [| y]; simpl; try discriminate. intros _ _.
  destruct (Qlt_bool 0 (x - y)) eqn:E.
  - apply Qlt_bool_iff in E. lra.
  - destruct (Qlt_le_dec 0 (x - y)) as [H | H]; [| lra].
    apply Qlt_bool_iff in H. congruence.
Qed.

Lemma insertSorted_hd (x y : Candle) (l : list Candle) :
  timeLe y x -> HdRel timeLe y l -> HdRel timeLe y (insertSorted byTime x l).
Proof.
  intros Hyx Hl. destruct l as [| z rest]; cbn [insertSorted];
    [constructor; assumption|].
  destruct (byTime x z >? Num 0)%num; constructor; [| assumption].
  inversion Hl. assumption.
Qed.

Lemma insertSorted_sorted (x : Candle) (l : list Candle) :
  defined (t x) -> Forall (fun c => defined (t c)) l ->
  Sorted timeLe l -> Sorted timeLe (insertSorted byTime x l).
Proof.
  intros Hx Hall Hs. induction Hs as [| y rest Hrest IH Hhd]; cbn [insertSorted].
  - repeat constructor.
  - inversion Hall as [| ? ? Hy Hall']; subst.
    pose proof (byTime_order x y Hx Hy) as Ho.
    destruct (byTime x y >? Num 0)%num.
    + constructor; [apply IH; assumption | apply insertSorted_hd; assumption].
    + constructor; [constructor; assumption | constructor; assumption].
Qed.

Lemma sort_sorted (l : list Candle) :
  Forall (fun c => defined (t c)) l -> Sorted timeLe (sort byTime l).
Proof.
  induction 1 as [| x rest Hx Hrest IH]; cbn [sort fold_right]; [constructor|].
  apply insertSorted_sorted; [assumption | | assumption].
  rewrite Forall_forall in *. intros c Hc. apply Hrest.
  apply Permutation_in with (l := sort byTime rest);
    [apply Permutation_sym, sort_perm | assumption].
Qed.

Lemma mapM_length (A B : Type) (f : A -> option B) (l : list A) :
  forall l', mapM f l = Some l' -> List.length l' = List.length l.
Proof.
  induction l as [| x rest IH]; simpl; intros l' H.
  - inversion H. reflexivity.
  - destruct (f x); [| discriminate].
    destruct (mapM f rest) as [ys|]; [| discriminate].
    inversion H. simpl. rewrite (IH ys eq_refl). reflexivity.
Qed.

Section LoaderFacts.
Context {rt : JsRuntime}.

Lemma normalize_bybit (source : DataSource) (raw : value) (candles : list Candle) :
  includes (name source) "Bybit" = true ->
  normalize source raw = Some candles ->
  exists items mapped,
    bybitList raw = VArray items
    /\ mapM bybitItem items = Some mapped
    /\ candles = sort byTime mapped.
Proof.
  intros Hb. unfold normalize. rewrite Hb.
  destruct (negb (truthy (bybitList raw))); [discriminate|].
  destruct (bybitList raw) as [| | | | | items |]; try discriminate.
  destruct (mapM bybitItem items) as [mapped|] eqn:Em; [| discriminate].
  intro H. inversion H. exists items, mapped. auto.
Qed.

Lemma normalize_binance (source : DataSource) (raw : value) (candles : list Candle) :
  includes (name source) "Bybit" = false ->
  normalize source raw = Some candles ->
  exists items, raw = VArray items /\ mapM binanceItem items = Some candles.
Proof.
  intros Hb. unfold normalize. rewrite Hb.
  destruct raw as [| | | | | items |]; try discriminate. eauto.
Qed.

Lemma trySource_inv (net : Network) (symbol interval : string) (limit : Z)
    (source : DataSource) (candles : list Candle) :
  trySource net symbol interval limit source = Some candles ->
  candles <> []
  /\ exists raw,
       net (name source) symbol interval limit = HttpOk 200 raw
       /\ normalize source raw = Some candles.
Proof.
  unfold trySource.
  destruct (net (name source) symbol interval limit) as [| status raw];
    [discriminate|].
  destruct (Z.eqb_spec status 200) as [-> | ]; [| discriminate].
  simpl. destruct (negb (truthy raw)); [discriminate|].
  destruct (normalize source raw) as [cs|] eqn:En; [| discriminate].
  destruct cs as [| c cs]; [discriminate|].
  simpl. intro H. inversion H. subst. split; [discriminate|].
  exists raw. split; [reflexivity | assumption].
Qed.

Lemma trySources_inv (net : Network) (symbol interval : string) (limit : Z)
    (sources : list DataSource) (candles : list Candle) :
  trySources net symbol interval limit sources = Ok candles ->
  exists source,
    In source sources
    /\ trySource net symbol interval limit source = Some candles.
Proof.
  induction sources as [| s rest IH]; simpl; [discriminate|].
  destruct (trySource net symbol interval limit s) as [cs|] eqn:E.
  - intro H. inversion H. subst. eauto.
  - intro H. destruct (IH H) as (src & Hin & Hs). eauto.
Qed.

(** C8 (amended).  The sequence returned by [loadCandles] is not empty
    and holds the normalised records of the body of one provider that
    answered with status 200, as many candles as the body has records:
    the loader passes [limit] to the provider and does not cut the
    answer itself.  From a Bybit body, array-encoded or object-encoded,
    the candles are sorted ascending by open time, provided every open
    time parsed to a number. *)
Theorem loadCandles_shape (net : Network) (symbol interval : string) (limit : Z)
    (candles : list Candle) :
  loadCandles net symbol interval limit = Ok candles ->
  candles <> []
  /\ exists source raw items mapped,
       In source DATA_SOURCES
       /\ net (name source) symbol interval limit = HttpOk 200 raw
       /\ Permutation mapped candles
       /\ List.length candles = List.length items
       /\ ((includes (name source) "Bybit" = true
            /\ bybitList raw = VArray items
            /\ mapM bybitItem items = Some mapped
            /\ (Forall (fun c => defined (t c)) candles -> Sorted timeLe candles))
           \/ (includes (name source) "Bybit" = false
               /\ raw = VArray items
               /\ mapM binanceItem items = Some mapped)).
Proof.
  unfold loadCandles. intro H.
  apply trySources_inv in H. destruct H as (source & Hin & H).
  apply trySource_inv in H. destruct H as (Hne & raw & Hnet & Hn).
  split; [assumption|].
  destruct (includes (name source) "Bybit") eqn:Hb.
  - destruct (normalize_bybit _ _ Hb Hn) as (items & mapped & Hl & Hm & ->).
    exists source, raw, items, mapped.
    split; [exact Hin|]. split; [exact Hnet|].
    split; [apply sort_perm|].
    split; [rewrite sort_length; apply (mapM_length _ _ Hm)|].
    left. split; [exact Hb|]. split; [exact Hl|]. split; [exact Hm|].
    intro Hd. apply sort_sorted.
    rewrite Forall_forall in *. intros c Hc. apply Hd.
    apply Permutation_in with (l := mapped); [apply sort_perm | assumption].
  - destruct (normalize_binance _ _ Hb Hn) as (items & -> & Hm).
    exists source, (VArray items), items, candles.
    split; [exact Hin|]. split; [exact Hnet|].
    split; [apply Permutation_refl|].
    split; [apply (mapM_length _ _ Hm)|].
    right. split; [exact Hb|]. split; [reflexivity | exact Hm].
Qed.

End LoaderFacts.

(** *** The properties on concrete inputs *)

Import Examples.

Lemma slide_loaded :
  loadCandles (rt := refRuntime) slideNetwork "DOGEUSDT" "5m" 200 = Ok slide.
Proof. vm_compute. reflexivity. Defined.

Lemma slide_analysis :
  analyzeSymbol (rt := refRuntime) slideNetwork "DOGEUSDT" = Some slideSignal.
Proof. vm_compute. reflexivity. Defined.

Lemma slide_ready : ready (latestSnapshot (rt := refRuntime) slide).
Proof. vm_compute. repeat split. Defined.

Lemma analyzeSymbol_entry_rule_witness :
  loadCandles (rt := refRuntime) slideNetwork "DOGEUSDT" "5m" 200 = Ok slide
  /\ (30 <= List.length slide)%nat
  /\ ready (latestSnapshot (rt := refRuntime) slide)
  /\ (option_map side (analyzeSymbol (rt := refRuntime) slideNetwork "DOGEUSDT")
        = Some "LONG"
      <-> longRule (latestSnapshot (rt := refRuntime) slide)).
Proof.
  assert (Hn : (30 <= List.length slide)%nat) by (vm_compute; lia).
  split; [exact slide_loaded|]. split; [exact Hn|]. split; [exact slide_ready|].
  exact (proj1 (analyzeSymbol_entry_rule (rt := refRuntime) slideNetwork "DOGEUSDT"
                  slide_loaded Hn slide_ready)).
Defined.

Lemma slide_rounded :
  Float.signalFloat Float.round53 "DOGEUSDT" (latestSnapshot (rt := refRuntime) slide)
  = Some Rounded.slideRounded.
Proof. vm_compute. reflexivity. Qed.

Lemma analyzeSymbol_levels_witness :
  Float.Rounding Float.round53 Float.unit53
  /\ Float.analyzeSymbolFloat (rt := refRuntime) Float.round53 slideNetwork "DOGEUSDT"
     = Some Rounded.slideRounded
  /\ exists c a sl' tp',
       snap_close (latestSnapshot (rt := refRuntime) slide) = Num c
       /\ snap_atr (latestSnapshot (rt := refRuntime) slide) = Num a
       /\ sl Rounded.slideRounded = Float.toFixedF Float.round53 8 (Num sl')
       /\ tp Rounded.slideRounded = Float.toFixedF Float.round53 8 (Num tp')
       /\ Qabs (sl' - (c - (3 # 2) * a)) <= Float.tolerance Float.unit53 c a
       /\ Qabs (tp' - (c + 3 * a)) <= Float.tolerance Float.unit53 c a.
Proof.
  split; [exact FloatFacts.round53_rounding|]. split; [vm_compute; reflexivity|].
  destruct (proj1 (@analyzeSymbol_levels Float.round53 Float.unit53 refRuntime
                     FloatFacts.round53_rounding "DOGEUSDT"
                     (latestSnapshot (rt := refRuntime) slide)
                     Rounded.slideRounded slide_rounded))
    as (c & a & sl' & tp' & Hc & Ha & _ & Hsl & Htp & Hlv & _).
  exists c, a, sl', tp'.
  split; [exact Hc|]. split; [exact Ha|]. split; [exact Hsl|]. split; [exact Htp|].
  destruct Hlv as [(_ & _ & _ & H1 & H2) | (E & _)];
    [split; assumption | discriminate E].
Defined.

(** C2, as stated, fails.  On the slide the returned stop and target are
    not the entry minus 1.5 ATR and plus 3 ATR, neither for the ATR at
    the latest index nor for the rounded ATR the result reports.  And
    for a close of 999999999999979 with an ATR of 1.21875 the binary64
    levels are 1.875 below and 3.625 above the close, so the ratio is
    1.93, not 2. *)
Lemma analyzeSymbol_levels_counterexample :
  analyzeSymbol (rt := refRuntime) slideNetwork "DOGEUSDT" = Some slideSignal
  /\ side slideSignal = "LONG"
  /\ ~ (sl slideSignal
        =n= (entry slideSignal
             - Num (3 # 2) * snap_atr (latestSnapshot (rt := refRuntime) slide))%num)
  /\ ~ (tp slideSignal
        =n= (entry slideSignal
             + Num 3 * snap_atr (latestSnapshot (rt := refRuntime) slide))%num)
  /\ ~ (sl slideSignal
        =n= (entry slideSignal - Num (3 # 2) * meta_atr (meta slideSignal))%num)
  /\ ~ (tp slideSignal
        =n= (entry slideSignal + Num 3 * meta_atr (meta slideSignal))%num)
  /\ Float.signalFloat Float.round53 "BTCUSDT" Rounded.steepSnapshot
     = Some Rounded.steepSignal
  /\ (entry Rounded.steepSignal - sl Rounded.steepSignal)%num =n= Num (15 # 8)
  /\ (tp Rounded.steepSignal - entry Rounded.steepSignal)%num =n= Num (29 # 8)
  /\ rr Rounded.steepSignal = Num (Float.round53 (193 # 100))
  /\ ltP (rr Rounded.steepSignal) (Num (194 # 100)).
Proof.
  split; [exact slide_analysis|]. split; [reflexivity|].
  split; [vm_compute; intro H; discriminate H|].
  split; [vm_compute; intro H; discriminate H|].
  split; [vm_compute; intro H; discriminate H|].
  split; [vm_compute; intro H; discriminate H|].
  split; [vm_compute; reflexivity|].
  split; [vm_compute; reflexivity|].
  split; [vm_compute; reflexivity|].
  split; vm_compute; reflexivity.
Qed.



Lemma analyzeSymbol_confidence_range_witness :
  analyzeSymbol (rt := refRuntime) slideNetwork "DOGEUSDT" = Some slideSignal
  /\ (exists n : Z, confidence slideSignal = Num (inject_Z n) /\ (60 <= n <= 95)%Z)
  /\ Index.accepted (analyzeSymbol (rt := refRuntime) slideNetwork "DOGEUSDT") = true.
Proof.
  split; [exact slide_analysis|].
  exact (analyzeSymbol_confidence_range (rt := refRuntime) slideNetwork "DOGEUSDT"
           slide_analysis).
Defined.

Lemma shuffled_loaded (limit : Z) :
  loadCandles (rt := refRuntime) shuffledNetwork "BTCUSDT" "1m" limit
    = Ok shuffledCandles.
Proof. vm_compute. reflexivity. Defined.

(** C3 fails on a Binance body that is not in time order: the loader
    returns it as it came, and [checkSignalHit] resolves at the first
    candle of the list, here the newest one, which reaches the target,
    although the oldest candle touches the stop; on the same candles in
    ascending time order the scan resolves SL at the oldest. *)
Theorem checkSignalHit_unsorted_body :
  loadCandles (rt := refRuntime) shuffledNetwork "BTCUSDT" "1m" 120 = Ok shuffledCandles
  /\ checkSignalHit (rt := refRuntime) shuffledNetwork "BTCUSDT" "LONG"
       (Num 100) (Num (399 # 4)) (Num (509 # 5)) 120
     = Hit "TP" 0 Samples.firstShuffled
  /\ In Samples.oldestShuffled shuffledCandles
  /\ ltP (t Samples.oldestShuffled) (t Samples.firstShuffled)
  /\ checkCandle "LONG" (Num (399 # 4)) (Num (509 # 5)) Samples.oldestShuffled
     = Some "SL"
  /\ scanFrom "LONG" (Num (399 # 4)) (Num (509 # 5)) 0 (sort byTime shuffledCandles)
     = Hit "SL" 0 Samples.oldestShuffled.
Proof.
  split; [exact (shuffled_loaded _)|].
  split; [vm_compute; reflexivity|].
  split; [right; left; reflexivity|].
  split; [vm_compute; reflexivity|].
  split; vm_compute; reflexivity.
Qed.

Lemma dead_fetch (symbol interval : string) (limit : Z) :
  loadCandles (rt := refRuntime) deadNetwork symbol interval limit
    = Thrown "All data sources failed".
Proof. reflexivity. Defined.

Lemma monitorTick_failed_fetch_witness :
  Index.status (openSignal 0) = "OPEN"
  /\ loadCandles (rt := refRuntime) deadNetwork (Index.symbol (openSignal 0)) "1m" 120
       = Thrown "All data sources failed"
  /\ Index.monitorChecks
       (fst (Index.monitorTick (rt := refRuntime) deadNetwork 1700000060000
               (openSignal 0)))
     = (Index.monitorChecks (openSignal 0) + 1)%Z.
Proof.
  split; [reflexivity|]. split; [exact (dead_fetch _ _ _)|].
  exact (proj1 (monitorTick_failed_fetch (rt := refRuntime) deadNetwork 1700000060000
                  (openSignal 0) eq_refl (dead_fetch _ _ _))).
Defined.

(** C4, as stated, fails: with every provider down, the tick of an OPEN
    signal raises [monitorChecks] from 0 to 1, and the tick that reaches
    the ceiling of 48 checks turns the signal EXPIRED. *)
Lemma monitorTick_failed_fetch_counterexample :
  loadCandles (rt := refRuntime) deadNetwork "BTCUSDT" "1m" 120
    = Thrown "All data sources failed"
  /\ Index.monitorChecks (openSignal 0) = 0%Z
  /\ Index.monitorChecks
       (fst (Index.monitorTick (rt := refRuntime) deadNetwork 1700000060000
               (openSignal 0))) = 1%Z
  /\ Index.maxChecks = 48%Z
  /\ Index.status
       (fst (Index.monitorTick (rt := refRuntime) deadNetwork 1700000060000
               (openSignal 47))) = "EXPIRED".
Proof. repeat split. Qed.

(** C5, as stated, fails: with three closes only, the velocity at index 2
    is a number, the mean of the price changes 0, 1 and 1. *)
Lemma velocity_defined_counterexample :
  defined (nth 2 (velocity [Num 1; Num 2; Num 3]) NaN)
  /\ nth 2 (velocity [Num 1; Num 2; Num 3]) NaN =n= Num (2 # 3)
  /\ ~ (V_SMA + 1 <= List.length [Num 1; Num 2; Num 3])%nat.
Proof.
  split; [reflexivity|]. split; [vm_compute; reflexivity|].
  unfold V_SMA. simpl. lia.
Qed.

Lemma rsiFromCloses_range_witness :
  nth 14 (rsiFromCloses ramp 14) NaN = Num (100 - 100 / (1 + 100))
  /\ 0 <= 100 - 100 / (1 + 100) <= 100.
Proof.
  assert (H : nth 14 (rsiFromCloses ramp 14) NaN = Num (100 - 100 / (1 + 100)))
    by reflexivity.
  split; [exact H|].
  exact (proj1 (rsiFromCloses_range ramp 14) 14%nat _ H).
Defined.

(** C6, as stated, fails on sixteen rising closes: the average loss behind
    index 14 is zero and the RSI there is 10000/101, not 100. *)
Lemma rsiFromCloses_saturation_counterexample :
  snd (nth 0 (rsiAverages ramp 14) (NaN, NaN)) =n= n0
  /\ nth 14 (rsiFromCloses ramp 14) NaN =n= Num (10000 # 101)
  /\ ~ (nth 14 (rsiFromCloses ramp 14) NaN =n= n100).
Proof.
  split; [vm_compute; reflexivity|]. split; [vm_compute; reflexivity|].
  vm_compute. intro H. discriminate H.
Qed.

Lemma loadCandles_shape_witness :
  loadCandles (rt := refRuntime) shuffledNetwork "BTCUSDT" "1m" 2 = Ok shuffledCandles
  /\ shuffledCandles <> [].
Proof.
  split; [exact (shuffled_loaded 2)|].
  exact (proj1 (loadCandles_shape (rt := refRuntime) shuffledNetwork "BTCUSDT" "1m" 2
                  (shuffled_loaded 2))).
Defined.

Lemma garbled_loaded (limit : Z) :
  loadCandles (rt := refRuntime) Samples.garbledNetwork "BTCUSDT" "1m" limit
    = Ok Samples.garbledCandles.
Proof. vm_compute. reflexivity. Qed.

(** C8, as stated, fails: a Binance body of three records that are not in
    time order, requested with limit 2, is returned as three candles
    that are not in time order; and a Bybit body with an open time that
    is not a number is returned with a candle whose time is NaN, so the
    sequence is not ascending. *)
Lemma loadCandles_order_counterexample :
  loadCandles (rt := refRuntime) shuffledNetwork "BTCUSDT" "1m" 2 = Ok shuffledCandles
  /\ ~ Sorted timeLe shuffledCandles
  /\ (2 < Z.of_nat (List.length shuffledCandles))%Z
  /\ loadCandles (rt := refRuntime) Samples.garbledNetwork "BTCUSDT" "1m" 2
     = Ok Samples.garbledCandles
  /\ ~ Sorted timeLe Samples.garbledCandles.
Proof.
  split; [exact (shuffled_loaded 2)|]. split; [| split; [simpl; lia|]].
  - intro H. inversion H as [| ? ? _ Hhd]. inversion Hhd as [| ? ? Hle].
    vm_compute in Hle. apply Hle. reflexivity.
  - split; [exact (garbled_loaded 2)|].
    intro H. inversion H as [| ? ? _ Hhd]. inversion Hhd as [| ? ? Hle].
    exact Hle.
Qed.

(* ================================================================== *)
(** ** Further properties *)
(* ================================================================== *)

Import Shape.


(** *** Further properties of the candle loader *)

Section LoaderMore.
Context {rt : JsRuntime}.

Lemma sources_in_priority_order : sort byPriority DATA_SOURCES = DATA_SOURCES.
Proof. reflexivity. Qed.

Lemma trySources_ok_iff (net : Network) (symbol interval : string) (limit : Z)
    (sources : list DataSource) (candles : list Candle) :
  trySources net symbol interval limit sources = Ok candles
  <-> exists pre source post,
        sources = pre ++ source :: post
        /\ Forall (fun s => trySource net symbol interval limit s = None) pre
        /\ trySource net symbol interval limit source = Some candles.
Proof.
  induction sources as [| s rest IH]; cbn [trySources].
  - split; [discriminate|]. intros (pre & src & post & E & _).
    destruct pre; discriminate.
  - destruct (trySource net symbol interval limit s) as [cs|] eqn:Es.
    + split.
      * intro H. inversion H. subst. exists [], s, rest. auto.
      * intros (pre & src & post & E & Hpre & Hs).
        destruct pre as [| p pre]; simpl in E; inversion E; subst.
        -- congruence.
        -- inversion Hpre. congruence.
    + rewrite IH. split.
      * intros (pre & src & post & -> & Hpre & Hs).
        exists (s :: pre), src, post. auto.
      * intros (pre & src & post & E & Hpre & Hs).
        destruct pre as [| p pre]; simpl in E; inversion E; subst.
        -- congruence.
        -- inversion Hpre. subst. exists pre, src, post. auto.
Qed.

Lemma trySources_thrown_iff (net : Network) (symbol interval : string) (limit : Z)
    (sources : list DataSource) :
  (exists message, trySources net symbol interval limit sources = Thrown message)
  <-> Forall (fun s => trySource net symbol interval limit s = None) sources.
Proof.
  induction sources as [| s rest IH]; cbn [trySources].
  - split; [constructor | eauto].
  - destruct (trySource net symbol interval limit s) as [cs|] eqn:Es.
    + split; [intros [m H]; discriminate | intro H; inversion H; congruence].
    + rewrite IH. split; [intro H; constructor; assumption | intro H; inversion H; assumption].
Qed.

(** X1.  [loadCandles] answers with the candles of the first source, in
    the order Binance Main, Binance Futures, Bybit, whose attempt
    succeeds, whatever the later sources would have answered; it throws
    exactly when the attempt fails for all three. *)
Theorem loadCandles_fallback (net : Network) (symbol interval : string) (limit : Z) :
  (forall candles,
      loadCandles net symbol interval limit = Ok candles
      <-> exists pre source post,
            DATA_SOURCES = pre ++ source :: post
            /\ Forall (fun s => trySource net symbol interval limit s = None) pre
            /\ trySource net symbol interval limit source = Some candles)
  /\ ((exists message, loadCandles net symbol interval limit = Thrown message)
      <-> Forall (fun s => trySource net symbol interval limit s = None) DATA_SOURCES)
  /\ map name (sort byPriority DATA_SOURCES)
     = ["Binance Main"; "Binance Futures (fapi) fallback"; "Bybit Backup"].
Proof.
  unfold loadCandles. rewrite sources_in_priority_order.
  split; [| split].
  - intro candles. apply trySources_ok_iff.
  - apply trySources_thrown_iff.
  - reflexivity.
Qed.

(** What makes one attempt fail. *)
Lemma trySource_none_iff (net : Network) (symbol interval : string) (limit : Z)
    (source : DataSource) :
  trySource net symbol interval limit source = None
  <-> (exists st, net (name source) symbol interval limit = HttpError st)
      \/ exists status raw,
           net (name source) symbol interval limit = HttpOk status raw
           /\ (status <> 200%Z \/ truthy raw = false
               \/ normalize source raw = None \/ normalize source raw = Some []).
Proof.
  unfold trySource.
  destruct (net (name source) symbol interval limit) as [st | status raw].
  - split; [eauto | reflexivity].
  - split.
    + intro H. right. exists status, raw. split; [reflexivity|].
      destruct (Z.eqb_spec status 200); [| auto].
      destruct (truthy raw); [| auto]. simpl in H.
      destruct (normalize source raw) as [[| c cs]|]; auto; discriminate.
    + intros [[st H] | (status' & raw' & E & H)]; [discriminate|].
      inversion E. subst.
      destruct H as [H | [H | [H | H]]].
      * destruct (Z.eqb_spec status' 200); [contradiction | reflexivity].
      * rewrite H. destruct (status' =? 200)%Z; reflexivity.
      * rewrite H. destruct (negb _ || negb _); reflexivity.
      * rewrite H. destruct (negb _ || negb _); reflexivity.
Qed.

Lemma orValue_truthy (v d : value) : truthy v = true -> orValue v d = v.
Proof. intro H. unfold orValue. rewrite H. reflexivity. Qed.

(** X2.  A Bybit record given as an object is normalised like the array
    holding its six fields, whether the object uses the short keys
    (t, o, h, l, c, v) or the long ones (start, open, high, low, close,
    volume), provided the five time and price fields are truthy; a
    missing or falsy field of an object is read as 0. *)
Theorem bybitItem_encodings (props : list (string * value)) :
  let pick short long := orValue (lookup short props) (lookup long props) in
  let fields := [pick "t" "start"; pick "o" "open"; pick "h" "high";
                 pick "l" "low"; pick "c" "close"; pick "v" "volume"] in
  Forall (fun v => truthy v = true) (firstn 5 fields) ->
  bybitItem (VObject props) = bybitItem (VArray fields).
Proof.
  intros pick fields H. subst fields pick. cbn [firstn] in H.
  repeat match goal with
         | H : Forall _ (_ :: _) |- _ => inversion H; clear H; subst
         end.
  unfold bybitItem, optProp, getProp. cbn [nth].
  repeat match goal with
         | H : truthy ?v = true |- _ => rewrite (@orValue_truthy _ zero H); clear H
         end.
  reflexivity.
Qed.

End LoaderMore.

Lemma insertSorted_last (x : Candle) (l : list Candle) :
  Forall (fun y => ltP (t y) (t x)) l -> insertSorted byTime x l = l ++ [x].
Proof.
  induction 1 as [| y rest Hy _ IH]; cbn [insertSorted]; [reflexivity|].
  assert (E : (byTime x y >? Num 0)%num = true).
  { apply gt_spec. unfold byTime. destruct (t y), (t x); simpl in *; try contradiction.
    lra. }
  rewrite E, IH. reflexivity.
Qed.

Lemma insertSorted_first (x : Candle) (l : list Candle) :
  defined (t x) -> Forall (fun c => defined (t c)) l ->
  HdRel timeLe x l -> insertSorted byTime x l = x :: l.
Proof.
  intros Hx Hall Hhd. destruct l as [| y rest]; [reflexivity|].
  cbn [insertSorted]. inversion Hhd as [| ? ? Hle]; subst. inversion Hall; subst.
  assert (E : (byTime x y >? Num 0)%num = false).
  { apply lt_false. unfold byTime, timeLe in *.
    destruct (t y), (t x); simpl in *; try contradiction. lra. }
  rewrite E. reflexivity.
Qed.

(** X3.  Sorting by open time turns a list that is newest first, as Bybit
    sends it, into its reverse, and leaves a list that is already
    ascending as it is; the candles are those given, none lost or added. *)
Theorem sort_byTime_cases (l : list Candle) :
  (StronglySorted newerFirst l -> sort byTime l = rev l)
  /\ (Forall (fun c => defined (t c)) l -> Sorted timeLe l -> sort byTime l = l)
  /\ Permutation l (sort byTime l).
Proof.
  split; [| split].
  - induction 1 as [| x rest Hrest IH Hx]; [reflexivity|].
    cbn [sort fold_right]. fold (sort byTime rest). rewrite IH.
    cbn [rev]. apply insertSorted_last.
    apply Forall_rev. exact Hx.
  - intros Hd Hs. induction Hs as [| x rest Hrest IH Hhd]; [reflexivity|].
    inversion Hd; subst.
    cbn [sort fold_right]. fold (sort byTime rest). rewrite IH by assumption.
    apply insertSorted_first; assumption.
  - apply sort_perm.
Qed.


(** *** Further properties of the RSI *)

Lemma rsiSmooth_length (length : nat) (ds : list num) :
  forall g l, List.length (rsiSmooth length g l ds) = List.length ds.
Proof.
  induction ds as [| d ds IH]; intros g l; cbn [rsiSmooth List.length]; [reflexivity|].
  rewrite IH. reflexivity.
Qed.

Lemma deltasOf_length (closes : list num) :
  List.length (deltasOf closes) = (List.length closes - 1)%nat.
Proof.
  destruct closes as [| c rest]; [reflexivity|].
  cbn [deltasOf List.length]. rewrite deltasFrom_length. lia.
Qed.

Lemma rsiAverages_length (closes : list num) (length : nat) :
  List.length (rsiAverages closes length)
  = S (List.length closes - 1 - length).
Proof.
  unfold rsiAverages. destruct (seedSums _) as [g l].
  cbn [List.length]. rewrite rsiSmooth_length, length_skipn, deltasOf_length.
  reflexivity.
Qed.

Lemma deltasFrom_defined (rest : list num) :
  forall prev, defined prev -> Forall defined rest ->
               Forall defined (deltasFrom prev rest).
Proof.
  induction rest as [| c rest IH]; intros prev Hp Hr; cbn [deltasFrom]; constructor.
  - inversion Hr; subst. destruct c, prev; try discriminate. reflexivity.
  - inversion Hr; subst. apply IH; assumption.
Qed.

Lemma deltasOf_defined (closes : list num) :
  allDefined closes -> Forall defined (deltasOf closes).
Proof.
  intro H. destruct closes as [| c rest]; [constructor|].
  inversion H; subst. apply deltasFrom_defined; assumption.
Qed.

Lemma properPair_nonneg (gl : num * num) : properPair gl -> nonnegPair gl.
Proof. intros (g & l & -> & Hg & Hl). split; assumption. Qed.

Lemma seedSums_proper (ds : list num) :
  Forall defined ds ->
  forall gl, properPair gl -> properPair (fold_left seedStep ds gl).
Proof.
  induction 1 as [| d ds Hd _ IH]; intros gl Hgl; cbn [fold_left]; [assumption|].
  apply IH. destruct Hgl as (g & l & -> & Hg & Hl).
  destruct d as [| x]; [discriminate|].
  unfold seedStep. destruct (Num x >? n0)%num eqn:E.
  - apply gt_spec in E. unfold ltP, n0 in E.
    exists (g + x), l. split; [reflexivity|]. split; lra.
  - exists g, (l + Qabs x). split; [reflexivity|].
    pose proof (Qabs_nonneg x). split; lra.
Qed.

Lemma div_nat_proper (x : Q) (n : nat) :
  n <> 0%nat -> 0 <= x -> exists y, (Num x / ofNat n)%num = Num y /\ 0 <= y.
Proof.
  intros Hn Hx. unfold div, ofNat. rewrite (ofNat_nonzero Hn).
  eexists. split; [reflexivity|].
  pose proof (@nonneg_div_nat (Num x) n Hx) as H.
  unfold div, ofNat in H. rewrite (ofNat_nonzero Hn) in H. exact H.
Qed.

Lemma smoothStep_proper (length : nat) (a x : Q) :
  length <> 0%nat -> 0 <= a -> 0 <= x ->
  exists y, smoothStep length (Num a) (Num x) = Num y /\ 0 <= y.
Proof.
  intros Hn Ha Hx.
  pose proof (@nonneg_smoothStep length (Num a) (Num x) Ha Hx) as H.
  unfold smoothStep, div, ofNat in *. cbn [mul sub add lift2] in *.
  rewrite (ofNat_nonzero Hn) in *.
  eexists. split; [reflexivity | exact H].
Qed.

Lemma gain_proper (d : num) :
  defined d -> exists x, (if (d >? n0)%num then d else n0) = Num x /\ 0 <= x.
Proof.
  intro Hd. pose proof (gain_nonneg d) as H.
  destruct (d >? n0)%num.
  - destruct d as [| x]; [discriminate|]. exists x. split; [reflexivity | exact H].
  - exists 0. split; [reflexivity | exact H].
Qed.

Lemma loss_proper (d : num) :
  defined d -> exists x, (if (d <? n0)%num then Math_abs d else n0) = Num x /\ 0 <= x.
Proof.
  intro Hd. pose proof (loss_nonneg d) as H.
  destruct (d <? n0)%num.
  - destruct d as [| x]; [discriminate|]. exists (Qabs x). split; [reflexivity | exact H].
  - exists 0. split; [reflexivity | exact H].
Qed.

Lemma rsiSmooth_proper (length : nat) (ds : list num) :
  length <> 0%nat -> Forall defined ds ->
  forall g l, 0 <= g -> 0 <= l ->
              Forall properPair (rsiSmooth length (Num g) (Num l) ds).
Proof.
  intros Hn Hds. induction Hds as [| d ds Hd _ IH]; intros g l Hg Hl;
    cbn [rsiSmooth]; [constructor|].
  destruct (gain_proper Hd) as (x & -> & Hx).
  destruct (loss_proper Hd) as (y & -> & Hy).
  destruct (smoothStep_proper Hn Hg Hx) as (g' & -> & Hg').
  destruct (smoothStep_proper Hn Hl Hy) as (l' & -> & Hl').
  constructor; [exists g', l'; auto | apply IH; assumption].
Qed.

Lemma Forall_firstn_skipn (A : Type) (P : A -> Prop) (n : nat) (l : list A) :
  Forall P l -> Forall P (firstn n l) /\ Forall P (skipn n l).
Proof. intro H. apply Forall_app. rewrite firstn_skipn. exact H. Qed.

Lemma rsiAverages_proper (closes : list num) (length : nat) :
  length <> 0%nat -> allDefined closes -> Forall properPair (rsiAverages closes length).
Proof.
  intros Hn Hc. unfold rsiAverages.
  pose proof (deltasOf_defined Hc) as Hd.
  assert (Hs : properPair (seedSums (firstn length (deltasOf closes)))).
  { apply seedSums_proper.
    - apply (Forall_firstn_skipn length Hd).
    - exists 0, 0. split; [reflexivity|]. split; lra. }
  destruct Hs as (g & l & -> & Hg & Hl).
  destruct (div_nat_proper Hn Hg) as (g' & -> & Hg').
  destruct (div_nat_proper Hn Hl) as (l' & -> & Hl').
  constructor; [exists g', l'; auto|].
  apply rsiSmooth_proper; try assumption.
  apply (Forall_firstn_skipn length Hd).
Qed.

Lemma rsiValue_proper (gl : num * num) :
  properPair gl -> defined (rsiValue (fst gl) (snd gl)).
Proof.
  intros (g & l & -> & Hg & Hl). cbn [fst snd]. unfold rsiValue.
  destruct (Num l === n0)%num eqn:E; [reflexivity|].
  cbn in E. unfold div. rewrite E.
  apply Qeq_bool_false in E.
  assert (Hr : 0 <= g / l) by (apply Qle_shift_div_l; lra).
  cbn [add lift2].
  assert (E2 : Qeq_bool (1 + g / l) 0 = false) by (apply Qeq_bool_false; lra).
  rewrite E2. reflexivity.
Qed.

(** X4.  [rsiFromCloses] returns one value per close; the first [length]
    values are NaN, and all are when there are fewer than [length] + 1
    closes; when no close is NaN (and [length] is not 0) every value from
    index [length] on is a number. *)
Theorem rsiFromCloses_shape (closes : list num) (length : nat) :
  List.length (rsiFromCloses closes length) = List.length closes
  /\ (forall i, (i < length)%nat -> nth i (rsiFromCloses closes length) NaN = NaN)
  /\ ((List.length closes < length + 1)%nat ->
      forall i, nth i (rsiFromCloses closes length) NaN = NaN)
  /\ (length <> 0%nat -> allDefined closes ->
      forall i, (length <= i < List.length closes)%nat ->
                defined (nth i (rsiFromCloses closes length) NaN)).
Proof.
  unfold rsiFromCloses.
  destruct (Nat.ltb_spec (List.length closes) (length + 1)) as [Hs | Hs].
  - split; [apply repeat_length|].
    split; [intros; apply nth_repeat|]. split; [intros; apply nth_repeat|].
    intros _ _ i Hi. lia.
  - split.
    { rewrite length_app, repeat_length, length_map, rsiAverages_length. lia. }
    split.
    { intros i Hi. rewrite app_nth1 by (rewrite repeat_length; assumption).
      apply nth_repeat. }
    split; [intro; lia|].
    intros Hn Hc i Hi.
    pose proof (rsiAverages_proper Hn Hc) as Hall.
    destruct (nth_error (rsiAverages closes length) (i - length)) as [gl|] eqn:E.
    + replace i with (length + (i - length))%nat by lia.
      erewrite nth_padded_at by exact E.
      apply rsiValue_proper. rewrite Forall_forall in Hall.
      apply Hall. eapply nth_error_In. exact E.
    + apply nth_error_None in E. rewrite rsiAverages_length in E. lia.
Qed.


Lemma leP_zero_cases (d : num) :
  leP n0 d -> exists x, d = Num x /\ 0 <= x.
Proof. destruct d; simpl; [contradiction | eauto]. Qed.

Lemma zeroOrNaN_div_nat (a : num) (n : nat) : zeroOrNaN a -> zeroOrNaN (a / ofNat n)%num.
Proof.
  destruct a as [| x]; simpl; auto. intro Hx.
  destruct (Qeq_bool (inject_Z (Z.of_nat n)) 0) eqn:E; simpl; auto.
  rewrite Hx. apply Qeq_bool_false in E. field. exact E.
Qed.

Lemma zeroOrNaN_smooth (length : nat) (a x : num) :
  zeroOrNaN a -> zeroOrNaN x -> zeroOrNaN (smoothStep length a x).
Proof.
  intros Ha Hx. unfold smoothStep. apply zeroOrNaN_div_nat.
  destruct a as [| p], x as [| q]; simpl in *; auto.
  rewrite Ha, Hx. ring.
Qed.

(** With no falling close the loss sums stay at zero. *)
Lemma seedSums_no_loss (ds : list num) :
  Forall (fun d => leP n0 d) ds ->
  forall gl, zeroOrNaN (snd gl) -> zeroOrNaN (snd (fold_left seedStep ds gl)).
Proof.
  induction 1 as [| d ds Hd _ IH]; intros [g l] Hl; cbn [fold_left]; [assumption|].
  apply IH. destruct (leP_zero_cases _ Hd) as (x & -> & Hx).
  unfold seedStep. destruct (Num x >? n0)%num eqn:E; cbn [snd] in *; [assumption|].
  apply lt_false in E. unfold ltP, n0 in E.
  destruct l as [| y]; simpl in *; auto.
  assert (Ex : x == 0) by lra. rewrite Hl, Ex. reflexivity.
Qed.

Lemma rsiSmooth_no_loss (length : nat) (ds : list num) :
  Forall (fun d => leP n0 d) ds ->
  forall g l, zeroOrNaN l ->
              Forall (fun gl => zeroOrNaN (snd gl)) (rsiSmooth length g l ds).
Proof.
  induction 1 as [| d ds Hd _ IH]; intros g l Hl; cbn [rsiSmooth]; [constructor|].
  destruct (leP_zero_cases _ Hd) as (x & -> & Hx).
  assert (E : (Num x <? n0)%num = false).
  { apply lt_false. unfold ltP, n0. lra. }
  rewrite E.
  assert (Hs : zeroOrNaN (smoothStep length l n0)).
  { apply zeroOrNaN_smooth; [assumption | reflexivity]. }
  constructor; [exact Hs | apply IH; exact Hs].
Qed.

Lemma rsiAverages_no_loss (closes : list num) (length : nat) :
  neverFalls closes -> Forall (fun gl => zeroOrNaN (snd gl)) (rsiAverages closes length).
Proof.
  intro H. unfold rsiAverages, neverFalls in *.
  destruct (Forall_firstn_skipn length H) as [H1 H2].
  pose proof (@seedSums_no_loss _ H1 (n0, n0)) as Hs.
  unfold seedSums. destruct (fold_left _ _ _) as [g l]. cbn [snd] in Hs.
  assert (Hl : zeroOrNaN (l / ofNat length)%num).
  { apply zeroOrNaN_div_nat. apply Hs. reflexivity. }
  constructor; [exact Hl | apply rsiSmooth_no_loss; assumption].
Qed.

Lemma rsiValue_no_loss (g l : num) (q : Q) :
  zeroOrNaN l -> rsiValue g l = Num q -> q == 10000 # 101.
Proof.
  intros Hl. destruct l as [| y].
  - unfold rsiValue. simpl. destruct g; discriminate.
  - assert (E : (Num y === n0)%num = true) by (apply Qeq_bool_iff; exact Hl).
    rewrite (@rsiValue_saturated g (Num y) E). intro H. inversion H. reflexivity.
Qed.

(** With every close falling the gain stays at zero and the loss is
    positive once a delta has been added. *)
Lemma ltP_zero_cases (d : num) : ltP d n0 -> exists x, d = Num x /\ x < 0.
Proof. destruct d; simpl; [contradiction | eauto]. Qed.

Lemma seedSums_all_loss (ds : list num) :
  Forall (fun d => ltP d n0) ds ->
  forall g l, g == 0 -> 0 <= l ->
    exists g' l', fold_left seedStep ds (Num g, Num l) = (Num g', Num l')
                  /\ g' == 0 /\ l <= l' /\ (ds <> [] -> l < l').
Proof.
  induction 1 as [| d ds Hd _ IH]; intros g l Hg Hl; cbn [fold_left].
  - exists g, l. split; [reflexivity|]. split; [assumption|]. split; [lra | congruence].
  - destruct (ltP_zero_cases _ Hd) as (x & -> & Hx).
    assert (E : (Num x >? n0)%num = false).
    { apply lt_false. unfold ltP, n0. lra. }
    unfold seedStep at 2. rewrite E. cbn [Math_abs add lift2].
    assert (Ha : Qabs x == - x) by (apply Qabs_neg; lra).
    destruct (IH g (l + Qabs x)) as (g' & l' & E' & Hg' & Hl' & _); [assumption | lra |].
    exists g', l'. split; [exact E'|]. split; [assumption|]. split; [lra|].
    intros _. lra.
Qed.

Lemma smoothStep_zero (length : nat) (g : Q) :
  length <> 0%nat -> g == 0 ->
  exists g', smoothStep length (Num g) n0 = Num g' /\ g' == 0.
Proof.
  intros Hn Hg. unfold smoothStep, div, ofNat, n0. cbn [mul sub add lift2].
  rewrite (ofNat_nonzero Hn). eexists. split; [reflexivity|].
  rewrite Hg. field. apply Qeq_bool_false. apply ofNat_nonzero. exact Hn.
Qed.

Lemma smoothStep_pos (length : nat) (l x : Q) :
  length <> 0%nat -> 0 <= l -> 0 < x ->
  exists l', smoothStep length (Num l) (Num x) = Num l' /\ 0 < l'.
Proof.
  intros Hn Hl Hx. unfold smoothStep, div, ofNat. cbn [mul sub add lift2].
  rewrite (ofNat_nonzero Hn). eexists. split; [reflexivity|].
  assert (H1 : 1 <= inject_Z (Z.of_nat length)).
  { change 1 with (inject_Z 1). rewrite <- Zle_Qle. lia. }
  apply Qlt_shift_div_l; [lra|].
  assert (0 <= l * (inject_Z (Z.of_nat length) - 1))
    by (apply Qmult_le_0_compat; lra).
  lra.
Qed.

Lemma rsiSmooth_all_loss (length : nat) (ds : list num) :
  length <> 0%nat -> Forall (fun d => ltP d n0) ds ->
  forall g l, g == 0 -> 0 < l ->
              Forall fallingPair (rsiSmooth length (Num g) (Num l) ds).
Proof.
  intros Hn Hds. induction Hds as [| d ds Hd _ IH]; intros g l Hg Hl;
    cbn [rsiSmooth]; [constructor|].
  destruct (ltP_zero_cases _ Hd) as (x & -> & Hx).
  assert (E1 : (Num x >? n0)%num = false).
  { apply lt_false. unfold ltP, n0. lra. }
  assert (E2 : (Num x <? n0)%num = true).
  { apply lt_spec. unfold ltP, n0. lra. }
  rewrite E1, E2. cbn [Math_abs].
  destruct (smoothStep_zero Hn Hg) as (g' & -> & Hg').
  assert (Ha : 0 < Qabs x) by (rewrite Qabs_neg; lra).
  destruct (@smoothStep_pos length l (Qabs x) Hn) as (l' & -> & Hl'); [lra | assumption |].
  constructor; [exists g', l'; auto | apply IH; assumption].
Qed.

Lemma rsiAverages_all_loss (closes : list num) (length : nat) :
  length <> 0%nat -> (length + 1 <= List.length closes)%nat ->
  alwaysFalls closes -> Forall fallingPair (rsiAverages closes length).
Proof.
  intros Hn Hlen H. unfold rsiAverages, alwaysFalls in *.
  destruct (Forall_firstn_skipn length H) as [H1 H2].
  destruct (@seedSums_all_loss _ H1 0 0) as (g & l & E & Hg & _ & Hl);
    [reflexivity | lra |].
  unfold seedSums, n0. rewrite E.
  assert (Hne : firstn length (deltasOf closes) <> []).
  { intro E0. apply (f_equal (@List.length num)) in E0.
    rewrite length_firstn, deltasOf_length in E0. simpl in E0. lia. }
  specialize (Hl Hne).
  destruct (smoothStep_zero Hn Hg) as (g0 & _ & _).
  assert (Hg' : exists g', (Num g / ofNat length)%num = Num g' /\ g' == 0).
  { unfold div, ofNat. rewrite (ofNat_nonzero Hn). eexists. split; [reflexivity|].
    rewrite Hg. field. apply Qeq_bool_false. apply ofNat_nonzero. exact Hn. }
  assert (Hl' : exists l', (Num l / ofNat length)%num = Num l' /\ 0 < l').
  { unfold div, ofNat. rewrite (ofNat_nonzero Hn). eexists. split; [reflexivity|].
    apply Qlt_shift_div_l; [| lra].
    assert (1 <= inject_Z (Z.of_nat length)).
    { change 1 with (inject_Z 1). rewrite <- Zle_Qle. lia. }
    lra. }
  destruct Hg' as (g' & -> & Hg'), Hl' as (l' & -> & Hl').
  constructor; [exists g', l'; auto | apply rsiSmooth_all_loss; assumption].
Qed.

Lemma rsiValue_all_loss (gl : num * num) (q : Q) :
  fallingPair gl -> rsiValue (fst gl) (snd gl) = Num q -> q == 0.
Proof.
  intros (g & l & -> & Hg & Hl). cbn [fst snd]. unfold rsiValue.
  assert (E : (Num l === n0)%num = false).
  { apply Qeq_bool_false. lra. }
  rewrite E. unfold div at 2. cbn in E. rewrite E. cbn [add lift2].
  assert (Er : g / l == 0) by (rewrite Hg; field; lra).
  assert (E2 : Qeq_bool (1 + g / l) 0 = false) by (apply Qeq_bool_false; lra).
  unfold div, n100. rewrite E2. cbn [sub lift2].
  intro H. inversion H.
  setoid_replace (1 + g / l) with 1 by lra. reflexivity.
Qed.

(** X5.  On closes none of which is NaN: when no close is below the one
    before it (a flat or rising series) every RSI value that is a number
    is 10000/101; when every close is below the one before it (and
    [length] is not 0) every RSI value that is a number is 0. *)
Theorem rsiFromCloses_extremes (closes : list num) (length : nat) :
  (neverFalls closes ->
   forall i q, nth i (rsiFromCloses closes length) NaN = Num q -> q == 10000 # 101)
  /\ (length <> 0%nat -> alwaysFalls closes ->
      forall i q, nth i (rsiFromCloses closes length) NaN = Num q -> q == 0).
Proof.
  unfold rsiFromCloses.
  destruct (Nat.ltb_spec (List.length closes) (length + 1)) as [Hs | Hs].
  - split; intros; rewrite nth_repeat in *; discriminate.
  - split.
    + intros Hr i q H. apply nth_padded in H; [| discriminate].
      destruct H as (k & [g l] & _ & Hk & Hv). cbn [fst snd] in Hv.
      pose proof (rsiAverages_no_loss length Hr) as Hall.
      rewrite Forall_forall in Hall.
      apply (@rsiValue_no_loss g l q); [| exact Hv].
      apply (Hall (g, l)). eapply nth_error_In. exact Hk.
    + intros Hn Hf i q H. apply nth_padded in H; [| discriminate].
      destruct H as (k & gl & _ & Hk & Hv).
      pose proof (rsiAverages_all_loss Hn Hs Hf) as Hall.
      rewrite Forall_forall in Hall.
      apply (@rsiValue_all_loss gl q); [| exact Hv].
      apply Hall. eapply nth_error_In. exact Hk.
Qed.


(** *** Further properties of the moving average *)

Lemma orElse_idem (v : num) : orElse (orElse v n0) n0 = orElse v n0.
Proof.
  unfold orElse. destruct (truthyNum v) eqn:E; [rewrite E; reflexivity | reflexivity].
Qed.

Lemma nth_zeroFilled (values : list num) (k : nat) :
  orElse (nth k (zeroFilled values) NaN) n0 = orElse (nth k values NaN) n0.
Proof.
  unfold zeroFilled. revert k.
  induction values as [| v rest IH]; intros [| k]; cbn [map nth];
    try reflexivity; [apply orElse_idem | apply IH].
Qed.

(** The loop reads every entry through [|| 0], the entry it adds and the
    entry it drops: on the zero-filled list it runs as on the list. *)
Lemma smaLoop_zeroFilled (values : list num) (period : nat) (todo : list num) :
  forall i sum,
    smaLoop (zeroFilled values) period i sum (zeroFilled todo)
    = smaLoop values period i sum todo.
Proof.
  induction todo as [| v rest IH]; intros i sum; [reflexivity|].
  change (zeroFilled (v :: rest)) with (orElse v n0 :: zeroFilled rest).
  cbn [smaLoop]. rewrite orElse_idem, nth_zeroFilled, IH. reflexivity.
Qed.

(** X6.  [sma] returns as many entries as it is given; its entry is a
    number from index [period] - 1 on and NaN (null) before; and an
    entry of the input that is NaN or 0 counts as 0: the result is that
    of the input with every such entry replaced by 0. *)
Theorem sma_shape (values : list num) (period : nat) :
  period <> 0%nat ->
  List.length (sma values period) = List.length values
  /\ (forall i, defined (nth i (sma values period) NaN)
                <-> (period - 1 <= i < List.length values)%nat)
  /\ sma (zeroFilled values) period = sma values period.
Proof.
  intro Hp. split; [apply smaLoop_length|].
  split; [intro i; apply sma_defined; exact Hp|].
  apply smaLoop_zeroFilled.
Qed.


(** *** Further properties of the ATR and of the bands *)

Lemma trueRanges_length (rest : list Candle) :
  forall prev, List.length (trueRanges prev rest) = List.length rest.
Proof.
  induction rest as [| c rest IH]; intro prev; cbn [trueRanges List.length];
    [reflexivity|]. rewrite IH. reflexivity.
Qed.

Lemma atrSmooth_length (period : nat) (trs : list num) :
  forall atr, List.length (atrSmooth period atr trs) = List.length trs.
Proof.
  induction trs as [| x trs IH]; intro atr; cbn [atrSmooth List.length];
    [reflexivity|]. rewrite IH. reflexivity.
Qed.

Lemma max3_nonneg (a b c : num) : nonneg (Math_max3 a (Math_abs b) (Math_abs c)).
Proof.
  destruct a, b, c; simpl; auto.
  eapply Qle_trans; [apply Qabs_nonneg | apply Q.le_max_r].
Qed.

Lemma trueRanges_nonneg (rest : list Candle) :
  forall prev, Forall nonneg (trueRanges prev rest).
Proof.
  induction rest as [| c rest IH]; intro prev; cbn [trueRanges]; constructor.
  - apply max3_nonneg.
  - apply IH.
Qed.

Lemma sum_nonneg (l : list num) :
  Forall nonneg l -> forall acc, nonneg acc -> nonneg (fold_left add l acc).
Proof.
  induction 1 as [| x l Hx _ IH]; intros acc Ha; cbn [fold_left]; [assumption|].
  apply IH. apply nonneg_add; assumption.
Qed.

Lemma atrSmooth_nonneg (period : nat) (trs : list num) :
  Forall nonneg trs ->
  forall atr, nonneg atr -> Forall nonneg (atrSmooth period atr trs).
Proof.
  induction 1 as [| x trs Hx _ IH]; intros atr Ha; cbn [atrSmooth]; constructor.
  - apply nonneg_smoothStep; assumption.
  - apply IH. apply nonneg_smoothStep; assumption.
Qed.

Lemma max3_defined (a b c : num) :
  defined a -> defined b -> defined c -> defined (Math_max3 a (Math_abs b) (Math_abs c)).
Proof. destruct a, b, c; try discriminate. reflexivity. Qed.

Lemma trueRanges_defined (rest : list Candle) :
  forall prev, priced prev -> Forall priced rest ->
               Forall defined (trueRanges prev rest).
Proof.
  induction rest as [| c rest IH]; intros prev Hp Hr; cbn [trueRanges]; constructor.
  - inversion Hr as [| ? ? (Hh & Hl & Hc) _]; subst. destruct Hp as (_ & _ & Hpc).
    destruct (high c), (low c), (close prev); try discriminate. reflexivity.
  - inversion Hr; subst. apply IH; assumption.
Qed.

Lemma sum_defined (l : list num) :
  Forall defined l -> forall acc, defined acc -> defined (fold_left add l acc).
Proof.
  induction 1 as [| x l Hx _ IH]; intros acc Ha; cbn [fold_left]; [assumption|].
  apply IH. destruct x, acc; try discriminate. reflexivity.
Qed.

Lemma div_nat_defined (a : num) (n : nat) :
  n <> 0%nat -> defined a -> defined (a / ofNat n)%num.
Proof.
  intros Hn Ha. destruct a as [| x]; [discriminate|].
  unfold div, ofNat. rewrite (ofNat_nonzero Hn). reflexivity.
Qed.

Lemma smoothStep_defined (period : nat) (a x : num) :
  period <> 0%nat -> defined a -> defined x -> defined (smoothStep period a x).
Proof.
  intros Hn Ha Hx. unfold smoothStep. apply div_nat_defined; [assumption|].
  destruct a, x; try discriminate. reflexivity.
Qed.

Lemma atrSmooth_defined (period : nat) (trs : list num) :
  period <> 0%nat -> Forall defined trs ->
  forall atr, defined atr -> Forall defined (atrSmooth period atr trs).
Proof.
  intros Hn. induction 1 as [| x trs Hx _ IH]; intros atr Ha; cbn [atrSmooth];
    constructor.
  - apply smoothStep_defined; assumption.
  - apply IH. apply smoothStep_defined; assumption.
Qed.

Lemma nth_Forall (A : Type) (P : A -> Prop) (l : list A) (d : A) (i : nat) :
  Forall P l -> (i < List.length l)%nat -> P (nth i l d).
Proof.
  intros H Hi. rewrite Forall_forall in H. apply H. apply nth_In. exact Hi.
Qed.

Lemma atrFromCandles_nonneg (candles : list Candle) (period i : nat) (q : Q) :
  nth i (atrFromCandles candles period) NaN = Num q -> 0 <= q.
Proof.
  destruct candles as [| c rest].
  { unfold atrFromCandles. destruct period as [| p]; [destruct i as [| [| i]] | destruct i];
      cbn; intro H; try discriminate H. }
  unfold atrFromCandles.
  pose proof (trueRanges_nonneg rest c) as Hnn.
  set (trs := trueRanges c rest) in *.
  destruct (Nat.ltb_spec (List.length trs) period) as [Hs | Hs].
  { intro H; rewrite nth_repeat in H; discriminate. }
  set (atr := (sum (firstn period trs) / ofNat period)%num).
  destruct (Forall_firstn_skipn period Hnn) as [Hn1 Hn2].
  assert (Hatr : nonneg atr).
  { apply nonneg_div_nat. apply sum_nonneg; [assumption|]. unfold n0, nonneg; lra. }
  assert (Hall : Forall nonneg (atr :: atrSmooth period atr (skipn period trs))).
  { constructor; [assumption | apply atrSmooth_nonneg; assumption]. }
  intro H.
  destruct (Nat.lt_ge_cases i period) as [Hi | Hi].
  - rewrite app_nth1 in H by (rewrite repeat_length; assumption).
    rewrite nth_repeat in H. discriminate.
  - rewrite app_nth2 in H by (rewrite repeat_length; assumption).
    rewrite repeat_length in H.
    destruct (Nat.lt_ge_cases (i - period)
                (List.length (atr :: atrSmooth period atr (skipn period trs))))
      as [Hk | Hk].
    + pose proof (nth_Forall NaN Hall Hk) as Hq. rewrite H in Hq. exact Hq.
    + rewrite nth_overflow in H by assumption. discriminate.
Qed.

(** X7.  [atrFromCandles] returns one value per candle (for at least one
    candle); the first [period] values are NaN, and all are when there
    are fewer than [period] + 1 candles; no value is negative; when
    every candle has a numeric high, low and close (and [period] is not
    0) every value from index [period] on is a number. *)
Theorem atrFromCandles_shape (candles : list Candle) (period : nat) :
  candles <> [] ->
  List.length (atrFromCandles candles period) = List.length candles
  /\ (forall i, (i < period)%nat -> nth i (atrFromCandles candles period) NaN = NaN)
  /\ ((List.length candles < period + 1)%nat ->
      forall i, nth i (atrFromCandles candles period) NaN = NaN)
  /\ (forall i q, nth i (atrFromCandles candles period) NaN = Num q -> 0 <= q)
  /\ (period <> 0%nat -> Forall priced candles ->
      forall i, (period <= i < List.length candles)%nat ->
                defined (nth i (atrFromCandles candles period) NaN)).
Proof.
  intro Hne.
  split; [| split; [| split; [| split; [intros i q; apply atrFromCandles_nonneg |]]]];
    (destruct candles as [| c rest]; [congruence|]); clear Hne;
    unfold atrFromCandles;
    pose proof (trueRanges_length rest c) as Hlen;
    set (trs := trueRanges c rest) in *;
    (destruct (Nat.ltb_spec (List.length trs) period) as [Hs | Hs];
     [| set (atr := (sum (firstn period trs) / ofNat period)%num);
        assert (Hl : List.length (atr :: atrSmooth period atr (skipn period trs))
                     = (List.length trs - period + 1)%nat)
          by (cbn [List.length]; rewrite atrSmooth_length, length_skipn; lia)]).
  - apply repeat_length.
  - rewrite length_app, repeat_length, Hl. simpl. lia.
  - intros; apply nth_repeat.
  - intros i Hi. rewrite app_nth1 by (rewrite repeat_length; assumption).
    apply nth_repeat.
  - intros; apply nth_repeat.
  - intro H; simpl in H; lia.
  - intros _ _ i Hi. simpl in Hi. lia.
  - intros Hp Hpr i Hi.
    inversion Hpr as [| ? ? Hc Hrest]; subst.
    pose proof (trueRanges_defined Hc Hrest) as Hd. fold trs in Hd.
    destruct (Forall_firstn_skipn period Hd) as [Hd1 Hd2].
    assert (Hda : defined atr).
    { apply div_nat_defined; [assumption|]. apply sum_defined; [assumption | reflexivity]. }
    assert (Hdall : Forall defined (atr :: atrSmooth period atr (skipn period trs))).
    { constructor; [assumption | apply atrSmooth_defined; assumption]. }
    rewrite app_nth2 by (rewrite repeat_length; lia).
    rewrite repeat_length. apply nth_Forall; [assumption|].
    rewrite Hl. simpl in Hi. lia.
Qed.


Section Bands.
Context {rt : JsRuntime}.

Lemma band_nth (closes : list num) (up : bool) (i : nat) :
  nth i (map (bandAt closes (sma closes BB_LENGTH) up) (seq 0 (List.length closes))) NaN
  = if (i <? List.length closes)%nat
    then bandAt closes (sma closes BB_LENGTH) up i else NaN.
Proof.
  destruct (Nat.ltb_spec i (List.length closes)) as [H | H].
  - rewrite nth_indep with (d' := bandAt closes (sma closes BB_LENGTH) up 0)
      by (rewrite length_map, length_seq; assumption).
    rewrite map_nth, seq_nth by assumption. reflexivity.
  - apply nth_overflow. rewrite length_map, length_seq. assumption.
Qed.

(** The two bands at an index where the window is complete. *)
Lemma bandAt_pair (closes : list num) (i : nat) :
  exists mean std,
    nth i (sma closes BB_LENGTH) NaN = mean
    /\ (exists variance, std = Math_sqrt variance)
    /\ ((BB_LENGTH - 1 <= i)%nat ->
        bandAt closes (sma closes BB_LENGTH) true i = (mean + BB_STD * std)%num
        /\ bandAt closes (sma closes BB_LENGTH) false i = (mean - BB_STD * std)%num)
    /\ ((i < BB_LENGTH - 1)%nat ->
        bandAt closes (sma closes BB_LENGTH) true i = NaN
        /\ bandAt closes (sma closes BB_LENGTH) false i = NaN).
Proof.
  unfold bandAt.
  eexists. eexists. split; [reflexivity|]. split; [eexists; reflexivity|].
  destruct (Nat.leb_spec (BB_LENGTH - 1) i); split; intro; try lia;
    split; reflexivity.
Qed.

(** X8.  At every index the upper band is a number exactly when the lower
    band is, and only from index 19 on; where they are numbers they lie
    at equal distances on either side of the 20-period moving average
    of the closes, and the lower is not above the upper when
    [Math.sqrt] returns no negative number. *)
Theorem bollinger_bands (closes : list num) (i : nat) :
  (defined (nth i (bb_upper closes) NaN) <-> defined (nth i (bb_lower closes) NaN))
  /\ (defined (nth i (bb_upper closes) NaN) ->
      (BB_LENGTH - 1 <= i < List.length closes)%nat)
  /\ (forall u l,
        nth i (bb_upper closes) NaN = Num u ->
        nth i (bb_lower closes) NaN = Num l ->
        exists m,
          nth i (sma closes BB_LENGTH) NaN = Num m
          /\ u - m == m - l
          /\ ((forall x, nonneg (Math_sqrt x)) -> l <= m <= u)).
Proof.
  unfold bb_upper, bb_lower. rewrite !band_nth.
  destruct (bandAt_pair closes i) as (mean & std & Em & (v & Ev) & Hge & Hlt).
  destruct (Nat.ltb_spec i (List.length closes)) as [Hi | Hi].
  - destruct (Nat.le_gt_cases (BB_LENGTH - 1) i) as [H | H].
    + destruct (Hge H) as [-> ->]. split; [| split].
      * destruct mean, std; simpl; tauto.
      * intros _. lia.
      * intros u l Hu Hl. destruct mean as [| m], std as [| s]; try discriminate.
        exists m. split; [exact Em|].
        cbn in Hu, Hl. inversion Hu. inversion Hl. split; [ring|].
        intro Hs. specialize (Hs v). rewrite <- Ev in Hs. cbn in Hs. lra.
    + destruct (Hlt H) as [-> ->]. split; [tauto|].
      split; [discriminate | intros; discriminate].
  - split; [tauto|]. split; [discriminate | intros; discriminate].
Qed.

End Bands.

(** *** Further properties of the signal generator *)

Lemma Qfloor_half_int (n : Z) : Qfloor (inject_Z n + (1 # 2)) = n.
Proof.
  pose proof (Qfloor_le (inject_Z n + (1 # 2))) as H1.
  pose proof (Qlt_floor (inject_Z n + (1 # 2))) as H2.
  set (f := Qfloor (inject_Z n + (1 # 2))) in *.
  assert (Ha : inject_Z f < inject_Z (n + 1)).
  { rewrite inject_Z_plus. change (inject_Z 1) with 1. lra. }
  assert (Hb : inject_Z n < inject_Z (f + 1)) by lra.
  rewrite <- Zlt_Qlt in Ha, Hb. lia.
Qed.

Lemma roundHalfAway_int (n : Z) : roundHalfAway (inject_Z n) = n.
Proof.
  unfold roundHalfAway. destruct (Qle_bool 0 (inject_Z n)).
  - apply Qfloor_half_int.
  - rewrite <- inject_Z_opp, Qfloor_half_int. lia.
Qed.

Lemma roundHalfAway_mono (x y : Q) : x <= y -> (roundHalfAway x <= roundHalfAway y)%Z.
Proof.
  intro H. unfold roundHalfAway.
  destruct (Qle_bool 0 x) eqn:Ex, (Qle_bool 0 y) eqn:Ey.
  - apply Qfloor_resp_le. lra.
  - apply Qle_bool_iff in Ex.
    assert (~ 0 <= y) by (intro Hy; apply Qle_bool_iff in Hy; congruence). lra.
  - assert (Hx : ~ 0 <= x) by (intro Hx; apply Qle_bool_iff in Hx; congruence).
    apply Qle_bool_iff in Ey.
    assert (H1 : (Qfloor 0 <= Qfloor (- x + (1 # 2)))%Z) by (apply Qfloor_resp_le; lra).
    assert (H2 : (Qfloor 0 <= Qfloor (y + (1 # 2)))%Z) by (apply Qfloor_resp_le; lra).
    change (Qfloor 0) with 0%Z in *. lia.
  - assert (H1 : (Qfloor (- y + (1 # 2)) <= Qfloor (- x + (1 # 2)))%Z)
      by (apply Qfloor_resp_le; lra).
    lia.
Qed.

Lemma toFixed_mono (d : nat) (x y : Q) :
  x <= y -> leP (toFixed d (Num x)) (toFixed d (Num y)).
Proof.
  intro H. unfold toFixed, leP.
  pose proof (pow10_pos d) as HP.
  apply Qmult_le_compat_r; [| apply Qlt_le_weak; apply Qinv_lt_0_compat; exact HP].
  rewrite <- Zle_Qle. apply roundHalfAway_mono.
  apply Qmult_le_compat_r; lra.
Qed.

Lemma toFixed_exact (d : nat) (a : num) : decimals d a -> toFixed d a =n= a.
Proof.
  destruct a as [| q]; [contradiction|]. intros [n Hn].
  unfold toFixed, eqn.
  pose proof (pow10_pos d) as HP.
  assert (E : q * inject_Z (pow10 d) == inject_Z n) by (rewrite Hn; field; lra).
  rewrite (roundHalfAway_compat E), roundHalfAway_int. rewrite Hn. reflexivity.
Qed.

Section GeneratorMore.
Context {rt : JsRuntime}.

Lemma latest_atr_nonneg (ohlcv : list Candle) (a : Q) :
  snap_atr (latestSnapshot ohlcv) = Num a -> 0 <= a.
Proof.
  unfold latestSnapshot. cbn [snap_atr]. intro H.
  eapply atrFromCandles_nonneg. exact H.
Qed.

Lemma signal_symbol (symbol : string) (s : Snapshot) (r : Analysis) :
  signalFromSnapshot symbol s = Some r ->
  Analysis.symbol r = symbol /\ meta_timeframe (meta r) = "5m".
Proof.
  unfold signalFromSnapshot.
  destruct (existsb _ _); [discriminate|].
  destruct (entryRule _ _ _ _ _) as [sd|]; [| discriminate].
  destruct (sd =? "LONG"); intro E; inversion E; split; reflexivity.
Qed.

Lemma signal_ordered (symbol : string) (s : Snapshot) (r : Analysis) :
  signalFromSnapshot symbol s = Some r ->
  (forall a, snap_atr s = Num a -> 0 <= a) ->
  (side r = "LONG" /\ leP (sl r) (entry r) /\ leP (entry r) (tp r))
  \/ (side r = "SHORT" /\ leP (tp r) (entry r) /\ leP (entry r) (sl r)).
Proof.
  intros H Hatr.
  pose proof (signal_fields _ _ H) as
    (c & a & acc & Ec & Ea & _ & Hsd & He & Hsl & Htp & _ & _).
  pose proof (Hatr _ Ea) as Ha.
  rewrite He, Hsl, Htp.
  destruct Hsd as [E | E]; [left | right]; (split; [exact E|]); rewrite E;
    unfold levels;
    [ change ("LONG" =? "LONG") with true | change ("SHORT" =? "LONG") with false ];
    cbn [fst snd]; split; apply toFixed_mono; lra.
Qed.

(** X9.  Every result of [analyzeSymbol] carries the symbol asked for, the
    time frame 5m and the side LONG or SHORT; for LONG the stop is not
    above the entry and the target is not below it, for SHORT the other
    way round. *)
Theorem analyzeSymbol_levels_ordered (net : Network) (symbol : string) (r : Analysis) :
  analyzeSymbol net symbol = Some r ->
  Analysis.symbol r = symbol
  /\ meta_timeframe (meta r) = "5m"
  /\ ((side r = "LONG" /\ leP (sl r) (entry r) /\ leP (entry r) (tp r))
      \/ (side r = "SHORT" /\ leP (tp r) (entry r) /\ leP (entry r) (sl r))).
Proof.
  intro H. apply analyzeSymbol_inv in H. destruct H as (ohlcv & _ & _ & H).
  destruct (signal_symbol _ _ H) as [Hs Ht].
  split; [exact Hs|]. split; [exact Ht|].
  apply (signal_ordered _ _ H). apply latest_atr_nonneg.
Qed.

(** X10.  When the latest close has at most 8 decimals, as exchange
    prices have, the entry returned by [analyzeSymbol] is that close. *)
Theorem analyzeSymbol_entry_exact (net : Network) (symbol : string) (r : Analysis)
    (ohlcv : list Candle) :
  analyzeSymbol net symbol = Some r ->
  loadCandles net symbol "5m" 200 = Ok ohlcv ->
  decimals 8 (snap_close (latestSnapshot ohlcv)) ->
  entry r =n= snap_close (latestSnapshot ohlcv).
Proof.
  intros H Hl Hd. apply analyzeSymbol_inv in H.
  destruct H as (ohlcv' & Hl' & _ & H).
  rewrite Hl in Hl'. inversion Hl'. subst ohlcv'.
  pose proof (signal_fields _ _ H) as (c & a & acc & Ec & _ & _ & _ & He & _).
  rewrite He, Ec in *. apply toFixed_exact. exact Hd.
Qed.

End GeneratorMore.


(** *** Further properties of the TP/SL check *)

Lemma scanFrom_inv (side : string) (sl tp : num) (candles : list Candle) :
  forall k st idx c,
    scanFrom side sl tp k candles = Hit st idx c ->
    exists j, idx = (k + j)%nat
              /\ nth_error candles j = Some c
              /\ checkCandle side sl tp c = Some st
              /\ Forall (untouched side sl tp) (firstn j candles).
Proof.
  induction candles as [| x rest IH]; intros k st idx c; cbn [scanFrom];
    [discriminate|].
  destruct (checkCandle side sl tp x) as [st'|] eqn:E.
  - intro H. inversion H. subst. exists 0%nat.
    split; [lia|]. split; [reflexivity|]. split; [assumption | constructor].
  - intro H. apply IH in H. destruct H as (j & -> & Hn & Hc & Hu).
    exists (S j). split; [lia|]. split; [exact Hn|]. split; [exact Hc|].
    cbn [firstn]. constructor; [| exact Hu].
    apply (proj1 (checkCandle_spec side sl tp x)). exact E.
Qed.

Lemma checkCandle_status (side : string) (sl tp : num) (c : Candle) (st : string) :
  checkCandle side sl tp c = Some st ->
  (st = "TP" \/ st = "SL") /\ (side = "LONG" \/ side = "SHORT").
Proof.
  unfold checkCandle.
  destruct (String.eqb_spec side "LONG"); [| destruct (String.eqb_spec side "SHORT")];
    repeat match goal with
           | |- context [if ?b then _ else _] => destruct b
           end;
    intro H; inversion H; auto; discriminate.
Qed.

Section CheckMore.
Context {rt : JsRuntime}.

Lemma trySource_ext (net net' : Network) (symbol interval : string) (limit : Z)
    (source : DataSource) :
  net (name source) symbol interval limit = net' (name source) symbol interval limit ->
  trySource net symbol interval limit source = trySource net' symbol interval limit source.
Proof. intro H. unfold trySource. rewrite H. reflexivity. Qed.

Lemma loadCandles_ext (net net' : Network) (symbol interval : string) (limit : Z) :
  (forall source, net source symbol interval limit = net' source symbol interval limit) ->
  loadCandles net symbol interval limit = loadCandles net' symbol interval limit.
Proof.
  intro H. unfold loadCandles.
  induction (sort byPriority DATA_SOURCES) as [| s rest IH]; [reflexivity|].
  cbn [trySources]. rewrite (trySource_ext net net' _ _ _ s (H (name s))), IH.
  reflexivity.
Qed.

(** X11.  [checkSignalHit] asks the sources for the 1-minute candles of
    its symbol only, with a limit that is the look-back brought into the
    range 10 to 1440: two networks that answer this one request alike
    give the same result.  When every source fails the result is
    unresolved. *)
Theorem checkSignalHit_request (net net' : Network) (symbol side : string)
    (entry sl tp : num) (lookbackMinutes : Z) :
  (forall source,
      net source symbol "1m" (clamped lookbackMinutes)
      = net' source symbol "1m" (clamped lookbackMinutes)) ->
  checkSignalHit net symbol side entry sl tp lookbackMinutes
  = checkSignalHit net' symbol side entry sl tp lookbackMinutes
  /\ (10 <= clamped lookbackMinutes <= 1440)%Z
  /\ ((10 <= lookbackMinutes <= 1440)%Z -> clamped lookbackMinutes = lookbackMinutes)
  /\ (forall message,
        loadCandles net symbol "1m" (clamped lookbackMinutes) = Thrown message ->
        checkSignalHit net symbol side entry sl tp lookbackMinutes = NoHit).
Proof.
  intro H. split; [| split; [| split]].
  - unfold checkSignalHit. fold (clamped lookbackMinutes).
    rewrite (loadCandles_ext net net' symbol "1m" (clamped lookbackMinutes) H).
    reflexivity.
  - unfold clamped. lia.
  - unfold clamped. lia.
  - intros message Hm. unfold checkSignalHit. fold (clamped lookbackMinutes).
    rewrite Hm. reflexivity.
Qed.

Lemma hit_status (net : Network) (symbol side : string)
    (entry sl tp : num) (lookbackMinutes : Z) (st : string) (idx : nat) (c : Candle) :
  checkSignalHit net symbol side entry sl tp lookbackMinutes = Hit st idx c ->
  st = "TP" \/ st = "SL".
Proof.
  unfold checkSignalHit.
  destruct (loadCandles net symbol "1m" _) as [candles|]; [| discriminate].
  destruct (List.length candles =? 0)%nat; [discriminate|].
  intro H. apply scanFrom_inv in H. destruct H as (j & _ & _ & Hc & _).
  apply (checkCandle_status _ _ _ _ Hc).
Qed.

(** X12.  When [checkSignalHit] reports a hit, the status is TP or SL, the
    side is LONG or SHORT, the reported candle is the candle at the
    reported index of the loaded series, its status is the one the touch
    rules give for it, and no candle before it touches a bound. *)
Theorem checkSignalHit_hit (net : Network) (symbol side : string)
    (entry sl tp : num) (lookbackMinutes : Z) (st : string) (idx : nat) (c : Candle) :
  checkSignalHit net symbol side entry sl tp lookbackMinutes = Hit st idx c ->
  (st = "TP" \/ st = "SL")
  /\ (side = "LONG" \/ side = "SHORT")
  /\ exists candles,
       loadCandles net symbol "1m" (clamped lookbackMinutes) = Ok candles
       /\ nth_error candles idx = Some c
       /\ resolution side sl tp c st
       /\ Forall (untouched side sl tp) (firstn idx candles).
Proof.
  unfold checkSignalHit. fold (clamped lookbackMinutes).
  destruct (loadCandles net symbol "1m" (clamped lookbackMinutes)) as [candles|];
    [| discriminate].
  destruct (List.length candles =? 0)%nat; [discriminate|].
  intro H. apply scanFrom_inv in H. destruct H as (j & -> & Hn & Hc & Hu).
  destruct (checkCandle_status _ _ _ _ Hc) as [Hst Hsd].
  split; [exact Hst|]. split; [exact Hsd|].
  exists candles. split; [reflexivity|]. split; [exact Hn|].
  split; [| exact Hu].
  apply (proj2 (checkCandle_spec side sl tp c)). exact Hc.
Qed.

(** X13.  [checkSignalHit] never reports a hit for a side other than LONG
    and SHORT, nor for a signal whose stop and target are both NaN. *)
Theorem checkSignalHit_never (net : Network) (symbol side : string)
    (entry sl tp : num) (lookbackMinutes : Z) :
  (side <> "LONG" /\ side <> "SHORT") \/ (sl = NaN /\ tp = NaN) ->
  checkSignalHit net symbol side entry sl tp lookbackMinutes = NoHit.
Proof.
  intro H. unfold checkSignalHit.
  destruct (loadCandles net symbol "1m" _) as [candles|]; [| reflexivity].
  destruct (List.length candles =? 0)%nat; [reflexivity|].
  apply scanFrom_none. apply Forall_forall. intros c _.
  unfold untouched, tpTouched, slTouched.
  destruct H as [[H1 H2] | [-> ->]].
  - split; intros [[E _] | [E _]]; contradiction.
  - split; intros [[_ E] | [_ E]]; revert E; unfold leP;
      repeat match goal with |- context [match ?x with _ => _ end] => destruct x end;
      auto.
Qed.

(** *** The scan on candles in time order *)

Lemma timeLe_trans (a b c : Candle) : timeLe a b -> timeLe b c -> timeLe a c.
Proof.
  unfold timeLe, leP. destruct (t a), (t b), (t c); try contradiction.
  apply Qle_trans.
Qed.

Lemma sorted_nth (l : list Candle) :
  Sorted timeLe l ->
  forall i j a b, (i < j)%nat -> nth_error l i = Some a -> nth_error l j = Some b ->
                  timeLe a b.
Proof.
  intro Hs. apply Sorted_StronglySorted in Hs; [| intros x y z; apply timeLe_trans].
  induction Hs as [| x rest Hrest IH Hx]; intros i j a b Hij Ha Hb.
  - destruct i; discriminate.
  - destruct j as [| j]; [lia|]. destruct i as [| i].
    + cbn in Ha. inversion Ha; subst a.
      rewrite Forall_forall in Hx. apply Hx. eapply nth_error_In. exact Hb.
    + cbn in Ha, Hb. apply (IH i j); [lia | assumption | assumption].
Qed.

(** The candles of a Bybit answer are sorted. *)
Lemma loaded_sorted (net : Network) (symbol interval : string) (limit : Z)
    (candles : list Candle) :
  loadCandles net symbol interval limit = Ok candles ->
  (forall source, In source DATA_SOURCES -> includes (name source) "Bybit" = false ->
                  trySource net symbol interval limit source = None) ->
  Forall (fun c => defined (t c)) candles ->
  Sorted timeLe candles.
Proof.
  unfold loadCandles. intros Hl Hb Hd.
  apply trySources_inv in Hl. destruct Hl as (source & Hin & Hs).
  destruct (includes (name source) "Bybit") eqn:E.
  - apply trySource_inv in Hs. destruct Hs as (_ & raw & _ & Hn).
    destruct (normalize_bybit _ _ E Hn) as (items & mapped & _ & _ & ->).
    apply sort_sorted. rewrite Forall_forall in *. intros c Hc. apply Hd.
    apply Permutation_in with (l := mapped); [apply sort_perm | assumption].
  - rewrite (Hb source Hin E) in Hs. discriminate.
Qed.

(** X25.  When no Binance provider delivers, so that the candles are those
    of a Bybit answer, and every open time is a number, the loaded
    candles are in ascending time order and [checkSignalHit] resolves at
    the oldest candle that touches a bound: no loaded candle that
    touches a bound stands before the reported one or has an earlier
    open time. *)
Theorem checkSignalHit_oldest (net : Network) (symbol side : string)
    (entry sl tp : num) (lookbackMinutes : Z) (candles : list Candle)
    (st : string) (idx : nat) (c : Candle) :
  loadCandles net symbol "1m" (clamped lookbackMinutes) = Ok candles ->
  (forall source, In source DATA_SOURCES -> includes (name source) "Bybit" = false ->
                  trySource net symbol "1m" (clamped lookbackMinutes) source = None) ->
  Forall (fun c => defined (t c)) candles ->
  checkSignalHit net symbol side entry sl tp lookbackMinutes = Hit st idx c ->
  Sorted timeLe candles
  /\ nth_error candles idx = Some c
  /\ forall j c',
       nth_error candles j = Some c' ->
       tpTouched side tp c' \/ slTouched side sl c' ->
       (idx <= j)%nat /\ timeLe c c'.
Proof.
  intros Hl Hb Hd Hh.
  pose proof (loaded_sorted _ _ _ _ Hl Hb Hd) as Hs.
  unfold checkSignalHit in Hh. fold (clamped lookbackMinutes) in Hh. rewrite Hl in Hh.
  destruct (List.length candles =? 0)%nat; [discriminate|].
  apply scanFrom_inv in Hh. destruct Hh as (j0 & -> & Hn & Hc & Hu).
  cbn [Nat.add]. split; [exact Hs|]. split; [exact Hn|].
  intros j c' Hj Ht.
  assert (Hle : (j0 <= j)%nat).
  { destruct (Nat.le_gt_cases j0 j) as [H | H]; [exact H | exfalso].
    rewrite Forall_forall in Hu.
    assert (Hin : In c' (firstn j0 candles)).
    { apply nth_error_In with (n := j). rewrite nth_error_firstn.
      destruct (Nat.ltb_spec j j0); [exact Hj | lia]. }
    destruct (Hu c' Hin) as [H1 H2]. destruct Ht; contradiction. }
  split; [exact Hle|].
  destruct (Nat.eq_dec j0 j) as [-> | Hne].
  - rewrite Hn in Hj. inversion Hj; subst c'.
    rewrite Forall_forall in Hd. pose proof (Hd c (nth_error_In _ _ Hn)) as Hdc.
    unfold timeLe, leP. destruct (t c); [discriminate Hdc | apply Qle_refl].
  - apply (sorted_nth Hs) with (i := j0) (j := j); [lia | assumption | assumption].
Qed.
End CheckMore.


(** *** Subscribers and broadcast *)

Module SubscriberFacts.
Import Subscribers.

Lemma has_keys (k : Z) (m : UserMap) : has k m = true <-> In k (keys m).
Proof.
  induction m as [| [k' u] rest IH]; simpl; [split; [discriminate | tauto]|].
  rewrite orb_true_iff, IH, Z.eqb_eq. intuition congruence.
Qed.

Lemma has_get (k : Z) (m : UserMap) : has k m = true <-> get k m <> None.
Proof.
  induction m as [| [k' u] rest IH]; simpl; [split; [discriminate | congruence]|].
  destruct (k =? k')%Z; simpl; [split; [discriminate | reflexivity] | exact IH].
Qed.

Lemma set_fresh (k : Z) (u : User) (m : UserMap) :
  has k m = false -> set k u m = m ++ [(k, u)].
Proof.
  induction m as [| [k' u'] rest IH]; simpl; [reflexivity|].
  destruct (k =? k')%Z; simpl; [discriminate|]. intro H. rewrite IH by assumption.
  reflexivity.
Qed.

Lemma keys_set (k : Z) (u : User) (m : UserMap) :
  keys (set k u m) = if has k m then keys m else keys m ++ [k].
Proof.
  induction m as [| [k' u'] rest IH]; simpl; [reflexivity|].
  destruct (Z.eqb_spec k k') as [-> | Hne]; simpl; [reflexivity|].
  rewrite IH. destruct (has k rest); reflexivity.
Qed.

Lemma get_set (k k' : Z) (u : User) (m : UserMap) :
  get k' (set k u m) = if (k' =? k)%Z then Some u else get k' m.
Proof.
  induction m as [| [k0 u0] rest IH]; simpl.
  - destruct (k' =? k)%Z; reflexivity.
  - destruct (Z.eqb_spec k k0) as [-> | Hne]; simpl.
    + destruct (k' =? k0)%Z; reflexivity.
    + rewrite IH. destruct (Z.eqb_spec k' k0) as [-> | Hne'].
      * destruct (Z.eqb_spec k0 k); [congruence | reflexivity].
      * reflexivity.
Qed.

Lemma delete_filter (k : Z) (m : UserMap) :
  delete k m = filter (fun e => negb (fst e =? k)%Z) m.
Proof.
  induction m as [| [k' u'] rest IH]; simpl; [reflexivity|].
  rewrite (Z.eqb_sym k' k). destruct (k =? k')%Z; simpl; rewrite IH; reflexivity.
Qed.

Lemma get_delete (k k' : Z) (m : UserMap) :
  get k' (delete k m) = if (k' =? k)%Z then None else get k' m.
Proof.
  induction m as [| [k0 u0] rest IH]; simpl.
  - destruct (k' =? k)%Z; reflexivity.
  - destruct (Z.eqb_spec k k0) as [-> | Hne]; simpl.
    + rewrite IH. destruct (k' =? k0)%Z; reflexivity.
    + rewrite IH. destruct (Z.eqb_spec k' k0) as [-> | Hne'].
      * destruct (Z.eqb_spec k0 k); [congruence | reflexivity].
      * reflexivity.
Qed.

Lemma NoDup_keys_filter (p : Z * User -> bool) (m : UserMap) :
  NoDup (keys m) -> NoDup (keys (filter p m)).
Proof.
  unfold keys. induction m as [| e rest IH]; simpl; [constructor|].
  intro H. inversion H; subst. destruct (p e); simpl; [| auto].
  constructor; [| auto].
  intro Hin. apply in_map_iff in Hin. destruct Hin as (x & Hx & Hf).
  apply filter_In in Hf. destruct Hf as [Hf _].
  apply H2. apply in_map_iff. eauto.
Qed.

Lemma delete_app_fresh (k : Z) (u : User) (m : UserMap) :
  has k m = false -> delete k (m ++ [(k, u)]) = m.
Proof.
  induction m as [| [k' u'] rest IH]; simpl.
  - rewrite Z.eqb_refl. reflexivity.
  - destruct (k =? k')%Z; simpl; [discriminate|]. intro H. rewrite IH by assumption.
    reflexivity.
Qed.

(** X14.  For a Map with distinct keys: [/start] of a chat that is not
    subscribed appends it as the last entry, after which it is
    subscribed, and [/stop] then restores the Map; [/start] of a
    subscribed chat and [/stop] of an unsubscribed one leave the Map as
    it is; after [/stop] the chat is not subscribed; neither handler
    touches the entry of another chat, and the keys stay distinct. *)
Theorem start_stop (now chat : Z) (from : option From) (m : UserMap) :
  NoDup (keys m) ->
  let m1 := fst (onStart now chat from m) in
  let m2 := fst (onStop chat m) in
  has chat m1 = true /\ has chat m2 = false
  /\ NoDup (keys m1) /\ NoDup (keys m2)
  /\ (forall k, k <> chat -> get k m1 = get k m /\ get k m2 = get k m)
  /\ (has chat m = true -> onStart now chat from m = (m, AlreadySubscribed))
  /\ (has chat m = false ->
      onStop chat m = (m, NotSubscribed)
      /\ keys m1 = keys m ++ [chat]
      /\ fst (onStop chat m1) = m)
  /\ fst (onStart now chat from m1) = m1.
Proof.
  intros Hnd m1 m2. subst m1 m2. unfold onStart, onStop.
  destruct (has chat m) eqn:Eh; cbn [negb fst].
  - split; [exact Eh|]. split.
    { destruct (has chat (delete chat m)) eqn:E; [| reflexivity].
      apply has_get in E. rewrite get_delete, Z.eqb_refl in E. congruence. }
    split; [exact Hnd|]. split; [rewrite delete_filter; apply NoDup_keys_filter; exact Hnd|].
    split.
    { intros k Hk. split; [reflexivity|]. rewrite get_delete.
      destruct (Z.eqb_spec k chat); [contradiction | reflexivity]. }
    split; [reflexivity|]. split; [discriminate|].
    rewrite Eh. reflexivity.
  - set (obj := {| chatId := chat |}).
    assert (Hh : has chat (set chat obj m) = true).
    { apply has_get. rewrite get_set, Z.eqb_refl. discriminate. }
    split; [exact Hh|]. split; [exact Eh|].
    split.
    { rewrite keys_set, Eh. apply NoDup_app; [exact Hnd | repeat constructor; simpl; tauto |].
      intros x Hx [<- | []]. apply has_keys in Hx. congruence. }
    split; [exact Hnd|]. split.
    { intros k Hk. split; [| reflexivity]. rewrite get_set.
      destruct (Z.eqb_spec k chat); [contradiction | reflexivity]. }
    split; [discriminate|]. split.
    { intros _. split; [reflexivity|]. split; [rewrite keys_set, Eh; reflexivity|].
      rewrite Hh. cbn [fst]. rewrite set_fresh by exact Eh.
      apply delete_app_fresh. exact Eh. }
    rewrite Hh. reflexivity.
Qed.

Lemma loadUsers_keys (users : list User) :
  forall m, NoDup (keys m) ->
    NoDup (keys (fold_left (fun m u => set (chatId u) u m) users m))
    /\ forall k, has k (fold_left (fun m u => set (chatId u) u m) users m) = true
                 <-> has k m = true \/ In k (map chatId users).
Proof.
  induction users as [| u rest IH]; intros m Hnd; cbn [fold_left map].
  - split; [exact Hnd|]. intro k. simpl. tauto.
  - assert (Hnd' : NoDup (keys (set (chatId u) u m))).
    { rewrite keys_set. destruct (has (chatId u) m) eqn:E; [exact Hnd|].
      apply NoDup_app; [exact Hnd | repeat constructor; simpl; tauto |].
      intros x Hx [<- | []]. apply has_keys in Hx. congruence. }
    destruct (IH _ Hnd') as [H1 H2]. split; [exact H1|].
    intro k. rewrite H2. rewrite !has_get, get_set. simpl.
    destruct (Z.eqb_spec k (chatId u)) as [-> | Hne].
    + split; [auto | intros _; left; discriminate].
    + intuition congruence.
Qed.

(** X15.  [loadState] rebuilds the Map from the stored users with distinct
    keys, one entry for each chat id that occurs in the file, and a chat
    id that occurs several times is given the last of its records. *)
Theorem loadUsers_spec (users : list User) :
  NoDup (keys (loadUsers users))
  /\ (forall k, has k (loadUsers users) = true <-> In k (map chatId users))
  /\ (forall pre u, users = pre ++ [u] -> get (chatId u) (loadUsers users) = Some u)
  /\ (forall pre u post,
        users = pre ++ u :: post -> ~ In (chatId u) (map chatId post) ->
        get (chatId u) (loadUsers users) = Some u).
Proof.
  unfold loadUsers.
  destruct (@loadUsers_keys users [] (NoDup_nil Z)) as [H1 H2].
  assert (Hlast : forall pre u post m,
             ~ In (chatId u) (map chatId post) ->
             get (chatId u)
               (fold_left (fun m u => set (chatId u) u m) (pre ++ u :: post) m)
             = Some u).
  { intros pre u post m Hn. rewrite fold_left_app. cbn [fold_left].
    set (m' := set (chatId u) u (fold_left _ pre m)).
    assert (Hg : get (chatId u) m' = Some u)
      by (subst m'; rewrite get_set, Z.eqb_refl; reflexivity).
    clearbody m'. revert m' Hg. induction post as [| v post IH]; intros m' Hg;
      cbn [fold_left]; [exact Hg|].
    apply IH; [simpl in Hn; tauto|].
    rewrite get_set. destruct (Z.eqb_spec (chatId u) (chatId v)) as [E | _];
      [simpl in Hn; exfalso; apply Hn; left; congruence | exact Hg]. }
  split; [exact H1|]. split.
  { intro k. rewrite H2. simpl. intuition discriminate. }
  split.
  - intros pre u ->. apply Hlast. simpl. tauto.
  - intros pre u post -> Hn. apply Hlast. exact Hn.
Qed.

Lemma broadcastLoop_spec (send : Z -> SendResult) (todo : list (Z * User)) :
  forall m success fail,
    broadcastLoop send todo m success fail
    = (filter (fun e => negb (existsb (fun t => (fst t =? fst e)%Z && negb (kept send t))
                                todo)) m,
       ((success + List.length (filter (delivered send) todo))%nat,
        (fail + List.length (filter (fun e => negb (delivered send e)) todo))%nat)).
Proof.
  induction todo as [| [k u] rest IH]; intros m success fail; cbn [broadcastLoop].
  - cbn [existsb negb filter List.length]. rewrite !Nat.add_0_r.
    f_equal. induction m as [| e m IHm]; [reflexivity|]. cbn [filter]. congruence.
  - cbn [existsb filter fst].
    destruct (send k) as [| err] eqn:Es.
    + assert (Ek : kept send (k, u) = true) by (unfold kept; cbn [fst]; rewrite Es; reflexivity).
      assert (Ed : delivered send (k, u) = true)
        by (unfold delivered; cbn [fst]; rewrite Es; reflexivity).
      rewrite IH, Ed. cbn [negb List.length]. f_equal; [| f_equal; lia].
      apply filter_ext. intro e. rewrite Ek, andb_false_r. reflexivity.
    + assert (Ek : kept send (k, u) = negb (removable err))
        by (unfold kept; cbn [fst]; rewrite Es; reflexivity).
      assert (Ed : delivered send (k, u) = false)
        by (unfold delivered; cbn [fst]; rewrite Es; reflexivity).
      rewrite IH, Ed. cbn [negb List.length]. f_equal; [| f_equal; lia].
      destruct (removable err).
      * rewrite delete_filter, Ek. cbn [negb].
        induction m as [| e m IHm]; [reflexivity|]. cbn [filter].
        rewrite (Z.eqb_sym k (fst e)), andb_true_r.
        destruct (fst e =? k)%Z; cbn [negb andb orb filter]; [exact IHm|].
        destruct (negb (existsb _ rest)); [f_equal|]; exact IHm.
      * apply filter_ext. intro e. rewrite Ek, andb_false_r. reflexivity.
Qed.

(** X16.  [broadcastToAllUsers] tries every subscriber once: the two
    counts add up to the number of subscribers, [success] counting the
    sends that succeeded; afterwards the Map holds, in their order, the
    subscribers whose send succeeded or failed with an error that is
    neither status 403 nor code ETELEGRAM. *)
Theorem broadcastToAllUsers_spec (send : Z -> SendResult) (m : UserMap) :
  let '(m', (success, fail)) := broadcastToAllUsers send m in
  m' = filter (kept send) m
  /\ success = List.length (filter (delivered send) m)
  /\ (success + fail)%nat = List.length m
  /\ (NoDup (keys m) -> NoDup (keys m'))
  /\ (forall e, In e m -> delivered send e = true -> In e m').
Proof.
  unfold broadcastToAllUsers. rewrite broadcastLoop_spec. cbn [Nat.add].
  assert (E : filter (fun e => negb (existsb (fun t => (fst t =? fst e)%Z
                                                      && negb (kept send t)) m)) m
              = filter (kept send) m).
  { apply filter_ext_in. intros e He.
    destruct (kept send e) eqn:Ek.
    - apply negb_true_iff. apply not_true_is_false. intro Hx.
      apply existsb_exists in Hx. destruct Hx as (x & _ & Hx).
      apply andb_true_iff in Hx. destruct Hx as [Hk Hn].
      apply Z.eqb_eq in Hk. unfold kept in *. rewrite Hk in Hn.
      rewrite Ek in Hn. discriminate.
    - apply negb_false_iff. apply existsb_exists. exists e.
      split; [exact He|]. rewrite Z.eqb_refl, Ek. reflexivity. }
  rewrite E. split; [reflexivity|]. split; [reflexivity|]. split.
  - induction m as [| e m IHm]; [reflexivity|]. cbn [filter List.length].
    assert (IH' : (List.length (filter (delivered send) m)
                   + List.length (filter (fun e => negb (delivered send e)) m))%nat
                  = List.length m).
    { clear -m. induction m as [| x m IH]; [reflexivity|]. cbn [filter List.length].
      destruct (delivered send x); cbn [negb List.length]; lia. }
    destruct (delivered send e); cbn [negb List.length]; lia.
  - split; [apply NoDup_keys_filter|].
    intros e He Hd. apply filter_In. split; [exact He|].
    unfold kept, delivered in *. destruct (send (fst e)); [reflexivity | discriminate].
Qed.

End SubscriberFacts.


(** *** The monitor over several ticks *)

Module LifecycleFacts.
Import Lifecycle.

Lemma maxChecks_value : Index.maxChecks = 48%Z.
Proof. reflexivity. Qed.

Section Ticks.
Context {rt : JsRuntime}.

(** The three outcomes of a tick of an OPEN signal. *)
Lemma tick_outcome (net : Network) (now : Z) (s : Index.Signal) :
  Index.status s = "OPEN" ->
  (exists st idx c,
      hitOf net s = Hit st idx c /\ (st = "TP" \/ st = "SL")
      /\ Index.monitorTick net now s = (afterHit s st now, hitEvents s st now))
  \/ (hitOf net s = NoHit
      /\ (Index.maxChecks <= Index.monitorChecks s + 1)%Z
      /\ Index.monitorTick net now s = (afterExpiry s now, expiryEvents s))
  \/ (hitOf net s = NoHit
      /\ (Index.monitorChecks s + 1 < Index.maxChecks)%Z
      /\ Index.monitorTick net now s = (checked s now None, [])).
Proof.
  intro Ho. unfold hitOf.
  destruct (checkSignalHit net (Index.symbol s) (Index.side s) (Index.entry s)
              (Index.sl s) (Index.tp s) 120) as [| st idx c] eqn:Er.
  - right.
    destruct (Z.geb_spec (Index.monitorChecks s + 1) Index.maxChecks) as [Hge | Hlt].
    + left. split; [reflexivity|]. split; [exact Hge|].
      unfold Index.monitorTick. rewrite Ho, Er. cbn.
      destruct (Z.geb_spec (Index.monitorChecks s + 1) 48); [reflexivity|].
      rewrite maxChecks_value in Hge. lia.
    + right. split; [reflexivity|]. split; [exact Hlt|].
      unfold Index.monitorTick. rewrite Ho, Er. cbn.
      destruct (Z.geb_spec (Index.monitorChecks s + 1) 48); [| reflexivity].
      rewrite maxChecks_value in Hlt. lia.
  - left. pose proof (hit_status _ _ _ _ _ _ _ Er) as Hst.
    exists st, idx, c. split; [reflexivity|]. split; [exact Hst|].
    unfold Index.monitorTick. rewrite Ho, Er. cbn.
    destruct Hst as [-> | ->]; reflexivity.
Qed.

Lemma wf_afterHit (s : Index.Signal) (st : string) (now : Z) :
  wellFormed s -> Index.status s = "OPEN" -> st = "TP" \/ st = "SL" ->
  wellFormed (afterHit s st now).
Proof.
  intros (H1 & H2 & H3 & H4 & H5 & H6 & H7 & H8 & H9 & H10 & H11 & H12) Ho Hst.
  pose proof maxChecks_value as Hmax.
  unfold wellFormed, afterHit, checked, ordered in *. cbn.
  split; [destruct Hst as [-> | ->]; simpl; tauto|].
  split; [split; intro E; [destruct Hst; congruence | discriminate]|].
  split; [split; intro E; [destruct Hst; congruence | discriminate]|].
  split; [rewrite length_app; simpl; lia|].
  split; [specialize (H6 Ho); lia|].
  split; [intro E; destruct Hst; congruence|].
  split; [intro E; destruct Hst; congruence|].
  split; [intros _; exists (Index.monitorHistory s), now; auto|].
  split; [intros [E | E]; destruct Hst; congruence|].
  auto.
Qed.

Lemma wf_afterExpiry (s : Index.Signal) (now : Z) :
  wellFormed s -> Index.status s = "OPEN" ->
  (Index.maxChecks <= Index.monitorChecks s + 1)%Z ->
  wellFormed (afterExpiry s now).
Proof.
  intros (H1 & H2 & H3 & H4 & H5 & H6 & H7 & H8 & H9 & H10 & H11 & H12) Ho Hm.
  pose proof maxChecks_value as Hmax.
  unfold wellFormed, afterExpiry, checked, ordered in *. cbn.
  specialize (H6 Ho).
  split; [simpl; tauto|].
  split; [split; intro E; discriminate|].
  split; [split; intro E; discriminate|].
  split; [rewrite length_app; simpl; lia|].
  split; [lia|].
  split; [intro E; discriminate|].
  split; [intros _; lia|].
  split; [intros [E | E]; discriminate|].
  split; [intros _; apply Forall_app; split; [auto | repeat constructor]|].
  auto.
Qed.

Lemma wf_checked (s : Index.Signal) (now : Z) :
  wellFormed s -> Index.status s = "OPEN" ->
  (Index.monitorChecks s + 1 < Index.maxChecks)%Z ->
  wellFormed (checked s now None).
Proof.
  intros (H1 & H2 & H3 & H4 & H5 & H6 & H7 & H8 & H9 & H10 & H11 & H12) Ho Hm.
  pose proof maxChecks_value as Hmax.
  unfold wellFormed, checked, ordered in *. cbn.
  split; [exact H1|]. split; [exact H2|]. split; [exact H3|].
  split; [rewrite length_app; simpl; lia|].
  split; [lia|].
  split; [intros _; exact Hm|].
  split; [intro E; congruence|].
  split; [intros [E | E]; congruence|].
  split; [intros _; apply Forall_app; split; [auto | repeat constructor]|].
  auto.
Qed.

Lemma wf_closed_idle (s : Index.Signal) :
  wellFormed s -> Index.status s <> "OPEN" -> Index.monitorInterval s = false.
Proof.
  intros (_ & _ & H3 & _) Hc.
  destruct (Index.monitorInterval s); [| reflexivity].
  exfalso. apply Hc. apply H3. reflexivity.
Qed.

Lemma wf_open_running (s : Index.Signal) :
  wellFormed s -> Index.monitorInterval s = true -> Index.status s = "OPEN".
Proof. intros (_ & _ & H3 & _) Hi. apply H3. exact Hi. Qed.

Lemma wf_tick (net : Network) (now : Z) (s : Index.Signal) :
  wellFormed s -> Index.monitorInterval s = true ->
  wellFormed (fst (Index.monitorTick net now s)).
Proof.
  intros Hw Hi. pose proof (wf_open_running Hw Hi) as Ho.
  destruct (@tick_outcome net now s Ho)
    as [(st & idx & c & _ & Hst & ->) | [(_ & Hm & ->) | (_ & Hm & ->)]]; cbn [fst].
  - apply wf_afterHit; assumption.
  - apply wf_afterExpiry; assumption.
  - apply wf_checked; assumption.
Qed.

Lemma runTicks_idle (ticks : list (Network * Z)) (s : Index.Signal) :
  Index.monitorInterval s = false -> runTicks ticks s = (s, []).
Proof. intro H. destruct ticks as [| [net now] rest]; cbn; [| rewrite H]; reflexivity. Qed.

Lemma sameSignal_refl (s : Index.Signal) : sameSignal s s.
Proof. unfold sameSignal. repeat split. Qed.

Lemma sameSignal_trans (s1 s2 s3 : Index.Signal) :
  sameSignal s1 s2 -> sameSignal s2 s3 -> sameSignal s1 s3.
Proof.
  unfold sameSignal.
  intros (A1 & A2 & A3 & A4 & A5 & A6 & A7 & A8 & A9)
         (B1 & B2 & B3 & B4 & B5 & B6 & B7 & B8 & B9).
  repeat split; congruence.
Qed.

Lemma tick_same (net : Network) (now : Z) (s : Index.Signal) :
  sameSignal s (fst (Index.monitorTick net now s)).
Proof.
  unfold Index.monitorTick, sameSignal.
  destruct (negb _); [cbn; repeat split|].
  destruct (hitStatus _) as [st|];
    [destruct (_ || _)|]; try destruct (_ >=? _)%Z; cbn; repeat split.
Qed.

Lemma hitOf_same (net : Network) (s s' : Index.Signal) :
  sameSignal s s' -> hitOf net s' = hitOf net s.
Proof.
  unfold sameSignal, hitOf. intros (_ & -> & -> & -> & -> & -> & _). reflexivity.
Qed.

Lemma count_app (A : Type) (p : A -> bool) (l1 l2 : list A) :
  count p (l1 ++ l2) = (count p l1 + count p l2)%nat.
Proof. unfold count. rewrite filter_app, length_app. reflexivity. Qed.

Lemma isClosed_open (s : Index.Signal) : Index.status s = "OPEN" <-> isClosed s = false.
Proof.
  unfold isClosed. rewrite negb_false_iff. symmetry. apply String.eqb_eq.
Qed.

Lemma isClosed_closed (s : Index.Signal) : Index.status s <> "OPEN" <-> isClosed s = true.
Proof.
  unfold isClosed. rewrite negb_true_iff. symmetry. apply String.eqb_neq.
Qed.

Lemma afterHit_closed (s : Index.Signal) (st : string) (now : Z) :
  st = "TP" \/ st = "SL" -> isClosed (afterHit s st now) = true.
Proof. intros [-> | ->]; reflexivity. Qed.

(** What a run of ticks does to a signal that satisfies [wellFormed]. *)
Lemma runTicks_inv (ticks : list (Network * Z)) :
  forall s, wellFormed s ->
    wellFormed (fst (runTicks ticks s))
    /\ sameSignal s (fst (runTicks ticks s))
    /\ (exists more,
          Index.monitorHistory (fst (runTicks ticks s)) = Index.monitorHistory s ++ more
          /\ (List.length more <= List.length ticks)%nat)
    /\ count isSignalMsg (snd (runTicks ticks s)) = 0%nat
    /\ count isClosingMsg (snd (runTicks ticks s))
       = (if isClosed (fst (runTicks ticks s)) && negb (isClosed s) then 1 else 0)%nat.
Proof.
  induction ticks as [| [net now] rest IH]; intros s Hw.
  - cbn. split; [exact Hw|]. split; [apply sameSignal_refl|].
    split; [exists []; rewrite app_nil_r; auto|]. split; [reflexivity|].
    destruct (isClosed s); reflexivity.
  - cbn [runTicks]. destruct (Index.monitorInterval s) eqn:Hi.
    + pose proof (wf_open_running Hw Hi) as Ho.
      pose proof (proj1 (isClosed_open s) Ho) as Hc.
      destruct (@tick_outcome net now s Ho)
        as [(st & idx & c & _ & Hst & E) | [(_ & Hm & E) | (_ & Hm & E)]]; rewrite E.
      * rewrite runTicks_idle by reflexivity. cbn [fst snd].
        split; [apply wf_afterHit; assumption|].
        split; [unfold sameSignal; cbn; repeat split|].
        split; [exists [(now, Some st)]; split; [reflexivity | simpl; lia]|].
        rewrite afterHit_closed, Hc by assumption. split; reflexivity.
      * rewrite runTicks_idle by reflexivity. cbn [fst snd].
        split; [apply wf_afterExpiry; assumption|].
        split; [unfold sameSignal; cbn; repeat split|].
        split; [exists [(now, None)]; split; [reflexivity | simpl; lia]|].
        rewrite Hc. split; reflexivity.
      * pose proof (wf_checked now Hw Ho Hm) as Hw'.
        destruct (IH _ Hw') as (I1 & I2 & (more & I3 & I3') & I4 & I5).
        destruct (runTicks rest (checked s now None)) as [s' ev]. cbn [fst snd app] in *.
        split; [exact I1|].
        split; [eapply sameSignal_trans; [| exact I2]; unfold sameSignal; cbn; repeat split|].
        split.
        { exists ((now, None) :: more). split; [| simpl; lia].
          rewrite I3. cbn. rewrite <- app_assoc. reflexivity. }
        split; [exact I4|].
        rewrite I5. reflexivity.
    + cbn [fst snd]. split; [exact Hw|]. split; [apply sameSignal_refl|].
      split; [exists []; rewrite app_nil_r; split; [reflexivity | simpl; lia]|].
      split; [reflexivity|].
      destruct (isClosed s); reflexivity.
Qed.

(** X17.  The monitor of one signal, each callback complete before the
    next: a signal that is well formed stays so over any number of
    ticks; the fields it was registered with never change; its history
    only grows, by at most one entry per tick; nothing is announced as a
    new signal, and exactly one closing message is broadcast if the
    signal goes from OPEN to closed, none otherwise; a signal that is
    already closed is left as it is, with nothing persisted or sent. *)
Theorem runTicks_lifecycle (ticks : list (Network * Z)) (s : Index.Signal) :
  wellFormed s ->
  wellFormed (fst (runTicks ticks s))
  /\ sameSignal s (fst (runTicks ticks s))
  /\ (exists more,
        Index.monitorHistory (fst (runTicks ticks s)) = Index.monitorHistory s ++ more
        /\ (List.length more <= List.length ticks)%nat)
  /\ count isSignalMsg (snd (runTicks ticks s)) = 0%nat
  /\ count isClosingMsg (snd (runTicks ticks s))
     = (if isClosed (fst (runTicks ticks s)) && negb (isClosed s) then 1 else 0)%nat
  /\ (Index.status s <> "OPEN" -> runTicks ticks s = (s, [])).
Proof.
  intro Hw.
  destruct (runTicks_inv ticks Hw) as (H1 & H2 & H3 & H4 & H5).
  repeat (split; [assumption|]).
  intro Hc. apply runTicks_idle. apply wf_closed_idle; assumption.
Qed.

Lemma quiet_fields (ticks : list (Network * Z)) :
  forall s,
    sameSignal s (quiet ticks s)
    /\ Index.status (quiet ticks s) = Index.status s
    /\ Index.monitorInterval (quiet ticks s) = Index.monitorInterval s
    /\ Index.resolvedAt (quiet ticks s) = Index.resolvedAt s
    /\ Index.monitorChecks (quiet ticks s)
       = (Index.monitorChecks s + Z.of_nat (List.length ticks))%Z
    /\ Index.monitorHistory (quiet ticks s)
       = Index.monitorHistory s ++ map (fun t => (snd t, None)) ticks.
Proof.
  induction ticks as [| t rest IH]; intro s.
  - cbn. split; [apply sameSignal_refl|]. repeat (split; [reflexivity|]).
    split; [lia | rewrite app_nil_r; reflexivity].
  - change (quiet (t :: rest) s) with (quiet rest (checked s (snd t) None)).
    destruct (IH (checked s (snd t) None)) as (I1 & I2 & I3 & I4 & I5 & I6).
    split; [eapply sameSignal_trans; [| exact I1]; unfold sameSignal; cbn; repeat split|].
    split; [exact I2|]. split; [exact I3|]. split; [exact I4|].
    split.
    + rewrite I5. cbn [checked Index.setMonitor Index.monitorChecks List.length]. lia.
    + rewrite I6. cbn. rewrite <- app_assoc. reflexivity.
Qed.

(** Ticks that find nothing and stay below the ceiling only record
    their checks. *)
Lemma runTicks_app_quiet (pre rest : list (Network * Z)) :
  forall s,
    Index.status s = "OPEN" -> Index.monitorInterval s = true ->
    Forall (fun t => hitOf (fst t) s = NoHit) pre ->
    (Index.monitorChecks s + Z.of_nat (List.length pre) < Index.maxChecks)%Z ->
    runTicks (pre ++ rest) s = runTicks rest (quiet pre s).
Proof.
  induction pre as [| [net now] pre IH]; intros s Ho Hi Hq Hm; [reflexivity|].
  inversion Hq as [| ? ? Hq1 Hq2]; subst. cbn [fst] in Hq1.
  cbn [app runTicks]. rewrite Hi.
  cbn [List.length] in Hm.
  destruct (@tick_outcome net now s Ho)
    as [(st & idx & c & E & _) | [(_ & Hx & _) | (_ & _ & E)]];
    [congruence | lia |].
  rewrite E.
  change (quiet ((net, now) :: pre) s) with (quiet pre (checked s now None)).
  rewrite (IH (checked s now None)); [| exact Ho | exact Hi | exact Hq2 |].
  - destruct (runTicks rest _) as [s' ev]. reflexivity.
  - cbn [checked Index.setMonitor Index.monitorChecks]. lia.
Qed.

(** X18.  A signal that no check resolves is closed by the tick that
    brings its count of checks to [maxChecks]: until then it stays OPEN
    and nothing is persisted or sent; that tick makes it EXPIRED at its
    time and broadcasts the expiry, and later ticks do nothing.
    [maxChecks] intervals are [MAX_MONITOR_HOURS] minutes, not hours. *)
Theorem runTicks_expiry (pre post : list (Network * Z)) (net : Network) (now : Z)
    (s : Index.Signal) :
  Index.status s = "OPEN" -> Index.monitorInterval s = true ->
  Forall (fun t => hitOf (fst t) s = NoHit) (pre ++ [(net, now)]) ->
  (Index.monitorChecks s + Z.of_nat (List.length pre) + 1 = Index.maxChecks)%Z ->
  runTicks pre s = (quiet pre s, [])
  /\ Index.status (quiet pre s) = "OPEN"
  /\ runTicks (pre ++ (net, now) :: post) s
     = (afterExpiry (quiet pre s) now, expiryEvents s)
  /\ Index.status (afterExpiry (quiet pre s) now) = "EXPIRED"
  /\ Index.resolvedAt (afterExpiry (quiet pre s) now) = Some now
  /\ Index.monitorChecks (afterExpiry (quiet pre s) now) = Index.maxChecks
  /\ (Index.maxChecks * Index.MONITOR_CHECK_INTERVAL_MS
      = Index.MAX_MONITOR_HOURS * 60 * 1000)%Z.
Proof.
  intros Ho Hi Hq Hm.
  apply Forall_app in Hq. destruct Hq as [Hq Hl].
  inversion Hl as [| ? ? Hn _]; subst. cbn [fst] in Hn.
  destruct (quiet_fields pre s) as (Hs & Hst & Hint & _ & Hch & _).
  assert (Hlt : (Index.monitorChecks s + Z.of_nat (List.length pre) < Index.maxChecks)%Z)
    by lia.
  split.
  { rewrite <- (app_nil_r pre) at 1. apply runTicks_app_quiet; assumption. }
  split; [congruence|].
  split.
  { rewrite runTicks_app_quiet by assumption.
    cbn [runTicks]. rewrite Hint, Hi.
    assert (Ho' : Index.status (quiet pre s) = "OPEN") by congruence.
    destruct (@tick_outcome net now (quiet pre s) Ho')
      as [(st & idx & c & E & _) | [(_ & _ & E) | (_ & Hx & _)]].
    - rewrite (hitOf_same net Hs) in E. congruence.
    - rewrite E. rewrite runTicks_idle by reflexivity.
      unfold expiryEvents. destruct Hs as (_ & -> & -> & _). reflexivity.
    - lia. }
  split; [reflexivity|]. split; [reflexivity|].
  split; [| reflexivity].
  cbn [afterExpiry Index.clearMonitor Index.resolve checked Index.setMonitor
       Index.monitorChecks]. lia.
Qed.

(** X19.  The first check that reports a hit closes the signal: after
    checks that found nothing, the tick whose check reports the status
    [st] sets that status (TP or SL) and the time of the tick, and
    broadcasts the resolution with the profit computed from the
    registered levels, also when that tick is the one that reaches
    [maxChecks]; later ticks do nothing. *)
Theorem runTicks_first_hit (pre post : list (Network * Z)) (net : Network) (now : Z)
    (s : Index.Signal) (st : string) (idx : nat) (c : Candle) :
  Index.status s = "OPEN" -> Index.monitorInterval s = true ->
  Forall (fun t => hitOf (fst t) s = NoHit) pre ->
  (Index.monitorChecks s + Z.of_nat (List.length pre) < Index.maxChecks)%Z ->
  hitOf net s = Hit st idx c ->
  runTicks (pre ++ (net, now) :: post) s
    = (afterHit (quiet pre s) st now,
       [Index.Persist; Index.Broadcast (resolvedMsg s st); Index.Persist; Index.Persist])
  /\ (st = "TP" \/ st = "SL")
  /\ Index.status (afterHit (quiet pre s) st now) = st
  /\ Index.resolvedAt (afterHit (quiet pre s) st now) = Some now
  /\ Index.monitorHistory (afterHit (quiet pre s) st now)
     = Index.monitorHistory s ++ map (fun t => (snd t, None)) pre ++ [(now, Some st)].
Proof.
  intros Ho Hi Hq Hm Hh.
  destruct (quiet_fields pre s) as (Hs & Hst & Hint & _ & Hch & Hhist).
  assert (Ho' : Index.status (quiet pre s) = "OPEN") by congruence.
  split.
  { rewrite runTicks_app_quiet by assumption.
    cbn [runTicks]. rewrite Hint, Hi.
    destruct (@tick_outcome net now (quiet pre s) Ho')
      as [(st' & idx' & c' & E & _ & E') | [(E & _) | (E & _)]];
      rewrite (hitOf_same net Hs) in E; [| congruence | congruence].
    rewrite Hh in E. inversion E; subst st' idx' c'.
    rewrite E'. rewrite runTicks_idle by reflexivity.
    unfold hitEvents, resolvedMsg, Index.pnlPct.
    destruct Hs as (_ & Hsym & Hsd & He & Hsl & Htp & _).
    cbn. rewrite Hsym, Hsd, He, Hsl, Htp. reflexivity. }
  split; [exact (hit_status _ _ _ _ _ _ _ Hh)|].
  split; [reflexivity|]. split; [reflexivity|].
  cbn [afterHit Index.clearMonitor Index.resolve checked Index.setMonitor
       Index.monitorHistory].
  rewrite Hhist, <- app_assoc. reflexivity.
Qed.

End Ticks.

Lemma toFixed_zero (d : nat) : toFixed d n0 =n= n0.
Proof.
  unfold toFixed, n0, eqn.
  rewrite (roundHalfAway_compat (Qmult_0_l (inject_Z (pow10 d)))).
  change 0 with (inject_Z 0). rewrite roundHalfAway_int.
  unfold Qdiv. apply Qmult_0_l.
Qed.

Lemma toFixed_nonneg (d : nat) (x : Q) : 0 <= x -> leP n0 (toFixed d (Num x)).
Proof.
  intro H. pose proof (toFixed_mono d H) as Hm. pose proof (toFixed_zero d) as Hz.
  unfold n0 in *. destruct (toFixed d (Num 0)) as [| z]; [contradiction|].
  destruct (toFixed d (Num x)) as [| y]; [contradiction|].
  unfold leP, eqn in *. lra.
Qed.

Lemma toFixed_nonpos (d : nat) (x : Q) : x <= 0 -> leP (toFixed d (Num x)) n0.
Proof.
  intro H. pose proof (toFixed_mono d H) as Hm. pose proof (toFixed_zero d) as Hz.
  unfold n0 in *. destruct (toFixed d (Num 0)) as [| z]; [destruct (toFixed d (Num x)); contradiction|].
  destruct (toFixed d (Num x)) as [| y]; [contradiction|].
  unfold leP, eqn in *. lra.
Qed.

Lemma ratio_nonneg (x e : Q) : 0 < e -> 0 <= x -> 0 <= x / e * 100.
Proof.
  intros He Hx. assert (0 <= x / e) by (apply Qle_shift_div_l; lra). lra.
Qed.

Lemma ratio_nonpos (x e : Q) : 0 < e -> x <= 0 -> x / e * 100 <= 0.
Proof.
  intros He Hx. assert (x / e <= 0) by (apply Qle_shift_div_r; lra). lra.
Qed.

(** X20.  For a signal whose levels are ordered and whose entry is
    positive, the profit reported for a resolution at the target is not
    negative and the one reported for a resolution at the stop is not
    positive. *)
Theorem pnlPct_sign (s : Index.Signal) :
  ordered s -> ltP n0 (Index.entry s) ->
  leP n0 (Index.pnlPct s "TP") /\ leP (Index.pnlPct s "SL") n0.
Proof.
  unfold ordered, Index.pnlPct. intros Hord He.
  change ("TP" =? "TP") with true. change ("SL" =? "TP") with false. cbv iota.
  destruct (Index.entry s) as [| e]; [contradiction|].
  unfold n0, ltP in He.
  assert (Hz : Qeq_bool e 0 = false).
  { apply Qeq_bool_false. lra. }
  destruct Hord as [(-> & H1 & H2) | (-> & H1 & H2)];
    [change ("LONG" =? "LONG") with true | change ("SHORT" =? "LONG") with false];
    cbv iota;
    destruct (Index.sl s) as [| a]; try contradiction;
    destruct (Index.tp s) as [| b]; try contradiction;
    unfold leP in H1, H2; unfold n100;
    cbn [sub div mul lift2]; rewrite Hz; cbn [mul lift2]; split;
    first [ apply toFixed_nonneg; apply ratio_nonneg; lra
          | apply toFixed_nonpos; apply ratio_nonpos; lra ].
Qed.

Lemma nth_error_setNth (A : Type) (i : nat) (x : A) (l : list A) :
  forall j,
    nth_error (setNth i x l) j
    = if (j =? i)%nat
      then match nth_error l i with Some _ => Some x | None => None end
      else nth_error l j.
Proof.
  revert i. induction l as [| y l IH]; intros i j.
  - cbn. destruct i, j; cbn; try reflexivity. destruct (j =? i)%nat; reflexivity.
  - destruct i as [| i], j as [| j]; cbn; try reflexivity. apply IH.
Qed.

Lemma setNth_length (A : Type) (i : nat) (x : A) (l : list A) :
  List.length (setNth i x l) = List.length l.
Proof.
  revert i. induction l as [| y l IH]; intros [| i]; cbn; try reflexivity.
  rewrite IH. reflexivity.
Qed.

Lemma Forall_setNth (A : Type) (P : A -> Prop) (i : nat) (x : A) (l : list A) :
  Forall P l -> P x -> Forall P (setNth i x l).
Proof.
  intros Hl Hx. revert i. induction Hl as [| y l Hy Hl IH]; intros [| i]; cbn;
    constructor; auto.
Qed.

Lemma count_setNth (A : Type) (p : A -> bool) (i : nat) (x y : A) (l : list A) :
  nth_error l i = Some y ->
  (count p (setNth i x l) + (if p y then 1 else 0)
   = count p l + (if p x then 1 else 0))%nat.
Proof.
  unfold count. revert i. induction l as [| z l IH]; intros [| i] H; cbn in H;
    try discriminate.
  - inversion H; subst z. cbn. destruct (p x), (p y); cbn; lia.
  - cbn. specialize (IH i H). destruct (p z); cbn; lia.
Qed.

Section Process.
Context {rt : JsRuntime}.

Lemma registered_wellFormed (net : Network) (coin : string) (r : Analysis)
    (now rnd : Z) :
  analyzeSymbol net coin = Some r -> wellFormed (registered now rnd r).
Proof.
  intro H. apply analyzeSymbol_inv in H. destruct H as (ohlcv & _ & _ & H).
  pose proof (signal_ordered _ _ H (@latest_atr_nonneg _ ohlcv)) as Hord.
  pose proof (signal_fields _ _ H) as
    (c & a & acc & _ & _ & _ & _ & _ & _ & _ & _ & Hconf).
  rewrite confidence_exact in Hconf.
  pose proof (confidence_range acc a) as Hr.
  pose proof maxChecks_value as Hmax.
  unfold wellFormed, ordered, registered. cbn.
  split; [tauto|].
  split; [split; reflexivity|]. split; [split; reflexivity|].
  split; [reflexivity|]. split; [lia|]. split; [lia|].
  split; [discriminate|].
  split; [intros [E | E]; discriminate|].
  split; [intros _; constructor|].
  split; [eauto|]. split; [exact Hord|].
  exists (confidenceExact acc a). split; [| exact Hr].
  rewrite Hconf. unfold orElse, truthyNum.
  replace (Qeq_bool (inject_Z (confidenceExact acc a)) 0) with false; [reflexivity|].
  symmetry. apply Qeq_bool_false. unfold Qeq, inject_Z. cbn [Qnum Qden]. lia.
Qed.

Lemma scanCoin_cases (net : Network) (now rnd : Z) (coin : string) (st : Index.State) :
  Index.scanCoin net now rnd coin st = st
  \/ exists r,
       analyzeSymbol net coin = Some r
       /\ Index.isDuplicateSignal now (Index.activeSignals st) coin (Analysis.side r)
          = false
       /\ Index.scanCoin net now rnd coin st = announced now rnd r st.
Proof.
  unfold Index.scanCoin.
  destruct (analyzeSymbol net coin) as [r|]; [| left; reflexivity].
  destruct (Index.accepted (Some r)); [| left; reflexivity].
  destruct (Index.isDuplicateSignal _ _ _ _) eqn:Ed; [left; reflexivity|].
  right. exists r. split; [reflexivity|]. split; [exact Ed | reflexivity].
Qed.

Lemma tickAt_cases (net : Network) (now : Z) (i : nat) (st : Index.State) :
  tickAt net now i st = st
  \/ exists s,
       nth_error (Index.activeSignals st) i = Some s
       /\ Index.monitorInterval s = true
       /\ tickAt net now i st
          = {| Index.activeSignals :=
                 setNth i (fst (Index.monitorTick net now s)) (Index.activeSignals st);
               Index.signalCountToday := Index.signalCountToday st;
               Index.outbox := Index.outbox st ++ snd (Index.monitorTick net now s) |}.
Proof.
  unfold tickAt.
  destruct (nth_error _ i) as [s|] eqn:En; [| left; reflexivity].
  destruct (Index.monitorInterval s) eqn:Hi; [| left; reflexivity].
  right. exists s. split; [reflexivity|]. split; [exact Hi|].
  destruct (Index.monitorTick net now s). reflexivity.
Qed.

Lemma tick_summary (net : Network) (now : Z) (s : Index.Signal) :
  wellFormed s -> Index.monitorInterval s = true ->
  wellFormed (fst (Index.monitorTick net now s))
  /\ sameSignal s (fst (Index.monitorTick net now s))
  /\ count isSignalMsg (snd (Index.monitorTick net now s)) = 0%nat
  /\ count isClosingMsg (snd (Index.monitorTick net now s))
     = (if isClosed (fst (Index.monitorTick net now s)) then 1 else 0)%nat
  /\ isClosed s = false.
Proof.
  intros Hw Hi.
  pose proof (runTicks_inv [(net, now)] Hw) as H. cbn [runTicks] in H. rewrite Hi in H.
  destruct (Index.monitorTick net now s) as [s' ev]. cbn [fst snd] in *.
  rewrite app_nil_r in H.
  destruct H as (H1 & H2 & _ & H4 & H5).
  pose proof (proj1 (isClosed_open s) (wf_open_running Hw Hi)) as Hc.
  rewrite Hc, andb_true_r in H5. auto.
Qed.

(** What every reachable state satisfies. *)
Lemma reachable_inv (st : Index.State) :
  Reachable st ->
  Forall wellFormed (Index.activeSignals st)
  /\ spaced (Index.activeSignals st)
  /\ Index.signalCountToday st = List.length (Index.activeSignals st)
  /\ count isSignalMsg (Index.outbox st) = List.length (Index.activeSignals st)
  /\ count isClosingMsg (Index.outbox st) = count isClosed (Index.activeSignals st).
Proof.
  induction 1 as [| net now rnd coin st Hr IH | net now i st Hr IH].
  - cbn. split; [constructor|].
    split; [intros i j si sj ci cj _ H; destruct i; discriminate H|].
    repeat split.
  - destruct IH as (Iw & Is & Ic & Im & Icl).
    destruct (scanCoin_cases net now rnd coin st) as [-> | (r & Ha & Hd & ->)]; [auto|].
    pose proof (@registered_wellFormed _ _ _ now rnd Ha) as Hw.
    apply analyzeSymbol_inv in Ha. destruct Ha as (ohlcv & _ & _ & Ha).
    destruct (signal_symbol _ _ Ha) as [Hsym _].
    unfold announced. cbn [Index.activeSignals Index.signalCountToday Index.outbox].
    split; [apply Forall_app; split; [exact Iw | constructor; [exact Hw | constructor]]|].
    split.
    { intros i j si sj ci cj Hij Hi Hj Esym Esd Hoi Hoj Hci Hcj.
      destruct (Nat.lt_ge_cases j (List.length (Index.activeSignals st))) as [Hlt | Hge].
      - rewrite nth_error_app1 in Hi, Hj by lia.
        exact (Is i j si sj ci cj Hij Hi Hj Esym Esd Hoi Hoj Hci Hcj).
      - rewrite nth_error_app2 in Hj by assumption.
        destruct (j - List.length (Index.activeSignals st))%nat as [| k] eqn:Ek;
          [| destruct k; discriminate Hj].
        cbn in Hj. inversion Hj; subst sj. clear Hj.
        rewrite nth_error_app1 in Hi by lia.
        cbn in Esym, Esd, Hcj. inversion Hcj; subst cj.
        destruct (Z.lt_ge_cases Index.windowMs (now - ci)) as [Hok | Hbad];
          [exact Hok | exfalso].
        assert (Hdup : duplicate now (Index.activeSignals st) coin (Analysis.side r)).
        { exists si. split; [eapply nth_error_In; exact Hi|].
          split; [congruence|]. split; [congruence|]. split; [left; exact Hoi|].
          exists ci. split; [exact Hci|]. rewrite <- windowMs_value. exact Hbad. }
        apply isDuplicateSignal_iff in Hdup. congruence. }
    rewrite !length_app, !count_app. cbn.
    split; [lia|]. split; [rewrite Im; reflexivity|].
    rewrite Icl. reflexivity.
  - destruct IH as (Iw & Is & Ic & Im & Icl).
    destruct (tickAt_cases net now i st) as [-> | (s & En & Hi & ->)]; [auto|].
    cbn [Index.activeSignals Index.signalCountToday Index.outbox].
    assert (Hw : wellFormed s).
    { rewrite Forall_forall in Iw. apply Iw. eapply nth_error_In; exact En. }
    destruct (tick_summary net now Hw Hi) as (T1 & T2 & T3 & T4 & T5).
    set (s' := fst (Index.monitorTick net now s)) in *.
    split; [apply Forall_setNth; assumption|].
    split.
    { intros i0 j0 si sj ci cj Hij Hi0 Hj0 Esym Esd Hoi Hoj Hci Hcj.
      assert (Hback : forall k x,
                 nth_error (setNth i s' (Index.activeSignals st)) k = Some x ->
                 Index.status x = "OPEN" ->
                 exists y, nth_error (Index.activeSignals st) k = Some y
                           /\ sameSignal y x /\ Index.status y = "OPEN").
      { intros k x Hk Hx. rewrite nth_error_setNth, En in Hk.
        destruct (Nat.eqb_spec k i) as [-> | Hne].
        - inversion Hk; subst x. exists s. split; [exact En|]. split; [exact T2|].
          apply wf_open_running; assumption.
        - exists x. split; [exact Hk|]. split; [apply sameSignal_refl | exact Hx]. }
      destruct (Hback _ _ Hi0 Hoi) as (yi & Yi & (_ & Si & Di & _ & _ & _ & _ & _ & Ci) & Oi).
      destruct (Hback _ _ Hj0 Hoj) as (yj & Yj & (_ & Sj & Dj & _ & _ & _ & _ & _ & Cj) & Oj).
      eapply (Is i0 j0 yi yj ci cj); try eassumption; congruence. }
    rewrite setNth_length, !count_app.
    split; [exact Ic|]. split; [rewrite T3; lia|].
    pose proof (@count_setNth _ isClosed i s' s _ En) as Hcnt.
    fold s' in T4. rewrite T5 in Hcnt. rewrite T4, Icl.
    destruct (isClosed s'); lia.
Qed.

(** X21.  From an empty signal list, whatever coins are scanned and
    whichever timers fire, each step complete before the next: every
    signal in [activeSignals] is well formed (its status is OPEN, TP, SL
    or EXPIRED; it is OPEN exactly when it has no resolution time and
    exactly when its timer is set; its count of checks is the length of
    its history and at most [maxChecks]; a TP or SL signal has that
    status as the last and only result of its history; its levels are
    ordered by its side and its confidence is a whole number from 60 to
    95), and two OPEN signals for the same symbol and side were created
    more than the deduplication window apart. *)
Theorem reachable_signals (st : Index.State) :
  Reachable st ->
  Forall wellFormed (Index.activeSignals st) /\ spaced (Index.activeSignals st).
Proof.
  intro H. destruct (reachable_inv H) as (H1 & H2 & _). split; assumption.
Qed.

(** X22.  In every reachable state the counter [signalCountToday] is the
    number of signals in [activeSignals] (it is never reset and no
    signal is ever removed), one new-signal message has been broadcast
    per signal, and one closing message per signal that is no longer
    OPEN. *)
Theorem reachable_accounting (st : Index.State) :
  Reachable st ->
  Index.signalCountToday st = List.length (Index.activeSignals st)
  /\ count isSignalMsg (Index.outbox st) = List.length (Index.activeSignals st)
  /\ count isClosingMsg (Index.outbox st) = count isClosed (Index.activeSignals st).
Proof.
  intro H. destruct (reachable_inv H) as (_ & _ & H3 & H4 & H5). auto.
Qed.

(** X23.  A step never removes or reorders signals: every signal keeps
    its position and the fields it was registered with, a closed signal
    is left exactly as it is, and the list grows by at most one. *)
Theorem step_keeps_signals (st st' : Index.State) :
  Step st st' ->
  Forall wellFormed (Index.activeSignals st) ->
  (List.length (Index.activeSignals st) <= List.length (Index.activeSignals st')
   <= List.length (Index.activeSignals st) + 1)%nat
  /\ forall i s,
       nth_error (Index.activeSignals st) i = Some s ->
       exists s',
         nth_error (Index.activeSignals st') i = Some s'
         /\ sameSignal s s'
         /\ (Index.status s <> "OPEN" -> s' = s).
Proof.
  intros Hstep Hw. destruct Hstep as [net now rnd coin st | net now i st].
  - destruct (scanCoin_cases net now rnd coin st) as [-> | (r & _ & _ & ->)].
    + split; [lia|]. intros i s H. exists s. split; [exact H|].
      split; [apply sameSignal_refl | reflexivity].
    + unfold announced. cbn [Index.activeSignals].
      rewrite length_app. cbn [List.length]. split; [lia|].
      intros i s H. exists s.
      split; [rewrite nth_error_app1; [exact H | apply nth_error_Some; congruence]|].
      split; [apply sameSignal_refl | reflexivity].
  - destruct (tickAt_cases net now i st) as [-> | (s0 & En & Hi & ->)].
    + split; [lia|]. intros k s H. exists s. split; [exact H|].
      split; [apply sameSignal_refl | reflexivity].
    + cbn [Index.activeSignals]. rewrite setNth_length. split; [lia|].
      intros k s H. rewrite nth_error_setNth, En.
      destruct (Nat.eqb_spec k i) as [-> | Hne].
      * rewrite En in H. inversion H; subst s0.
        exists (fst (Index.monitorTick net now s)). split; [reflexivity|].
        split; [apply tick_same|].
        intro Hc. exfalso. apply Hc. apply wf_open_running; [| exact Hi].
        rewrite Forall_forall in Hw. apply Hw. eapply nth_error_In; exact En.
      * exists s. split; [exact H|]. split; [apply sameSignal_refl | reflexivity].
Qed.

(** A result of [analyzeSymbol] has a side and a confidence of at least
    60, so the scan takes it up. *)
Lemma accepted_result (net : Network) (coin : string) (r : Analysis) :
  analyzeSymbol net coin = Some r -> Index.accepted (Some r) = true.
Proof.
  intro H. apply analyzeSymbol_inv in H. destruct H as (ohlcv & _ & _ & H).
  apply signal_fields in H.
  destruct H as (c & a & acc & _ & _ & _ & Hsd & _ & _ & _ & _ & Hc).
  rewrite confidence_exact in Hc.
  pose proof (confidence_range acc a) as Hr.
  unfold Index.accepted. rewrite Hc.
  apply andb_true_iff. split.
  - destruct Hsd as [-> | ->]; reflexivity.
  - apply ge_spec. unfold leP. change 60 with (inject_Z 60).
    rewrite <- Zle_Qle. lia.
Qed.

(** X24.  A scan of a coin whose analysis gives a side changes nothing,
    no second signal and no message, when the list holds a signal of
    that coin and side that is still OPEN (or PENDING) and was created
    no more than the deduplication window before; when every signal of
    that coin and side created within the window is closed (HIT_TP,
    HIT_SL or EXPIRED), the scan registers and announces a new signal.
    The scans and ticks are taken one at a time. *)
Theorem scanCoin_repeat (net : Network) (now rnd : Z) (coin : string)
    (r : Analysis) (st : Index.State) :
  analyzeSymbol net coin = Some r ->
  ((exists s c,
       In s (Index.activeSignals st)
       /\ Index.symbol s = coin /\ Index.side s = Analysis.side r
       /\ (Index.status s = "OPEN" \/ Index.status s = "PENDING")
       /\ Index.createdAt s = Some c /\ (now - c <= Index.windowMs)%Z) ->
   Index.scanCoin net now rnd coin st = st)
  /\ ((forall s c,
         In s (Index.activeSignals st) ->
         Index.symbol s = coin -> Index.side s = Analysis.side r ->
         Index.createdAt s = Some c -> (now - c <= Index.windowMs)%Z ->
         Index.status s <> "OPEN" /\ Index.status s <> "PENDING") ->
      Index.scanCoin net now rnd coin st = announced now rnd r st).
Proof.
  intro Ha. pose proof (accepted_result _ _ Ha) as Hacc.
  assert (Hscan : Index.scanCoin net now rnd coin st
                  = if Index.isDuplicateSignal now (Index.activeSignals st) coin
                         (Analysis.side r)
                    then st else announced now rnd r st).
  { unfold Index.scanCoin. rewrite Ha, Hacc.
    destruct (Index.isDuplicateSignal _ _ _ _); reflexivity. }
  rewrite Hscan. split.
  - intros (s & c & Hin & Hsym & Hsd & Hst & Hc & Hw).
    assert (Hdup : duplicate now (Index.activeSignals st) coin (Analysis.side r)).
    { exists s. repeat (split; [assumption|]). exists c. split; [exact Hc|].
      rewrite <- windowMs_value. exact Hw. }
    apply isDuplicateSignal_iff in Hdup. rewrite Hdup. reflexivity.
  - intro Hnone.
    destruct (Index.isDuplicateSignal now (Index.activeSignals st) coin (Analysis.side r))
      eqn:Ed; [exfalso | reflexivity].
    apply isDuplicateSignal_iff in Ed.
    destruct Ed as (s & Hin & Hsym & Hsd & Hst & c & Hc & Hw).
    rewrite <- windowMs_value in Hw.
    destruct (Hnone s c Hin Hsym Hsd Hc Hw) as [H1 H2]. destruct Hst; contradiction.
Qed.

End Process.

End LifecycleFacts.


(* ================================================================== *)
(** ** Instances of the further properties                             *)
(* ================================================================== *)

Import Samples.

Lemma bybitItem_encodings_witness :
  Forall (fun v => truthy v = true) (firstn 5 (map snd bybitRecord))
  /\ bybitItem (rt := refRuntime) (VObject bybitRecord)
     = bybitItem (rt := refRuntime) (VArray (map snd bybitRecord)).
Proof.
  assert (H : Forall (fun v => truthy v = true) (firstn 5 (map snd bybitRecord)))
    by (repeat constructor).
  split; [exact H|].
  exact (bybitItem_encodings (rt := refRuntime) bybitRecord H).
Defined.

Lemma sma_shape_witness :
  3%nat <> 0%nat
  /\ List.length (sma [Num 1; NaN; Num 3; Num 4] 3) = 4%nat
  /\ (defined (nth 2 (sma [Num 1; NaN; Num 3; Num 4] 3) NaN)
      <-> (3 - 1 <= 2 < List.length [Num 1; NaN; Num 3; Num 4])%nat)
  /\ sma (zeroFilled [Num 1; NaN; Num 3; Num 4]) 3 = sma [Num 1; NaN; Num 3; Num 4] 3.
Proof.
  assert (H : 3%nat <> 0%nat) by discriminate.
  split; [exact H|].
  destruct (@sma_shape [Num 1; NaN; Num 3; Num 4] 3 H) as (H1 & H2 & H3).
  split; [exact H1|]. split; [exact (H2 2%nat) | exact H3].
Defined.

Lemma atrFromCandles_shape_witness :
  slide <> []
  /\ List.length (atrFromCandles slide ATR_LENGTH) = List.length slide.
Proof.
  assert (H : slide <> []) by discriminate.
  split; [exact H|].
  exact (proj1 (@atrFromCandles_shape slide ATR_LENGTH H)).
Defined.

Lemma analyzeSymbol_levels_ordered_witness :
  analyzeSymbol (rt := refRuntime) slideNetwork "DOGEUSDT" = Some slideSignal
  /\ Analysis.symbol slideSignal = "DOGEUSDT"
  /\ meta_timeframe (meta slideSignal) = "5m"
  /\ ((side slideSignal = "LONG"
       /\ leP (sl slideSignal) (entry slideSignal)
       /\ leP (entry slideSignal) (tp slideSignal))
      \/ (side slideSignal = "SHORT"
          /\ leP (tp slideSignal) (entry slideSignal)
          /\ leP (entry slideSignal) (sl slideSignal))).
Proof.
  split; [exact slide_analysis|].
  exact (analyzeSymbol_levels_ordered (rt := refRuntime) slideNetwork "DOGEUSDT"
           slide_analysis).
Defined.

Lemma slide_close : snap_close (latestSnapshot (rt := refRuntime) slide) = Num (924 # 1000).
Proof. vm_compute. reflexivity. Qed.

Lemma analyzeSymbol_entry_exact_witness :
  analyzeSymbol (rt := refRuntime) slideNetwork "DOGEUSDT" = Some slideSignal
  /\ loadCandles (rt := refRuntime) slideNetwork "DOGEUSDT" "5m" 200 = Ok slide
  /\ decimals 8 (snap_close (latestSnapshot (rt := refRuntime) slide))
  /\ entry slideSignal =n= snap_close (latestSnapshot (rt := refRuntime) slide).
Proof.
  assert (H : decimals 8 (snap_close (latestSnapshot (rt := refRuntime) slide))).
  { rewrite slide_close. exists 92400000%Z. vm_compute. reflexivity. }
  split; [exact slide_analysis|]. split; [exact slide_loaded|]. split; [exact H|].
  exact (analyzeSymbol_entry_exact (rt := refRuntime) slideNetwork "DOGEUSDT"
           slide_analysis slide_loaded H).
Defined.

Lemma checkSignalHit_request_witness :
  (forall source,
      shuffledNetwork source "BTCUSDT" "1m" (clamped 120)
      = minuteNetwork source "BTCUSDT" "1m" (clamped 120))
  /\ checkSignalHit (rt := refRuntime) shuffledNetwork "BTCUSDT" "LONG"
       (Num 100) (Num 99) (Num (203 # 2)) 120
     = checkSignalHit (rt := refRuntime) minuteNetwork "BTCUSDT" "LONG"
         (Num 100) (Num 99) (Num (203 # 2)) 120.
Proof.
  assert (H : forall source,
             shuffledNetwork source "BTCUSDT" "1m" (clamped 120)
             = minuteNetwork source "BTCUSDT" "1m" (clamped 120))
    by (intro; reflexivity).
  split; [exact H|].
  exact (proj1 (checkSignalHit_request (rt := refRuntime) shuffledNetwork minuteNetwork
                  "BTCUSDT" "LONG" (Num 100) (Num 99) (Num (203 # 2)) 120 H)).
Defined.

Lemma tight_hit :
  checkSignalHit (rt := refRuntime) shuffledNetwork "BTCUSDT" "LONG"
    (Num 100) (Num 99) (Num (203 # 2)) 120 = Hit "TP" 0 firstShuffled.
Proof. vm_compute. reflexivity. Qed.

Lemma checkSignalHit_hit_witness :
  checkSignalHit (rt := refRuntime) shuffledNetwork "BTCUSDT" "LONG"
    (Num 100) (Num 99) (Num (203 # 2)) 120 = Hit "TP" 0 firstShuffled
  /\ ("TP" = "TP" \/ "TP" = "SL")
  /\ ("LONG" = "LONG" \/ "LONG" = "SHORT").
Proof.
  split; [exact tight_hit|].
  destruct (checkSignalHit_hit (rt := refRuntime) shuffledNetwork "BTCUSDT" "LONG"
              (Num 100) (Num 99) (Num (203 # 2)) 120 tight_hit) as (H1 & H2 & _).
  split; assumption.
Defined.

Lemma checkSignalHit_never_witness :
  (("FLAT" <> "LONG" /\ "FLAT" <> "SHORT") \/ (Num 99 = NaN /\ Num (203 # 2) = NaN))
  /\ checkSignalHit (rt := refRuntime) shuffledNetwork "BTCUSDT" "FLAT"
       (Num 100) (Num 99) (Num (203 # 2)) 120 = NoHit.
Proof.
  assert (H : ("FLAT" <> "LONG" /\ "FLAT" <> "SHORT")
              \/ (Num 99 = NaN /\ Num (203 # 2) = NaN))
    by (left; split; discriminate).
  split; [exact H|].
  exact (checkSignalHit_never (rt := refRuntime) shuffledNetwork "BTCUSDT"
           (Num 100) 120 H).
Defined.

Lemma sorted_loaded (limit : Z) :
  loadCandles (rt := refRuntime) Samples.sortedNetwork "BTCUSDT" "1m" limit = Ok Samples.sortedCandles.
Proof. vm_compute. reflexivity. Qed.

Lemma checkSignalHit_oldest_witness :
  loadCandles (rt := refRuntime) Samples.sortedNetwork "BTCUSDT" "1m" (clamped 120)
    = Ok Samples.sortedCandles
  /\ checkSignalHit (rt := refRuntime) Samples.sortedNetwork "BTCUSDT" "LONG"
       (Num 100) (Num (399 # 4)) (Num (509 # 5)) 120
     = Hit "SL" 0 Samples.oldestShuffled
  /\ Sorted timeLe Samples.sortedCandles
  /\ forall j c',
       nth_error Samples.sortedCandles j = Some c' ->
       tpTouched "LONG" (Num (509 # 5)) c' \/ slTouched "LONG" (Num (399 # 4)) c' ->
       (0 <= j)%nat /\ timeLe Samples.oldestShuffled c'.
Proof.
  assert (Hh : checkSignalHit (rt := refRuntime) Samples.sortedNetwork "BTCUSDT" "LONG"
                 (Num 100) (Num (399 # 4)) (Num (509 # 5)) 120
               = Hit "SL" 0 Samples.oldestShuffled) by (vm_compute; reflexivity).
  assert (Hb : forall source, In source DATA_SOURCES ->
                 includes (name source) "Bybit" = false ->
                 trySource (rt := refRuntime) Samples.sortedNetwork "BTCUSDT" "1m" (clamped 120)
                   source = None).
  { intros source [<- | [<- | [<- | []]]] E; try reflexivity. discriminate E. }
  assert (Hd : Forall (fun c => defined (t c)) Samples.sortedCandles)
    by (repeat constructor).
  split; [exact (sorted_loaded _)|]. split; [exact Hh|].
  destruct (@checkSignalHit_oldest refRuntime Samples.sortedNetwork "BTCUSDT" "LONG" (Num 100)
              (Num (399 # 4)) (Num (509 # 5)) 120 Samples.sortedCandles "SL" 0 Samples.oldestShuffled
              (sorted_loaded _) Hb Hd Hh) as (H1 & _ & H3).
  split; assumption.
Defined.

Lemma start_stop_witness :
  NoDup (Subscribers.keys someUsers)
  /\ Subscribers.has 8 (fst (Subscribers.onStart 1700000000000 8 None someUsers)) = true
  /\ Subscribers.has 8 (fst (Subscribers.onStop 8 someUsers)) = false.
Proof.
  assert (H : NoDup (Subscribers.keys someUsers)).
  { repeat constructor. intros []. }
  split; [exact H|].
  destruct (@SubscriberFacts.start_stop 1700000000000 8 None someUsers H)
    as (H1 & H2 & _).
  split; assumption.
Defined.

Lemma openSignal_wellFormed : Lifecycle.wellFormed (openSignal 0).
Proof.
  unfold Lifecycle.wellFormed, Lifecycle.ordered, openSignal. cbn.
  split; [tauto|].
  split; [split; reflexivity|]. split; [split; reflexivity|].
  split; [reflexivity|]. split; [vm_compute; discriminate|].
  split; [intros _; reflexivity|].
  split; [discriminate|].
  split; [intros [E | E]; discriminate|].
  split; [intros _; constructor|].
  split; [eauto|].
  split; [left; split; [reflexivity|]; split; vm_compute; discriminate|].
  exists 70%Z. split; [reflexivity | lia].
Qed.

Lemma runTicks_lifecycle_witness :
  Lifecycle.wellFormed (openSignal 0)
  /\ Lifecycle.wellFormed
       (fst (Lifecycle.runTicks (rt := refRuntime)
               [(deadNetwork, 1700000060000%Z); (shuffledNetwork, 1700000120000%Z)]
               (openSignal 0))).
Proof.
  split; [exact openSignal_wellFormed|].
  exact (proj1 (LifecycleFacts.runTicks_lifecycle (rt := refRuntime)
                  [(deadNetwork, 1700000060000%Z); (shuffledNetwork, 1700000120000%Z)]
                  openSignal_wellFormed)).
Defined.

Lemma runTicks_expiry_witness :
  Index.status (openSignal 46) = "OPEN"
  /\ Index.monitorInterval (openSignal 46) = true
  /\ Forall (fun t => Lifecycle.hitOf (rt := refRuntime) (fst t) (openSignal 46) = NoHit)
       ([(deadNetwork, 1700000060000%Z)] ++ [(deadNetwork, 1700000120000%Z)])
  /\ (Index.monitorChecks (openSignal 46)
      + Z.of_nat (List.length [(deadNetwork, 1700000060000%Z)]) + 1
      = Index.maxChecks)%Z
  /\ Lifecycle.runTicks (rt := refRuntime)
       ([(deadNetwork, 1700000060000%Z)] ++ (deadNetwork, 1700000120000%Z) :: [])
       (openSignal 46)
     = (Lifecycle.afterExpiry
          (Lifecycle.quiet [(deadNetwork, 1700000060000%Z)] (openSignal 46))
          1700000120000,
        Lifecycle.expiryEvents (openSignal 46)).
Proof.
  assert (H : Forall (fun t => Lifecycle.hitOf (rt := refRuntime) (fst t) (openSignal 46)
                               = NoHit)
                ([(deadNetwork, 1700000060000%Z)] ++ [(deadNetwork, 1700000120000%Z)]))
    by (repeat constructor).
  split; [reflexivity|]. split; [reflexivity|]. split; [exact H|].
  split; [reflexivity|].
  exact (proj1 (proj2 (proj2
           (LifecycleFacts.runTicks_expiry (rt := refRuntime)
              [(deadNetwork, 1700000060000%Z)] [] deadNetwork 1700000120000
              (openSignal 46) eq_refl eq_refl H eq_refl)))).
Defined.

Lemma tight_hitOf :
  Lifecycle.hitOf (rt := refRuntime) shuffledNetwork tightSignal
  = Hit "TP" 0 firstShuffled.
Proof. exact tight_hit. Qed.

Lemma runTicks_first_hit_witness :
  Index.status tightSignal = "OPEN"
  /\ Index.monitorInterval tightSignal = true
  /\ Forall (fun t => Lifecycle.hitOf (rt := refRuntime) (fst t) tightSignal = NoHit)
       [(deadNetwork, 1700000060000%Z)]
  /\ (Index.monitorChecks tightSignal
      + Z.of_nat (List.length [(deadNetwork, 1700000060000%Z)]) < Index.maxChecks)%Z
  /\ Lifecycle.hitOf (rt := refRuntime) shuffledNetwork tightSignal
     = Hit "TP" 0 firstShuffled
  /\ Lifecycle.runTicks (rt := refRuntime)
       ([(deadNetwork, 1700000060000%Z)] ++ (shuffledNetwork, 1700000120000%Z) :: [])
       tightSignal
     = (Lifecycle.afterHit
          (Lifecycle.quiet [(deadNetwork, 1700000060000%Z)] tightSignal) "TP"
          1700000120000,
        [Index.Persist; Index.Broadcast (Lifecycle.resolvedMsg tightSignal "TP");
         Index.Persist; Index.Persist]).
Proof.
  assert (H : Forall (fun t => Lifecycle.hitOf (rt := refRuntime) (fst t) tightSignal
                               = NoHit)
                [(deadNetwork, 1700000060000%Z)])
    by (repeat constructor).
  assert (Hm : (Index.monitorChecks tightSignal
                + Z.of_nat (List.length [(deadNetwork, 1700000060000%Z)])
                < Index.maxChecks)%Z) by reflexivity.
  split; [reflexivity|]. split; [reflexivity|]. split; [exact H|].
  split; [exact Hm|]. split; [exact tight_hitOf|].
  exact (proj1 (@LifecycleFacts.runTicks_first_hit refRuntime
                  [(deadNetwork, 1700000060000%Z)] [] shuffledNetwork 1700000120000
                  tightSignal "TP" 0%nat firstShuffled eq_refl eq_refl H Hm tight_hitOf)).
Defined.

Lemma pnlPct_sign_witness :
  Lifecycle.ordered tightSignal
  /\ ltP n0 (Index.entry tightSignal)
  /\ leP n0 (Index.pnlPct tightSignal "TP")
  /\ leP (Index.pnlPct tightSignal "SL") n0.
Proof.
  assert (Ho : Lifecycle.ordered tightSignal).
  { left. split; [reflexivity|]. split; vm_compute; discriminate. }
  assert (He : ltP n0 (Index.entry tightSignal)) by reflexivity.
  split; [exact Ho|]. split; [exact He|].
  exact (@LifecycleFacts.pnlPct_sign tightSignal Ho He).
Defined.

Lemma ticked_reachable : Lifecycle.Reachable (rt := refRuntime) ticked.
Proof. apply Lifecycle.reach_tick, Lifecycle.reach_scan, Lifecycle.reach_initial. Qed.

Lemma reachable_signals_witness :
  Lifecycle.Reachable (rt := refRuntime) ticked
  /\ Forall Lifecycle.wellFormed (Index.activeSignals ticked)
  /\ Lifecycle.spaced (Index.activeSignals ticked).
Proof.
  split; [exact ticked_reachable|].
  exact (LifecycleFacts.reachable_signals (rt := refRuntime) ticked_reachable).
Defined.

Lemma reachable_accounting_witness :
  Lifecycle.Reachable (rt := refRuntime) ticked
  /\ Index.signalCountToday ticked = List.length (Index.activeSignals ticked)
  /\ Lifecycle.count Lifecycle.isSignalMsg (Index.outbox ticked)
     = List.length (Index.activeSignals ticked)
  /\ Lifecycle.count Lifecycle.isClosingMsg (Index.outbox ticked)
     = Lifecycle.count Lifecycle.isClosed (Index.activeSignals ticked).
Proof.
  split; [exact ticked_reachable|].
  exact (LifecycleFacts.reachable_accounting (rt := refRuntime) ticked_reachable).
Defined.

Lemma scanned_reachable : Lifecycle.Reachable (rt := refRuntime) scanned.
Proof. apply Lifecycle.reach_scan, Lifecycle.reach_initial. Qed.

Lemma step_keeps_signals_witness :
  Lifecycle.Step (rt := refRuntime) scanned ticked
  /\ Forall Lifecycle.wellFormed (Index.activeSignals scanned)
  /\ (List.length (Index.activeSignals scanned) <= List.length (Index.activeSignals ticked)
      <= List.length (Index.activeSignals scanned) + 1)%nat.
Proof.
  assert (Hs : Lifecycle.Step (rt := refRuntime) scanned ticked)
    by apply Lifecycle.step_tick.
  assert (Hw : Forall Lifecycle.wellFormed (Index.activeSignals scanned))
    by exact (proj1 (LifecycleFacts.reachable_inv (rt := refRuntime) scanned_reachable)).
  split; [exact Hs|]. split; [exact Hw|].
  exact (proj1 (LifecycleFacts.step_keeps_signals (rt := refRuntime) Hs Hw)).
Defined.

(** After 48 quiet one-minute checks the registered signal is EXPIRED. *)
Lemma expired_closed :
  Forall (fun s => Index.status s = "EXPIRED") (Index.activeSignals expired).
Proof. vm_compute. repeat constructor. Qed.

Lemma scanCoin_repeat_witness :
  analyzeSymbol (rt := refRuntime) slideNetwork "DOGEUSDT" = Some slideSignal
  /\ Index.scanCoin (rt := refRuntime) slideNetwork 1700000300000 8 "DOGEUSDT"
       (Lifecycle.announced 1700000000000 7 slideSignal Lifecycle.initial)
     = Lifecycle.announced 1700000000000 7 slideSignal Lifecycle.initial
  /\ (1700003540000 - 1700000000000 <= Index.windowMs)%Z
  /\ Index.scanCoin (rt := refRuntime) slideNetwork 1700003540000 8 "DOGEUSDT" expired
     = Lifecycle.announced 1700003540000 8 slideSignal expired.
Proof.
  split; [exact slide_analysis|]. split; [| split; [vm_compute; discriminate|]].
  - apply (proj1 (@LifecycleFacts.scanCoin_repeat refRuntime slideNetwork 1700000300000 8
                    "DOGEUSDT" slideSignal
                    (Lifecycle.announced 1700000000000 7 slideSignal Lifecycle.initial)
                    slide_analysis)).
    exists (Lifecycle.registered 1700000000000 7 slideSignal), 1700000000000%Z.
    split; [left; reflexivity|]. split; [reflexivity|]. split; [reflexivity|].
    split; [left; reflexivity|]. split; [reflexivity|]. vm_compute. discriminate.
  - apply (proj2 (@LifecycleFacts.scanCoin_repeat refRuntime slideNetwork 1700003540000 8
                    "DOGEUSDT" slideSignal expired slide_analysis)).
    intros s c Hin _ _ _ _.
    pose proof expired_closed as Hc. rewrite Forall_forall in Hc.
    rewrite (Hc s Hin). split; discriminate.
Defined.
